(** * Railbird: the document-to-race-card extraction pipeline

    A shallow embedding of [backend/src/services/ocr.service.ts] (class
    [OCRService]) and the properties of its race-card extraction.

    Layout: JavaScript strings and the built-ins the service calls
    ([JS]), the regular-expression matcher ([RegExp]), the service itself
    ([OCR]), then the lemmas and theorems. *)

From Stdlib Require Import String Ascii List ZArith NArith Bool Lia QArith Sorted.
From Stdlib Require DecimalString.
Import ListNotations.
Close Scope Q_scope.

Set Implicit Arguments.

(* ===================================================================== *)
(** * JavaScript strings and built-ins *)
(* ===================================================================== *)

Module JS.
Local Open Scope N_scope.

(** A JavaScript string is a sequence of UTF-16 code units. *)
Definition char := N.
Definition jsstring := list char.

(** String literals of the source (all of them ASCII). *)
Definition str (s : string) : jsstring :=
  map N_of_ascii (list_ascii_of_string s).

Definition LF : char := 10.

Definition between (lo hi c : char) : bool := ((lo <=? c) && (c <=? hi))%N.

Definition is_digit (c : char) : bool := between 48 57 c.
Definition is_upper (c : char) : bool := between 65 90 c.
Definition is_lower (c : char) : bool := between 97 122 c.

(** ECMAScript [WhiteSpace] and [LineTerminator]: what [\s] and
    [String.prototype.trim] take for blank. *)
Definition is_line_terminator (c : char) : bool :=
  ((c =? 10) || (c =? 13) || (c =? 8232) || (c =? 8233))%N.
Definition is_white_space (c : char) : bool :=
  ((c =? 9) || (c =? 11) || (c =? 12) || (c =? 32) || (c =? 160)
   || (c =? 5760) || between 8192 8202 c || (c =? 8239) || (c =? 8287)
   || (c =? 12288) || (c =? 65279))%N.
Definition is_space (c : char) : bool :=
  is_white_space c || is_line_terminator c.

(** [\w]: ASCII letters, digits and underscore. *)
Definition is_word (c : char) : bool :=
  is_upper c || is_lower c || is_digit c || (c =? 95)%N.

(** Case mapping. Only the ASCII letters are mapped; a letter beyond
    ASCII is left as it is, where [String.prototype.toLowerCase] and
    [toUpperCase] map it too. The service upper-cases what a pattern of
    ASCII letters matched, and compares what it lower-cases with the
    literals pdf, jpg, jpeg and png only: no character beyond ASCII
    maps to one of their letters, so the choice of the path is the
    same; the extension echoed in the unsupported-type message can
    differ. *)
Definition to_upper (c : char) : char := if is_lower c then (c - 32)%N else c.
Definition to_lower (c : char) : char := if is_upper c then (c + 32)%N else c.
Definition swap_case (c : char) : char :=
  if is_lower c then (c - 32)%N else if is_upper c then (c + 32)%N else c.

Definition toUpperCase (s : jsstring) : jsstring := map to_upper s.
Definition toLowerCase (s : jsstring) : jsstring := map to_lower s.

Definition eqb (a b : jsstring) : bool :=
  if list_eq_dec N.eq_dec a b then true else false.

(** [s.trim()]. *)
Fixpoint trimStart (s : jsstring) : jsstring :=
  match s with
  | c :: s' => if is_space c then trimStart s' else s
  | [] => []
  end.
Definition trimEnd (s : jsstring) : jsstring := rev (trimStart (rev s)).
Definition trim (s : jsstring) : jsstring := trimEnd (trimStart s).

(** [s.split(sep)] for a separator of one code unit: never empty,
    [''.split(sep)] is [['']]. *)
Fixpoint split (sep : char) (s : jsstring) : list jsstring :=
  match s with
  | [] => [[]]
  | c :: s' =>
      if (c =? sep)%N then [] :: split sep s'
      else match split sep s' with
           | l :: ls => (c :: l) :: ls
           | [] => [[c]]
           end
  end.

(** [parts.join(sep)]. *)
Fixpoint join (sep : jsstring) (parts : list jsstring) : jsstring :=
  match parts with
  | [] => []
  | [p] => p
  | p :: ps => p ++ sep ++ join sep ps
  end.

Fixpoint take_while (p : char -> bool) (s : jsstring) : jsstring :=
  match s with
  | c :: s' => if p c then c :: take_while p s' else []
  | [] => []
  end.
Fixpoint drop_while (p : char -> bool) (s : jsstring) : jsstring :=
  match s with
  | c :: s' => if p c then drop_while p s' else s
  | [] => []
  end.

(** [s.replace(/c/g, '')] for a pattern of one code unit. *)
Definition remove_all (c : char) (s : jsstring) : jsstring :=
  filter (fun x => negb (x =? c)%N) s.

(** JavaScript numbers as far as the service needs them: [NaN], the
    infinities, or a double whose value is an integer, given by that
    integer. *)
Inductive jsnumber : Type :=
| NaN
| Num (z : Z)
| Infinity
| MinusInfinity.

(** The double nearest to a natural number, as its value: exact up to
    53 bits; beyond, the bits after the 53rd are rounded off, a tie
    going to the even significand. *)
Definition round_nearest_even (z : Z) : Z :=
  let sh := (Z.log2 z - 52)%Z in
  if (sh <=? 0)%Z then z
  else
    let q := Z.shiftr z sh in
    let r := (z - Z.shiftl q sh)%Z in
    let half := Z.shiftl 1 (sh - 1) in
    let q' :=
      if (half <? r)%Z || ((r =? half)%Z && Z.odd q) then (q + 1)%Z else q in
    Z.shiftl q' sh.

(** The Number value for an integer: what rounds to 2^1024 or more is
    infinite. *)
Definition to_double (z : Z) : jsnumber :=
  let m := round_nearest_even (Z.abs z) in
  if (2 ^ 1024 <=? m)%Z
  then (if (z <? 0)%Z then MinusInfinity else Infinity)
  else Num (Z.sgn z * m).

Definition digit_val (c : char) : Z := Z.of_N (c - 48).

(** Value of the longest prefix of decimal digits, with the number of
    digits read. *)
Fixpoint read_decimal (acc : Z) (count : nat) (s : jsstring) : Z * nat :=
  match s with
  | c :: s' =>
      if is_digit c then read_decimal (10 * acc + digit_val c)%Z (S count) s'
      else (acc, count)
  | [] => (acc, count)
  end.

Definition hex_val (c : char) : option Z :=
  if is_digit c then Some (Z.of_N (c - 48))
  else if between 65 70 c then Some (Z.of_N (c - 55))
  else if between 97 102 c then Some (Z.of_N (c - 87))
  else None.

Fixpoint read_hex (acc : Z) (count : nat) (s : jsstring) : Z * nat :=
  match s with
  | c :: s' =>
      match hex_val c with
      | Some v => read_hex (16 * acc + v)%Z (S count) s'
      | None => (acc, count)
      end
  | [] => (acc, count)
  end.

Definition finish_parse (sign : Z) (r : Z * nat) : jsnumber :=
  match snd r with
  | O => NaN
  | S _ => to_double (sign * fst r)%Z
  end.

(** [parseInt(s)] without a radix: leading blanks, a sign, a [0x]
    prefix, then the longest run of digits, read exactly and rounded to
    a double at the end (as V8 does; ECMAScript lets an engine read the
    decimal digits after the 20th as zeros); [NaN] when there is no
    digit. *)
Definition parseInt (s : jsstring) : jsnumber :=
  let s1 := trimStart s in
  let sign :=
    match s1 with
    | c :: _ => if c =? 45 then (-1)%Z else 1%Z
    | [] => 1%Z
    end in
  let s2 :=
    match s1 with
    | c :: t => if (c =? 45) || (c =? 43) then t else s1
    | [] => s1
    end in
  let hex :=
    match s2 with
    | z :: x :: _ => (z =? 48) && ((x =? 120) || (x =? 88))
    | _ => false
    end in
  if hex then finish_parse sign (read_hex 0%Z 0%nat (skipn 2 s2))
  else finish_parse sign (read_decimal 0%Z 0%nat s2).

(** The decimal digits of a natural number. *)
Definition decimal_digits (z : Z) : jsstring :=
  str (DecimalString.NilZero.string_of_int (Z.to_int z)).

(** [Number::toString] on a double whose value is the natural number
    [z]: the digits are those of the shortest decimal that still reads
    as [z]. With [k] significant digits the candidates are the two
    neighbours of [z] among the multiples of the power of ten left. *)
Definition same_double (c z : Z) : bool :=
  match to_double c with
  | Num d => (d =? z)%Z
  | _ => false
  end.

Definition candidates (z : Z) (k : nat) : Z * Z :=
  let p := (10 ^ Z.of_nat (length (decimal_digits z) - k))%Z in
  let lo := (z / p * p)%Z in
  (lo, (lo + p)%Z).

(** Of two candidates that both read as [z] the closer is taken, and
    of two equally close the one whose last digit is even. *)
Definition closer (z : Z) (k : nat) : Z :=
  let (lo, hi) := candidates z k in
  if (z - lo <? hi - z)%Z then lo
  else if (hi - z <? z - lo)%Z then hi
  else if Z.even (lo / (hi - lo)) then lo else hi.

Fixpoint shortest (z : Z) (k : nat) (fuel : nat) : Z :=
  match fuel with
  | O => z
  | S fuel' =>
      let (lo, hi) := candidates z k in
      match same_double lo z, same_double hi z with
      | true, true => closer z k
      | true, false => lo
      | false, true => hi
      | false, false => shortest z (S k) fuel'
      end
  end.

Definition strip_zeros (ds : jsstring) : jsstring :=
  rev (drop_while (fun c => c =? 48) (rev ds)).

(** Below 10^21 the digits are written out; from there on the
    exponent form is used. *)
Definition render (c : Z) : jsstring :=
  if (c <? 10 ^ 21)%Z then decimal_digits c
  else
    let exponent :=
      str "e+" ++ decimal_digits (Z.of_nat (length (decimal_digits c) - 1)) in
    match strip_zeros (decimal_digits c) with
    | [] => decimal_digits c
    | [d] => d :: exponent
    | d :: ds => d :: 46 :: ds ++ exponent
    end.

(** [`${n}`] for a number. *)
Definition number_to_string (n : jsnumber) : jsstring :=
  match n with
  | NaN => str "NaN"
  | Infinity => str "Infinity"
  | MinusInfinity => str "-Infinity"
  | Num z =>
      if (z <? 0)%Z then 45 :: render (shortest (- z) 1 17)
      else render (shortest z 1 17)
  end.

(** [a > b] on numbers: false as soon as one side is [NaN]. *)
Definition gt (a : jsnumber) (b : Z) : bool :=
  match a with
  | NaN => false
  | Num z => (b <? z)%Z
  | Infinity => true
  | MinusInfinity => false
  end.

(** Truthiness of an optional string: [undefined], [null] and [''] are
    falsy. *)
Definition or_else (o : option jsstring) (d : jsstring) : jsstring :=
  match o with
  | Some (c :: s) => c :: s
  | _ => d
  end.

End JS.

(* ===================================================================== *)
(** * Regular expressions

    The backtracking matcher of ECMAScript for the constructs the service
    uses: character classes, sequence, ordered alternation, greedy and
    lazy repetition, capture groups, [^] and [$] (no [m] flag), and the
    [i] flag. No pattern of the service has a group inside a repetition,
    so the reset of captures at each iteration is not modelled. *)
(* ===================================================================== *)

Module RegExp.
Import JS.
Local Open Scope N_scope.

(** The members of a character class. *)
Inductive cset : Type :=
| CChar (c : char)
| CRange (lo hi : char)
| CDigit
| CSpace
| CWord
| CUnion (a b : cset).

Inductive regex : Type :=
| Eps
| Cls (neg : bool) (cs : cset)
| Seq (r1 r2 : regex)
| Alt (r1 r2 : regex)
| Star (greedy : bool) (r : regex)
| Group (n : nat) (r : regex)
| Bol
| Eol.

Fixpoint cset_mem (cs : cset) (c : char) : bool :=
  match cs with
  | CChar a => (c =? a)%N
  | CRange lo hi => between lo hi c
  | CDigit => is_digit c
  | CSpace => is_space c
  | CWord => is_word c
  | CUnion a b => cset_mem a c || cset_mem b c
  end.

(** With the [i] flag a character matches a class when some member has
    the same canonical form: the character itself or its other case. *)
Definition cls_match (icase neg : bool) (cs : cset) (c : char) : bool :=
  xorb neg (cset_mem cs c || (icase && cset_mem cs (swap_case c))).

(** Captures: the text of each group that took part in the match. *)
Definition caps := nat -> option jsstring.
Definition no_caps : caps := fun _ => None.
Definition set_cap (n : nat) (w : jsstring) (c : caps) : caps :=
  fun m => if Nat.eqb m n then Some w else c m.

Definition cont := nat -> jsstring -> caps -> option (nat * caps).

Definition orelse {A} (a b : option A) : option A :=
  match a with
  | Some x => Some x
  | None => b
  end.

Section Matcher.
Variable icase : bool.

(** The repetition of [body] ([n] bounds the iterations left): a
    greedy one tries another iteration first, a lazy one the
    continuation first. An iteration that consumes nothing is
    rejected, as ECMAScript does. *)
Fixpoint star_loop (body : nat -> jsstring -> caps -> cont -> option (nat * caps))
  (greedy : bool) (k : cont) (n : nat) (pos : nat) (s : jsstring) (c : caps)
  {struct n} : option (nat * caps) :=
  let iter :=
    match n with
    | O => None
    | S n' =>
        body pos s c
          (fun p1 s1 c1 =>
             if (length s1 <? length s)%nat
             then star_loop body greedy k n' p1 s1 c1
             else None)
    end in
  if greedy then orelse iter (k pos s c) else orelse (k pos s c) iter.

(** [run r pos s c k]: match [r] at offset [pos], where [s] is the
    rest of the input from there, then continue with [k]; the first
    success in backtracking order. *)
Fixpoint run (r : regex) (pos : nat) (s : jsstring) (c : caps) (k : cont)
  {struct r} : option (nat * caps) :=
  match r with
  | Eps => k pos s c
  | Cls neg cs =>
      match s with
      | ch :: s' => if cls_match icase neg cs ch then k (S pos) s' c else None
      | [] => None
      end
  | Seq r1 r2 => run r1 pos s c (fun p1 s1 c1 => run r2 p1 s1 c1 k)
  | Alt r1 r2 => orelse (run r1 pos s c k) (run r2 pos s c k)
  | Star greedy r1 => star_loop (run r1) greedy k (length s) pos s c
  | Group n r1 =>
      run r1 pos s c
        (fun p1 s1 c1 => k p1 s1 (set_cap n (firstn (p1 - pos)%nat s) c1))
  | Bol => if Nat.eqb pos 0%nat then k pos s c else None
  | Eol => match s with [] => k pos s c | _ :: _ => None end
  end.

Definition accept : cont := fun p _ c => Some (p, c).

(** The leftmost offset at which the pattern matches. *)
Fixpoint search (r : regex) (pos : nat) (s : jsstring)
  : option (nat * (nat * caps)) :=
  match run r pos s no_caps accept with
  | Some res => Some (pos, res)
  | None =>
      match s with
      | [] => None
      | _ :: s' => search r (S pos) s'
      end
  end.

End Matcher.

(** A pattern with its flags. *)
Record pattern : Type := Pattern { body : regex; ignoreCase : bool }.

(** The array [s.match(p)] returns (no [g] flag): the offset of the
    match, the matched text, the groups. *)
Record match_result : Type :=
  MatchResult { index : nat; whole : jsstring; groups : caps }.

Definition exec (p : pattern) (s : jsstring) : option match_result :=
  match search (ignoreCase p) (body p) 0%nat s with
  | Some (i, (e, c)) =>
      Some {| index := i; whole := firstn (e - i)%nat (skipn i s); groups := c |}
  | None => None
  end.

(** [p.test(s)]. *)
Definition test (p : pattern) (s : jsstring) : bool :=
  match exec p s with Some _ => true | None => false end.

(** [s.replace(p, by)] (no [g] flag, no [$] in [by]). *)
Definition replace (p : pattern) (by_ : jsstring) (s : jsstring) : jsstring :=
  match exec p s with
  | Some m =>
      firstn (index m) s ++ by_ ++ skipn (index m + length (whole m))%nat s
  | None => s
  end.

(** Pattern syntax. *)
Definition code (a : ascii) : char := N_of_ascii a.
Definition chr (a : ascii) : regex := Cls false (CChar (code a)).
Definition cchr (a : ascii) : cset := CChar (code a).
Definition crange (a b : ascii) : cset := CRange (code a) (code b).
Arguments code a%_char.
Arguments chr a%_char.
Arguments cchr a%_char.
Arguments crange (a b)%_char.
Fixpoint seq (rs : list regex) : regex :=
  match rs with
  | [] => Eps
  | [r] => r
  | r :: rs' => Seq r (seq rs')
  end.
Fixpoint alt (rs : list regex) : regex :=
  match rs with
  | [] => Eps
  | [r] => r
  | r :: rs' => Alt r (alt rs')
  end.
Definition lit (s : string) : regex :=
  seq (map (fun c => Cls false (CChar c)) (str s)).
Definition digit : regex := Cls false CDigit.
Definition space : regex := Cls false CSpace.
Definition word : regex := Cls false CWord.
Definition star (r : regex) : regex := Star true r.
Definition plus (r : regex) : regex := Seq r (Star true r).
Definition lazy_plus (r : regex) : regex := Seq r (Star false r).
Definition opt (r : regex) : regex := Alt r Eps.

(** ** What a match is

    [matches icase r pos c w rest c']: at offset [pos], with [w ++ rest]
    the input left, [r] can match [w], taking the captures from [c] to
    [c']. The matcher above picks one such match (the first in
    backtracking order). *)
Inductive matches (icase : bool)
  : regex -> nat -> caps -> jsstring -> jsstring -> caps -> Prop :=
| M_Eps pos c rest :
    matches icase Eps pos c [] rest c
| M_Cls neg cs pos c ch rest :
    cls_match icase neg cs ch = true ->
    matches icase (Cls neg cs) pos c [ch] rest c
| M_Seq r1 r2 pos c w1 w2 rest c1 c2 :
    matches icase r1 pos c w1 (w2 ++ rest) c1 ->
    matches icase r2 (pos + length w1)%nat c1 w2 rest c2 ->
    matches icase (Seq r1 r2) pos c (w1 ++ w2) rest c2
| M_AltL r1 r2 pos c w rest c1 :
    matches icase r1 pos c w rest c1 ->
    matches icase (Alt r1 r2) pos c w rest c1
| M_AltR r1 r2 pos c w rest c1 :
    matches icase r2 pos c w rest c1 ->
    matches icase (Alt r1 r2) pos c w rest c1
| M_Star0 g r pos c rest :
    matches icase (Star g r) pos c [] rest c
| M_StarS g r pos c w1 w2 rest c1 c2 :
    w1 <> [] ->
    matches icase r pos c w1 (w2 ++ rest) c1 ->
    matches icase (Star g r) (pos + length w1)%nat c1 w2 rest c2 ->
    matches icase (Star g r) pos c (w1 ++ w2) rest c2
| M_Group n r pos c w rest c1 :
    matches icase r pos c w rest c1 ->
    matches icase (Group n r) pos c w rest (set_cap n w c1)
| M_Bol c rest :
    matches icase Bol 0%nat c [] rest c
| M_Eol pos c :
    matches icase Eol pos c [] [] c.

(** The groups of a pattern. *)
Fixpoint group_ids (r : regex) : list nat :=
  match r with
  | Eps | Cls _ _ | Bol | Eol => []
  | Seq r1 r2 | Alt r1 r2 => group_ids r1 ++ group_ids r2
  | Star _ r1 => group_ids r1
  | Group n r1 => n :: group_ids r1
  end.

End RegExp.

(* ===================================================================== *)
(** * The OCR service ([ocr.service.ts]) *)
(* ===================================================================== *)

(** ['dirt' | 'turf' | 'synthetic']. *)
Inductive surface_t : Type := dirt | turf | synthetic.

Module PastPerformance.
Import JS.
Record t : Type :=
  { date : jsstring;
    track : jsstring;
    distance : jsstring;
    surface : surface_t;
    condition : jsstring;
    finish : jsnumber;
    beaten : jsnumber;
    time : jsstring;
    speedFigure : option jsnumber;
    classLevel : jsstring;
    purse : jsnumber }.
End PastPerformance.

Module Horse.
Import JS.
(** [speedFigures: { beyer?, timeform?, parDRF? }]. *)
Record SpeedFigures : Type :=
  { beyer : option jsnumber;
    timeform : option jsnumber;
    parDRF : option jsnumber }.
Record t : Type :=
  { id : jsstring;
    number : jsnumber;
    name : jsstring;
    jockey : jsstring;
    trainer : jsstring;
    weight : jsnumber;
    odds : option jsstring;
    speedFigures : SpeedFigures;
    pastPerformances : list PastPerformance.t }.
End Horse.

Module Race.
Import JS.
(** [Partial<Race>] with the fields the service sets. *)
Record t : Type :=
  { id : jsstring;
    number : jsnumber;
    track : jsstring;
    date : jsstring;
    horses : list Horse.t;
    distance : option jsstring;
    surface : option surface_t;
    purse : option jsnumber }.
Definition set_horses (hs : list Horse.t) (r : t) : t :=
  {| id := id r; number := number r; track := track r; date := date r;
     horses := hs; distance := distance r; surface := surface r;
     purse := purse r |}.
Definition set_distance (d : jsstring) (r : t) : t :=
  {| id := id r; number := number r; track := track r; date := date r;
     horses := horses r; distance := Some d; surface := surface r;
     purse := purse r |}.
Definition set_surface (x : surface_t) (r : t) : t :=
  {| id := id r; number := number r; track := track r; date := date r;
     horses := horses r; distance := distance r; surface := Some x;
     purse := purse r |}.
Definition set_purse (p : jsnumber) (r : t) : t :=
  {| id := id r; number := number r; track := track r; date := date r;
     horses := horses r; distance := distance r; surface := surface r;
     purse := Some p |}.
End Race.

Module RaceCard.
Import JS.
(** [Partial<RaceCard>] as [parseRaceData] fills it. *)
Record t : Type :=
  { track : jsstring; date : jsstring; races : list Race.t }.
End RaceCard.

Module OCRResult.
Import JS.
Record t : Type :=
  { success : bool;
    text : jsstring;
    confidence : Q;
    extractedData : option RaceCard.t;
    errors : option (list jsstring) }.
End OCRResult.

Module OCR.
Import JS RegExp.

(** ** Patterns of the service *)

(** [/(?:RACE\s+(\d+)|(\d+)(?:st|nd|rd|th)?\s+RACE)/i] *)
Definition raceHeaderRegex : pattern :=
  Pattern
    (Alt (seq [lit "RACE"; plus space; Group 1 (plus digit)])
         (seq [Group 2 (plus digit);
               opt (alt [lit "st"; lit "nd"; lit "rd"; lit "th"]);
               plus space; lit "RACE"]))
    true.

(** The jockey part [\(([^)]+)\)] and the odds part
    [(\d+-\d+|\d+\/\d+)] of the horse pattern. *)
Definition jockey_part : regex :=
  seq [chr "("; Group 3 (plus (Cls true (cchr ")"))); chr ")"].
Definition odds_part : regex :=
  Group 4 (Alt (seq [plus digit; chr "-"; plus digit])
               (seq [plus digit; chr "/"; plus digit])).

(** [/^(\d{1,2})\.?\s+([A-Z\s']+?)\s*(?:\(([^)]+)\))?\s*(?:(\d+-\d+|\d+\/\d+))?\s*$/i] *)
Definition horsePattern : pattern :=
  Pattern
    (seq [Bol;
          Group 1 (Seq digit (opt digit));
          opt (chr ".");
          plus space;
          Group 2 (lazy_plus
                     (Cls false (CUnion (crange "A" "Z")
                                        (CUnion CSpace (cchr "'")))));
          star space;
          opt jockey_part;
          star space;
          opt odds_part;
          star space;
          Eol])
    true.

(** [trackPatterns] *)
Definition trackPatterns : list pattern :=
  map (fun s => Pattern (lit s) true)
    ["SANTA ANITA"; "GULFSTREAM"; "CHURCHILL DOWNS"; "BELMONT"; "SARATOGA";
     "KEENELAND"; "OAKLAWN"; "FAIR GROUNDS"; "AQUEDUCT"; "WOODBINE"]%string.

(** [datePatterns]: [/(\w+\s+\d{1,2},\s+\d{4})/],
    [/(\d{1,2}\/\d{1,2}\/\d{4})/], [/(\d{4}-\d{2}-\d{2})/] *)
Definition datePatterns : list pattern :=
  [ Pattern (Group 1 (seq [plus word; plus space; digit; opt digit; chr ",";
                           plus space; digit; digit; digit; digit])) false;
    Pattern (Group 1 (seq [digit; opt digit; chr "/"; digit; opt digit;
                           chr "/"; digit; digit; digit; digit])) false;
    Pattern (Group 1 (seq [digit; digit; digit; digit; chr "-"; digit; digit;
                           chr "-"; digit; digit])) false ].

(** [/(\d+(?:\.\d+)?\s*(?:furlongs?|miles?|f|m))/i] *)
Definition distancePattern : pattern :=
  Pattern
    (Group 1 (seq [plus digit;
                   opt (seq [chr "."; plus digit]);
                   star space;
                   alt [seq [lit "furlong"; opt (chr "s")];
                        seq [lit "mile"; opt (chr "s")];
                        chr "f";
                        chr "m"]]))
    true.

(** [/turf|grass/i], [/synthetic|poly/i], [/dirt|main/i] *)
Definition turfPattern : pattern := Pattern (Alt (lit "turf") (lit "grass")) true.
Definition syntheticPattern : pattern :=
  Pattern (Alt (lit "synthetic") (lit "poly")) true.
Definition dirtPattern : pattern := Pattern (Alt (lit "dirt") (lit "main")) true.

(** [/\$?([\d,]+)/] *)
Definition pursePattern : pattern :=
  Pattern (seq [opt (chr "$"); Group 1 (plus (Cls false (CUnion CDigit (cchr ","))))])
    false.

(** [/\.[^/.]+$/] of [preprocessImage] *)
Definition extensionPattern : pattern :=
  Pattern (seq [chr "."; plus (Cls true (CUnion (cchr "/") (cchr "."))); Eol])
    false.

(** ** Field extractors *)

(** A group of a match array, [''] standing for [undefined] where the
    pattern makes the group take part in every match. *)
Definition group (m : match_result) (n : nat) : jsstring :=
  match groups m n with Some w => w | None => [] end.

Definition extractHorseFromLine (line : jsstring) : option Horse.t :=
  match exec horsePattern line with
  | None => None
  | Some m =>
      let numberStr := group m 1 in
      let name := group m 2 in
      let jockey := groups m 3 in
      let odds := groups m 4 in
      Some {| Horse.id := str "horse-" ++ numberStr;
              Horse.number := parseInt numberStr;
              Horse.name := trim name;
              Horse.jockey := or_else (option_map trim jockey) (str "Unknown");
              Horse.trainer := str "Unknown";
              Horse.weight := Num 120;
              Horse.odds := option_map trim odds;
              Horse.speedFigures :=
                {| Horse.beyer := None; Horse.timeform := None;
                   Horse.parDRF := None |};
              Horse.pastPerformances := [] |}
  end.

Fixpoint first_match (ps : list pattern) (text : jsstring) : option match_result :=
  match ps with
  | [] => None
  | p :: ps' =>
      match exec p text with
      | Some m => Some m
      | None => first_match ps' text
      end
  end.

Definition extractTrack (text : jsstring) : option jsstring :=
  option_map (fun m => toUpperCase (whole m)) (first_match trackPatterns text).

Definition extractDistance (text : jsstring) : option jsstring :=
  option_map (fun m => group m 1) (exec distancePattern text).

Definition extractSurface (text : jsstring) : option surface_t :=
  if test turfPattern text then Some turf
  else if test syntheticPattern text then Some synthetic
  else if test dirtPattern text then Some dirt
  else None.

Definition extractPurse (text : jsstring) : option jsnumber :=
  match exec pursePattern text with
  | Some m =>
      let amount := parseInt (remove_all 44%N (group m 1)) in
      if gt amount 1000 then Some amount else None
  | None => None
  end.

(** ** The host: clock and date parsing

    [today] is [new Date().toISOString().split('T')[0]]; the model reads
    the clock once per call. [isoDate s] is [new Date(s)]: [None] when
    the time value is [NaN], else [toISOString().split('T')[0]] (what
    the engine accepts, and in which time zone, is the host's). *)
Record clock : Type :=
  { today : jsstring;
    isoDate : jsstring -> option jsstring }.

Section Extraction.
Variable h : clock.

Fixpoint extractDate_from (ps : list pattern) (text : jsstring)
  : option jsstring :=
  match ps with
  | [] => None
  | p :: ps' =>
      match exec p text with
      | Some m =>
          match isoDate h (group m 1) with
          | Some d => Some d
          | None => extractDate_from ps' text
          end
      | None => extractDate_from ps' text
      end
  end.

Definition extractDate (text : jsstring) : option jsstring :=
  extractDate_from datePatterns text.

(** ** The race assembler ([extractRaces]) *)

(** The variables of the loop: [races], [currentRace], [currentHorses]. *)
Record state : Type :=
  { races : list Race.t;
    currentRace : option Race.t;
    currentHorses : list Horse.t }.

Definition initial : state :=
  {| races := []; currentRace := None; currentHorses := [] |}.

(** [if (currentRace && currentHorses.length > 0) races.push({...currentRace, horses: currentHorses})] *)
Definition save (st : state) : list Race.t :=
  match currentRace st, currentHorses st with
  | Some r, _ :: _ => races st ++ [Race.set_horses (currentHorses st) r]
  | _, _ => races st
  end.

(** One round of the inner loop over the lines after a header. *)
Definition scan_condition (r : Race.t) (conditionLine : jsstring) : Race.t :=
  let r1 := match extractDistance conditionLine with
            | Some (c :: d) => Race.set_distance (c :: d) r
            | _ => r
            end in
  let r2 := match extractSurface conditionLine with
            | Some x => Race.set_surface x r1
            | None => r1
            end in
  match extractPurse conditionLine with
  | Some p => Race.set_purse p r2
  | None => r2
  end.

(** [parseInt(raceMatch[1] || raceMatch[2])] *)
Definition raceNumber_of (raceMatch : match_result) : jsnumber :=
  match groups raceMatch 1 with
  | Some (c :: w) => parseInt (c :: w)
  | _ => match groups raceMatch 2 with
         | Some w => parseInt w
         | None => NaN
         end
  end.

Definition new_race (raceNumber : jsnumber) : Race.t :=
  {| Race.id := str "race-" ++ number_to_string raceNumber;
     Race.number := raceNumber;
     Race.track := str "Unknown";
     Race.date := today h;
     Race.horses := [];
     Race.distance := None;
     Race.surface := None;
     Race.purse := None |}.

(** The body of the outer loop at [line = lines[i]], with
    [window = lines[i+1 .. min(i+5, lines.length) - 1]]. *)
Definition step (line : jsstring) (window : list jsstring) (st : state)
  : state :=
  match exec raceHeaderRegex line with
  | Some raceMatch =>
      {| races := save st;
         currentRace :=
           Some (fold_left scan_condition window
                   (new_race (raceNumber_of raceMatch)));
         currentHorses := [] |}
  | None =>
      match currentRace st with
      | Some _ =>
          match extractHorseFromLine line with
          | Some horse =>
              {| races := races st;
                 currentRace := currentRace st;
                 currentHorses := currentHorses st ++ [horse] |}
          | None => st
          end
      | None => st
      end
  end.

(** [for (let i = 0; i < lines.length; i++)] from the lines left. *)
Fixpoint loop (lines : list jsstring) (st : state) : state :=
  match lines with
  | [] => st
  | line :: rest => loop rest (step line (firstn 4 rest) st)
  end.

(** [text.split('\n').map(line => line.trim()).filter(line => line.length > 0)] *)
Definition lines_of (text : jsstring) : list jsstring :=
  filter (fun line => (0 <? length line)%nat) (map trim (split LF text)).

Definition assemble (lines : list jsstring) : list Race.t :=
  save (loop lines initial).

Definition extractRaces (text : jsstring) : list Race.t :=
  assemble (lines_of text).

Definition parseRaceData (text : jsstring) : RaceCard.t :=
  let races := extractRaces text in
  let track := extractTrack text in
  let date := extractDate text in
  {| RaceCard.track := or_else track (str "Unknown Track");
     RaceCard.date := or_else date (today h);
     RaceCard.races := races |}.

End Extraction.

(** ** The orchestrator ([processFile] and the two extraction paths)

    The collaborators (file system, pdf-parse, Google Vision,
    tesseract.js, sharp, the logger) are outside the service. A
    computation threads the trace of the calls made to them and ends in
    a value or in a thrown exception. *)

(** What a [catch] can receive: an [Error] with its message, or some
    other thrown value. *)
Inductive exn : Type :=
| Error (message : jsstring)
| Thrown.

Inductive event : Type :=
| ReadFile (filePath : jsstring)
| PdfParse
| TextDetection (filePath : jsstring)
| CreateWorker
| SharpToFile (filePath outputPath : jsstring)
| LoadLanguage
| Initialize
| Recognize (imagePath : jsstring)
| Terminate
| LogError (msg : jsstring)
| LogInfo (msg : jsstring).

(** Whether an event is a call to a text-extraction collaborator. *)
Definition is_extraction (e : event) : bool :=
  match e with
  | LogError _ | LogInfo _ => false
  | _ => true
  end.

(** The outcome of each external call. [textDetection] gives
    [result.textAnnotations] with the [description] of every annotation;
    [recognize] gives [data.text] and [data.confidence]. *)
Record services : Type :=
  { visionClient : bool;
    readFile : jsstring -> exn + list N;
    pdfParse : list N -> exn + jsstring;
    textDetection : jsstring -> exn + option (list (option jsstring));
    createWorker : exn + unit;
    sharpToFile : jsstring -> jsstring -> exn + unit;
    loadLanguage : exn + unit;
    initialize : exn + unit;
    recognize : jsstring -> exn + (jsstring * Q);
    terminate : exn + unit }.

Definition M (A : Type) : Type := list event -> (exn + A) * list event.

Definition ret {A} (a : A) : M A := fun t => (inr a, t).
Definition bind {A B} (m : M A) (f : A -> M B) : M B :=
  fun t =>
    match m t with
    | (inr a, t') => f a t'
    | (inl e, t') => (inl e, t')
    end.
Definition throw {A} (e : exn) : M A := fun t => (inl e, t).
Definition try_catch {A} (m : M A) (handler : exn -> M A) : M A :=
  fun t =>
    match m t with
    | (inl e, t') => handler e t'
    | (inr a, t') => (inr a, t')
    end.
Definition try_finally {A} (m : M A) (finalizer : M unit) : M A :=
  fun t =>
    match m t with
    | (r, t') =>
        match finalizer t' with
        | (inr _, t'') => (r, t'')
        | (inl e, t'') => (inl e, t'')
        end
    end.
Definition call {A} (ev : event) (outcome : exn + A) : M A :=
  fun t => (outcome, t ++ [ev]).
Definition log (ev : event) : M unit := call ev (inr tt).

Notation "x <- m ;; k" := (bind m (fun x => k))
  (at level 61, m at next level, right associativity).
Notation "m ;;; k" := (bind m (fun _ => k))
  (at level 61, right associativity).

Definition truthy (s : jsstring) : bool :=
  match s with [] => false | _ :: _ => true end.

Section Orchestrator.
Variable h : clock.
Variable w : services.

Definition processPDF (filePath : jsstring) : M OCRResult.t :=
  try_catch
    (dataBuffer <- call (ReadFile filePath) (readFile w filePath) ;;
     text <- call PdfParse (pdfParse w dataBuffer) ;;
     if truthy text && (100 <? length text)%nat then
       ret {| OCRResult.success := true;
              OCRResult.text := text;
              OCRResult.confidence := 9 # 10;
              OCRResult.extractedData := Some (parseRaceData h text);
              OCRResult.errors := None |}
     else
       log (LogInfo (str "PDF has no extractable text, using OCR...")) ;;;
       ret {| OCRResult.success := true;
              OCRResult.text := text;
              OCRResult.confidence := 5 # 10;
              OCRResult.extractedData := Some (parseRaceData h text);
              OCRResult.errors := None |})
    (fun error =>
       log (LogError (str "PDF processing error:")) ;;; throw error).

Definition calculateGoogleVisionConfidence
  (detections : list (option jsstring)) : Q :=
  if (1 <? length detections)%nat then 85 # 100 else 7 # 10.

Definition processWithGoogleVision (filePath : jsstring) : M OCRResult.t :=
  try_catch
    (detections <- call (TextDetection filePath) (textDetection w filePath) ;;
     match detections with
     | None | Some [] => throw (Error (str "No text detected in image"))
     | Some (first :: others) =>
         let text := or_else first [] in
         let confidence :=
           calculateGoogleVisionConfidence (first :: others) in
         ret {| OCRResult.success := true;
                OCRResult.text := text;
                OCRResult.confidence := confidence;
                OCRResult.extractedData := Some (parseRaceData h text);
                OCRResult.errors := None |}
     end)
    (fun error =>
       log (LogError (str "Google Vision error:")) ;;; throw error).

Definition preprocessImage (filePath : jsstring) : M jsstring :=
  let outputPath :=
    replace extensionPattern (str "_processed.png") filePath in
  call (SharpToFile filePath outputPath) (sharpToFile w filePath outputPath) ;;;
  ret outputPath.

Definition processWithTesseract (filePath : jsstring) : M OCRResult.t :=
  call CreateWorker (createWorker w) ;;;
  try_finally
    (processedImagePath <- preprocessImage filePath ;;
     call LoadLanguage (loadLanguage w) ;;;
     call Initialize (initialize w) ;;;
     data <- call (Recognize processedImagePath)
               (recognize w processedImagePath) ;;
     ret {| OCRResult.success := true;
            OCRResult.text := fst data;
            OCRResult.confidence := (snd data / 100)%Q;
            OCRResult.extractedData := Some (parseRaceData h (fst data));
            OCRResult.errors := None |})
    (call Terminate (terminate w)).

Definition processImage (filePath : jsstring) : M OCRResult.t :=
  try_catch
    (if visionClient w then processWithGoogleVision filePath
     else processWithTesseract filePath)
    (fun error =>
       log (LogError (str "Image processing error:")) ;;; throw error).

(** [fileName.toLowerCase().split('.').pop()] *)
Definition fileExtension_of (fileName : jsstring) : jsstring :=
  last (split 46%N (toLowerCase fileName)) [].

(** The [cases] of the [switch]. *)
Definition pdf_kinds : list jsstring := [str "pdf"].
Definition image_kinds : list jsstring := [str "jpg"; str "jpeg"; str "png"].

Definition error_message (error : exn) : jsstring :=
  match error with
  | Error message => message
  | Thrown => str "Unknown error"
  end.

Definition failure (error : exn) : OCRResult.t :=
  {| OCRResult.success := false;
     OCRResult.text := [];
     OCRResult.confidence := 0;
     OCRResult.extractedData := None;
     OCRResult.errors := Some [error_message error] |}.

(** The [try] block of [processFile]. *)
Definition dispatch (filePath fileName : jsstring) : M OCRResult.t :=
  let fileExtension := fileExtension_of fileName in
  if existsb (JS.eqb fileExtension) pdf_kinds then processPDF filePath
  else if existsb (JS.eqb fileExtension) image_kinds then processImage filePath
  else throw (Error (str "Unsupported file type: " ++ fileExtension)).

Definition processFile (filePath fileName : jsstring) : M OCRResult.t :=
  try_catch
    (dispatch filePath fileName)
    (fun error =>
       log (LogError (str "OCR processing error:")) ;;; ret (failure error)).

End Orchestrator.

End OCR.

(* ===================================================================== *)
(** * Notions the properties are stated with *)
(* ===================================================================== *)

Module Spec.
Import JS RegExp OCR.
Local Open Scope N_scope.

(** [subseq l1 l2]: [l1] is [l2] with some elements left out, the
    others in the same order. *)
Inductive subseq {A : Type} : list A -> list A -> Prop :=
| subseq_nil : subseq [] []
| subseq_skip x l1 l2 : subseq l1 l2 -> subseq l1 (x :: l2)
| subseq_take x l1 l2 : subseq l1 l2 -> subseq (x :: l1) (x :: l2).

(** [a < b] on numbers. *)
Definition num_lt (a b : jsnumber) : Prop :=
  match a, b with
  | Num x, Num y => (x < y)%Z
  | MinusInfinity, Num _ | Num _, Infinity | MinusInfinity, Infinity => True
  | _, _ => False
  end.

(** A number that is an integer within [lo..hi]. *)
Definition int_between (lo hi : Z) (n : jsnumber) : Prop :=
  match n with
  | Num z => (lo <= z <= hi)%Z
  | _ => False
  end.

(** The race-boundary markers of a document: the number each header
    line carries, in document order. *)
Definition header_number (line : jsstring) : option jsnumber :=
  option_map raceNumber_of (exec raceHeaderRegex line).
Definition is_header (line : jsstring) : bool :=
  test raceHeaderRegex line.
Definition header_numbers (lines : list jsstring) : list jsnumber :=
  flat_map (fun line => match header_number line with
                        | Some n => [n]
                        | None => []
                        end) lines.

(** A line that is neither a header nor a horse entry. *)
Definition is_noise (line : jsstring) : bool :=
  negb (is_header line)
  && match extractHorseFromLine line with Some _ => false | None => true end.

(** The purse extractor in the words of its description: the first
    digit group of the line (digits and thousands separators, a
    currency symbol may come before it), read as an integer without
    the separators. *)
Definition is_amount_char (c : char) : bool := is_digit c || (c =? 44).
Fixpoint first_amount_group (s : jsstring) : option jsstring :=
  match s with
  | [] => None
  | c :: s' =>
      if is_amount_char c then Some (take_while is_amount_char s)
      else first_amount_group s'
  end.
Definition decimal_value (ds : jsstring) : Z :=
  fold_left (fun acc c => (10 * acc + digit_val c)%Z) ds 0%Z.
Definition spec_purse_amount (line : jsstring) : option Z :=
  match first_amount_group line with
  | Some g =>
      match remove_all 44 g with
      | [] => None
      | ds => Some (decimal_value ds)
      end
  | None => None
  end.


(** A line has a parenthesized jockey group, an odds token. *)
Definition has_jockey_group (line : jsstring) : bool :=
  test (Pattern jockey_part true) line.
Definition has_odds_token (line : jsstring) : bool :=
  test (Pattern odds_part true) line.

End Spec.

(** ** Inputs of the examples *)

Module Examples.
Import JS RegExp OCR.

Definition text_of (lines : list string) : jsstring :=
  join [LF] (map str lines).

(** A host in UTC on 2 November 2026 that reads the long date form. *)
Definition utc_clock : clock :=
  {| today := str "2026-11-02";
     isoDate := fun s =>
       if JS.eqb s (str "March 15, 2024") then Some (str "2024-03-15")
       else None |}.

(** The end-to-end example of the specification. *)
Definition santa_anita : jsstring :=
  text_of ["SANTA ANITA"; "March 15, 2024"; "RACE 1";
           "6 Furlongs Dirt Purse $40,000";
           "1. MIDNIGHT RUN (J. Smith) 5-1";
           "2. SOLAR FLARE (A. Lee) 3-1";
           "RACE 2"]%string.

Definition midnight_run : Horse.t :=
  {| Horse.id := str "horse-1"; Horse.number := Num 1;
     Horse.name := str "MIDNIGHT RUN"; Horse.jockey := str "J. Smith";
     Horse.trainer := str "Unknown"; Horse.weight := Num 120;
     Horse.odds := Some (str "5-1");
     Horse.speedFigures :=
       {| Horse.beyer := None; Horse.timeform := None; Horse.parDRF := None |};
     Horse.pastPerformances := [] |}.
Definition solar_flare : Horse.t :=
  {| Horse.id := str "horse-2"; Horse.number := Num 2;
     Horse.name := str "SOLAR FLARE"; Horse.jockey := str "A. Lee";
     Horse.trainer := str "Unknown"; Horse.weight := Num 120;
     Horse.odds := Some (str "3-1");
     Horse.speedFigures :=
       {| Horse.beyer := None; Horse.timeform := None; Horse.parDRF := None |};
     Horse.pastPerformances := [] |}.

(** Headers out of order, and a header that comes twice. *)
Definition races_2_then_1 : jsstring :=
  text_of ["RACE 2"; "1. ALPHA"; "RACE 1"; "1. BRAVO"]%string.
Definition race_1_twice : jsstring :=
  text_of ["RACE 1"; "1. ALPHA"; "RACE 1"; "1. BRAVO"]%string.
Definition races_1_2_3 : jsstring :=
  text_of ["RACE 1"; "1. ALPHA"; "RACE 2"; "RACE 3"; "4. BRAVO"]%string.

(** Horse numbers outside 1..20. *)
Definition horse_99 : jsstring := text_of ["RACE 1"; "99. ZULU"]%string.
Definition horse_0 : jsstring := text_of ["RACE 1"; "0. ZERO"]%string.

(** Services whose PDF text layer is a given text, with no cloud
    client and a recognition engine that fails. *)
Definition pdf_services (text : jsstring) : services :=
  {| visionClient := false;
     readFile := fun _ => inr [37; 80; 68; 70]%N;
     pdfParse := fun _ => inr text;
     textDetection := fun _ => inl Thrown;
     createWorker := inr tt;
     sharpToFile := fun _ _ => inr tt;
     loadLanguage := inr tt;
     initialize := inr tt;
     recognize := fun _ => inl (Error (str "recognition failed"));
     terminate := inr tt |}.

Definition text_150 : jsstring := repeat 120%N 150.
Definition text_50 : jsstring := repeat 120%N 50.

End Examples.

(** ** Plain searches and summaries the further properties are stated with *)

Module Notions.
Import JS RegExp OCR Spec.
Local Open Scope N_scope.

(** Two code units that are equal up to the case of ASCII letters. *)
Definition ci_eqb (a b : char) : bool := (to_upper a =? to_upper b).

(** [needle] is at the head of [s], up to case. *)
Fixpoint prefix_ci (needle s : jsstring) : bool :=
  match needle, s with
  | [], _ => true
  | a :: needle', c :: s' => ci_eqb a c && prefix_ci needle' s'
  | _ :: _, [] => false
  end.

(** Some suffix of [s] (the empty one included) satisfies [P]. *)
Fixpoint any_suffix (P : jsstring -> bool) (s : jsstring) : bool :=
  P s || match s with
         | [] => false
         | _ :: s' => any_suffix P s'
         end.

(** [needle] occurs somewhere in [s], up to case. *)
Definition contains_ci (needle : string) (s : jsstring) : bool :=
  any_suffix (prefix_ci (str needle)) s.

(** The names of [trackPatterns], in their order. *)
Definition track_names : list string :=
  ["SANTA ANITA"; "GULFSTREAM"; "CHURCHILL DOWNS"; "BELMONT"; "SARATOGA";
   "KEENELAND"; "OAKLAWN"; "FAIR GROUNDS"; "AQUEDUCT"; "WOODBINE"]%string.

(** A line has a decimal digit. *)
Definition has_digit (s : jsstring) : bool := existsb is_digit s.

(** Every match of the pattern holds a decimal digit (a syntactic,
    sufficient test). *)
Fixpoint needs_digit (r : regex) : bool :=
  match r with
  | Cls false CDigit => true
  | Seq r1 r2 => needs_digit r1 || needs_digit r2
  | Alt r1 r2 => needs_digit r1 && needs_digit r2
  | Group _ r1 => needs_digit r1
  | _ => false
  end.

(** The lines from the first header on. *)
Fixpoint from_first_header (lines : list jsstring) : list jsstring :=
  match lines with
  | [] => []
  | line :: rest =>
      if is_header line then line :: rest else from_first_header rest
  end.

(** The horse a line stands for once a race is open: none for a header,
    else what the horse-entry extractor makes of it. *)
Definition entry_of (line : jsstring) : list Horse.t :=
  if is_header line then []
  else match extractHorseFromLine line with
       | Some horse => [horse]
       | None => []
       end.

(** The horse entries of a document, in document order. *)
Definition entries (lines : list jsstring) : list Horse.t :=
  flat_map entry_of (from_first_header lines).

(** The last value a partial function gives along a list, or a default. *)
Definition last_found {A B : Type} (f : A -> option B) (l : list A)
  (d : option B) : option B :=
  fold_left (fun acc x => match f x with Some y => Some y | None => acc end)
    l d.

(** A non-empty distance, as [if (distance)] tests it. *)
Definition truthy_distance (line : jsstring) : option jsstring :=
  match extractDistance line with
  | Some (c :: d) => Some (c :: d)
  | _ => None
  end.

(** Odds as the horse pattern reads them: digits, a dash or a slash,
    digits. *)
Definition odds_shaped (o : jsstring) : Prop :=
  exists a sep b,
    o = a ++ sep :: b /\ a <> [] /\ b <> [] /\
    Forall (fun c => is_digit c = true) a /\
    Forall (fun c => is_digit c = true) b /\
    (sep = 45 \/ sep = 47).

(** The characters of a horse name: letters, blanks, apostrophes. *)
Definition is_name_char (c : char) : bool :=
  is_upper c || is_lower c || is_space c || (c =? 39).

(** The digits a race header carries, read off the line. A header is
    taken at the first place of the line where one of two forms starts:
    "RACE", blanks and digits (all the digits that follow); or digits
    (all of them), an ordinal suffix or none, blanks and "RACE". The
    letters are taken in either case. *)
Definition digits_after_RACE (s : jsstring) : option jsstring :=
  if prefix_ci (str "RACE") s then
    match skipn 4 s with
    | c :: t =>
        if is_space c then
          match take_while is_digit (drop_while is_space t) with
          | [] => None
          | d :: ds => Some (d :: ds)
          end
        else None
    | [] => None
    end
  else None.

Definition has_ordinal_suffix (s : jsstring) : bool :=
  prefix_ci (str "st") s || prefix_ci (str "nd") s
  || prefix_ci (str "rd") s || prefix_ci (str "th") s.

Definition digits_before_RACE (s : jsstring) : option jsstring :=
  match take_while is_digit s with
  | [] => None
  | d :: ds =>
      let t := drop_while is_digit s in
      match (if has_ordinal_suffix t then skipn 2 t else t) with
      | c :: u =>
          if is_space c && prefix_ci (str "RACE") (drop_while is_space u)
          then Some (d :: ds)
          else None
      | [] => None
      end
  end.

Definition digits_at_head (s : jsstring) : option jsstring :=
  match digits_after_RACE s with
  | Some ds => Some ds
  | None => digits_before_RACE s
  end.

Fixpoint header_digits (s : jsstring) : option jsstring :=
  match s with
  | [] => None
  | _ :: s' =>
      match digits_at_head s with
      | Some ds => Some ds
      | None => header_digits s'
      end
  end.

(** The number a header line carries: the value of its digits, as a
    double; and the numbers the headers of a document carry, in
    document order. *)
Definition carried_number (line : jsstring) : option jsnumber :=
  option_map (fun ds => to_double (decimal_value ds)) (header_digits line).

Definition carried_numbers (lines : list jsstring) : list jsnumber :=
  flat_map (fun line => match carried_number line with
                        | Some n => [n]
                        | None => []
                        end) lines.

(** What a result of [processFile] looks like. *)
Definition well_formed (res : OCRResult.t) : Prop :=
  (OCRResult.success res = true /\
   OCRResult.extractedData res <> None /\
   OCRResult.errors res = None) \/
  (OCRResult.success res = false /\
   OCRResult.text res = [] /\
   OCRResult.confidence res = 0%Q /\
   OCRResult.extractedData res = None /\
   exists message, OCRResult.errors res = Some [message]).

End Notions.

(* ===================================================================== *)
(** * The caller of the service ([upload.controller.ts], [processFileAsync]) *)
(* ===================================================================== *)

Module Upload.
Import JS OCR.

(** ['uploaded' | 'processing' | 'completed' | 'failed'] *)
Inductive status_t : Type := uploaded | processing | completed | failed.

(** [FileUpload]; [uploadedAt] and [processedAt] as time stamps of the
    host. *)
Record FileUpload : Type :=
  { id : jsstring;
    userId : jsstring;
    originalName : jsstring;
    fileSize : jsnumber;
    mimeType : jsstring;
    uploadedAt : jsstring;
    processedAt : option jsstring;
    status : status_t;
    ocrResult : option OCRResult.t;
    raceCardId : option jsstring }.

Definition set_status (x : status_t) (f : FileUpload) : FileUpload :=
  {| id := id f; userId := userId f; originalName := originalName f;
     fileSize := fileSize f; mimeType := mimeType f;
     uploadedAt := uploadedAt f; processedAt := processedAt f;
     status := x; ocrResult := ocrResult f; raceCardId := raceCardId f |}.
Definition set_ocrResult (r : OCRResult.t) (f : FileUpload) : FileUpload :=
  {| id := id f; userId := userId f; originalName := originalName f;
     fileSize := fileSize f; mimeType := mimeType f;
     uploadedAt := uploadedAt f; processedAt := processedAt f;
     status := status f; ocrResult := Some r; raceCardId := raceCardId f |}.
Definition set_processedAt (d : jsstring) (f : FileUpload) : FileUpload :=
  {| id := id f; userId := userId f; originalName := originalName f;
     fileSize := fileSize f; mimeType := mimeType f;
     uploadedAt := uploadedAt f; processedAt := Some d;
     status := status f; ocrResult := ocrResult f; raceCardId := raceCardId f |}.
Definition set_raceCardId (c : jsstring) (f : FileUpload) : FileUpload :=
  {| id := id f; userId := userId f; originalName := originalName f;
     fileSize := fileSize f; mimeType := mimeType f;
     uploadedAt := uploadedAt f; processedAt := processedAt f;
     status := status f; ocrResult := ocrResult f; raceCardId := Some c |}.

(** The object sent with [io.emit('file_processing', ...)]. *)
Record payload : Type :=
  { p_fileId : jsstring;
    p_status : status_t;
    p_message : jsstring;
    p_raceCardId : option jsstring;
    p_extractedData : option RaceCard.t;
    p_errors : option (list jsstring);
    p_error : option jsstring }.

Inductive cevent : Type :=
| Service (e : event)
| Emit (p : payload)
| Unlink (filePath : jsstring)
| Info (msg : jsstring)
| Failure (msg : jsstring).

(** The collaborators of the controller: the socket, the file system,
    the id generator and the clock. *)
Record collaborators : Type :=
  { emit : payload -> exn + unit;
    unlink : jsstring -> exn + unit;
    uuidv4 : jsstring;
    now : jsstring }.

(** Computations of the controller: the upload record is mutated in
    place, so what was set before an exception stays set. *)
Record cstate : Type := { upload : FileUpload; trace : list cevent }.

Definition C (A : Type) : Type := cstate -> (exn + A) * cstate.

Definition cret {A} (a : A) : C A := fun s => (inr a, s).
Definition cbind {A B} (m : C A) (f : A -> C B) : C B :=
  fun s =>
    match m s with
    | (inr a, s') => f a s'
    | (inl e, s') => (inl e, s')
    end.
Definition ctry_catch {A} (m : C A) (handler : exn -> C A) : C A :=
  fun s =>
    match m s with
    | (inl e, s') => handler e s'
    | (inr a, s') => (inr a, s')
    end.
Definition ctry_finally {A} (m : C A) (finalizer : C unit) : C A :=
  fun s =>
    match m s with
    | (r, s') =>
        match finalizer s' with
        | (inr _, s'') => (r, s'')
        | (inl e, s'') => (inl e, s'')
        end
    end.
Definition ccall {A} (ev : cevent) (outcome : exn + A) : C A :=
  fun s => (outcome, {| upload := upload s; trace := trace s ++ [ev] |}).
Definition clog (ev : cevent) : C unit := ccall ev (inr tt).
Definition modify (f : FileUpload -> FileUpload) : C unit :=
  fun s => (inr tt, {| upload := f (upload s); trace := trace s |}).
Definition current : C FileUpload := fun s => (inr (upload s), s).

(** A call of the service, its events put on the trace. *)
Definition service {A} (m : M A) : C A :=
  fun s =>
    match m [] with
    | (r, events) =>
        (r, {| upload := upload s; trace := trace s ++ map Service events |})
    end.

Notation "x <~ m ;; k" := (cbind m (fun x => k))
  (at level 61, m at next level, right associativity).
Notation "m ;;~ k" := (cbind m (fun _ => k))
  (at level 61, right associativity).

Section Controller.
Variable h : clock.
Variable w : services.
Variable io : collaborators.

Definition cleanupFile (filePath : jsstring) : C unit :=
  ctry_catch
    (ccall (Unlink filePath) (unlink io filePath) ;;~
     clog (Info (str "Cleaned up file: " ++ filePath)))
    (fun _ => clog (Failure (str "Failed to cleanup file: " ++ filePath))).

Definition message_or (error : exn) (otherwise : string) : jsstring :=
  match error with
  | Error message => message
  | Thrown => str otherwise
  end.

Definition count_of {A} (l : list A) : jsstring :=
  number_to_string (Num (Z.of_nat (length l))).

Definition processFileAsync (filePath : jsstring) : C unit :=
  ctry_finally
    (ctry_catch
       (modify (set_status processing) ;;~
        f <~ current ;;
        ccall (Emit {| p_fileId := id f; p_status := processing;
                       p_message := str "Starting OCR processing...";
                       p_raceCardId := None; p_extractedData := None;
                       p_errors := None; p_error := None |})
          (emit io {| p_fileId := id f; p_status := processing;
                      p_message := str "Starting OCR processing...";
                      p_raceCardId := None; p_extractedData := None;
                      p_errors := None; p_error := None |}) ;;~
        clog (Info (str "Starting OCR processing for file: "
                    ++ originalName f)) ;;~
        result <~ service (processFile h w filePath (originalName f)) ;;
        modify (set_ocrResult result) ;;~
        modify (set_processedAt (now io)) ;;~
        match OCRResult.success result, OCRResult.extractedData result with
        | true, Some extractedData =>
            modify (set_status completed) ;;~
            match RaceCard.races extractedData with
            | _ :: _ =>
                modify (set_raceCardId (uuidv4 io)) ;;~
                clog (Info (str "Race card created: " ++ uuidv4 io
                            ++ str " with "
                            ++ count_of (RaceCard.races extractedData)
                            ++ str " races"))
            | [] => cret tt
            end ;;~
            f' <~ current ;;
            ccall (Emit {| p_fileId := id f'; p_status := completed;
                           p_message := str "File processed successfully";
                           p_raceCardId := raceCardId f';
                           p_extractedData := Some extractedData;
                           p_errors := None; p_error := None |})
              (emit io {| p_fileId := id f'; p_status := completed;
                          p_message := str "File processed successfully";
                          p_raceCardId := raceCardId f';
                          p_extractedData := Some extractedData;
                          p_errors := None; p_error := None |}) ;;~
            clog (Info (str "OCR processing completed for file: "
                        ++ originalName f'))
        | _, _ =>
            modify (set_status failed) ;;~
            f' <~ current ;;
            ccall (Emit {| p_fileId := id f'; p_status := failed;
                           p_message :=
                             str "Failed to extract race data from file";
                           p_raceCardId := None; p_extractedData := None;
                           p_errors := OCRResult.errors result;
                           p_error := None |})
              (emit io {| p_fileId := id f'; p_status := failed;
                          p_message :=
                            str "Failed to extract race data from file";
                          p_raceCardId := None; p_extractedData := None;
                          p_errors := OCRResult.errors result;
                          p_error := None |}) ;;~
            clog (Failure (str "OCR processing failed for file: "
                           ++ originalName f'))
        end)
       (fun error =>
          clog (Failure (str "File processing error:")) ;;~
          modify (set_status failed) ;;~
          modify (set_ocrResult
                    {| OCRResult.success := false;
                       OCRResult.text := [];
                       OCRResult.confidence := 0;
                       OCRResult.extractedData := None;
                       OCRResult.errors :=
                         Some [message_or error "Unknown processing error"] |}) ;;~
          f <~ current ;;
          ccall (Emit {| p_fileId := id f; p_status := failed;
                         p_message := str "Processing failed due to an error";
                         p_raceCardId := None; p_extractedData := None;
                         p_errors := None;
                         p_error := Some (message_or error "Unknown error") |})
            (emit io {| p_fileId := id f; p_status := failed;
                        p_message := str "Processing failed due to an error";
                        p_raceCardId := None; p_extractedData := None;
                        p_errors := None;
                        p_error := Some (message_or error "Unknown error") |})))
    (cleanupFile filePath).

End Controller.

(** Whether an event is a removal of a file. *)
Definition is_unlink (e : cevent) : bool :=
  match e with Unlink _ => true | _ => false end.

(** The notifications put on the socket, in order. *)
Definition notifications (t : list cevent) : list payload :=
  flat_map (fun e => match e with Emit p => [p] | _ => [] end) t.

(** What the service did, in order. *)
Definition service_events (t : list cevent) : list event :=
  flat_map (fun e => match e with Service x => [x] | _ => [] end) t.

(** Collaborators whose socket and file system do not fail. *)
Definition quiet : collaborators :=
  {| emit := fun _ => inr tt;
     unlink := fun _ => inr tt;
     uuidv4 := str "0b1f6c1e-6f0a-4f7e-9c55-2f3f1f9f7a10";
     now := str "2026-11-02T10:00:00.000Z" |}.

Definition fresh_upload (name : string) : FileUpload :=
  {| id := str "upload-1"; userId := str "guest"; originalName := str name;
     fileSize := Num 2048; mimeType := str "application/octet-stream";
     uploadedAt := str "2026-11-02T09:59:59.000Z"; processedAt := None;
     status := uploaded; ocrResult := None; raceCardId := None |}.

End Upload.

(* ===================================================================== *)
(** * The matcher against the definition of a match *)
(* ===================================================================== *)

Module RegExpFacts.
Import JS RegExp.

(** The equations of [run]. *)
Lemma run_Seq icase r1 r2 pos s c k :
  run icase (Seq r1 r2) pos s c k
  = run icase r1 pos s c (fun p1 s1 c1 => run icase r2 p1 s1 c1 k).
Proof. reflexivity. Qed.

Lemma run_Alt icase r1 r2 pos s c k :
  run icase (Alt r1 r2) pos s c k
  = orelse (run icase r1 pos s c k) (run icase r2 pos s c k).
Proof. reflexivity. Qed.

Lemma run_Star icase g r pos s c k :
  run icase (Star g r) pos s c k
  = star_loop (run icase r) g k (length s) pos s c.
Proof. reflexivity. Qed.

Lemma run_Group icase n r pos s c k :
  run icase (Group n r) pos s c k
  = run icase r pos s c
      (fun p1 s1 c1 => k p1 s1 (set_cap n (firstn (p1 - pos) s) c1)).
Proof. reflexivity. Qed.

Lemma run_Cls icase neg cs pos s c k :
  run icase (Cls neg cs) pos s c k
  = match s with
    | ch :: s' => if cls_match icase neg cs ch then k (S pos) s' c else None
    | [] => None
    end.
Proof. reflexivity. Qed.

Lemma run_Eps icase pos s c k : run icase Eps pos s c k = k pos s c.
Proof. reflexivity. Qed.

Lemma orelse_some A (a b : option A) x :
  orelse a b = Some x -> a = Some x \/ (a = None /\ b = Some x).
Proof. destruct a; simpl; intros H; [left | right]; auto. Qed.

Section Soundness.
Variable icase : bool.

Definition sound_body
  (body : nat -> jsstring -> caps -> cont -> option (nat * caps))
  (r : regex) : Prop :=
  forall pos s c k res,
    body pos s c k = Some res ->
    exists w rest c',
      s = w ++ rest /\ matches icase r pos c w rest c' /\
      k (pos + length w)%nat rest c' = Some res.

Lemma star_loop_sound body r g k :
  sound_body body r ->
  forall n pos s c res,
    star_loop body g k n pos s c = Some res ->
    exists w rest c',
      s = w ++ rest /\ matches icase (Star g r) pos c w rest c' /\
      k (pos + length w)%nat rest c' = Some res.
Proof.
  intros Hb n. induction n as [|n IH]; intros pos s c res H.
  - simpl in H.
    assert (Hk : k pos s c = Some res).
    { destruct g; simpl in H; auto.
      destruct (k pos s c); simpl in H; congruence. }
    exists [], s, c. rewrite Nat.add_0_r. repeat split; auto. constructor.
  - simpl in H.
    assert (Hcases :
      k pos s c = Some res \/
      body pos s c
        (fun p1 s1 c1 =>
           if (length s1 <? length s)%nat
           then star_loop body g k n p1 s1 c1 else None) = Some res).
    { destruct g; apply orelse_some in H; tauto. }
    destruct Hcases as [Hk | Hit].
    + exists [], s, c. rewrite Nat.add_0_r. repeat split; auto. constructor.
    + apply Hb in Hit. destruct Hit as (w1 & rest1 & c1 & Hs & Hm & Hcont).
      destruct (length rest1 <? length s)%nat eqn:Hlen; [|discriminate].
      apply Nat.ltb_lt in Hlen.
      apply IH in Hcont. destruct Hcont as (w2 & rest & c2 & Hs2 & Hm2 & Hk).
      subst rest1. exists (w1 ++ w2), rest, c2. split; [|split].
      * rewrite <- app_assoc. exact Hs.
      * apply M_StarS with (c1 := c1); auto.
        intros ->. subst s. simpl in Hlen. lia.
      * rewrite length_app, Nat.add_assoc. exact Hk.
Qed.

Lemma run_sound r : sound_body (run icase r) r.
Proof.
  induction r as [|neg cs|r1 IH1 r2 IH2|r1 IH1 r2 IH2|g r1 IH1|n r1 IH1| |];
    intros pos s c k res H; simpl in H.
  - exists [], s, c. rewrite Nat.add_0_r. repeat split; auto. constructor.
  - destruct s as [|ch s']; [discriminate|].
    destruct (cls_match icase neg cs ch) eqn:Hc; [|discriminate].
    exists [ch], s', c. simpl. rewrite Nat.add_1_r.
    repeat split; auto. constructor; auto.
  - apply IH1 in H. destruct H as (w1 & rest1 & c1 & Hs & Hm1 & H).
    apply IH2 in H. destruct H as (w2 & rest & c2 & Hs2 & Hm2 & H).
    subst rest1. exists (w1 ++ w2), rest, c2. split; [|split].
    + rewrite <- app_assoc. exact Hs.
    + econstructor; eauto.
    + rewrite length_app, Nat.add_assoc. exact H.
  - apply orelse_some in H. destruct H as [H | [_ H]].
    + apply IH1 in H. destruct H as (w & rest & c1 & Hs & Hm & H).
      exists w, rest, c1. repeat split; auto. apply M_AltL; auto.
    + apply IH2 in H. destruct H as (w & rest & c1 & Hs & Hm & H).
      exists w, rest, c1. repeat split; auto. apply M_AltR; auto.
  - eapply star_loop_sound; eauto.
  - apply IH1 in H. destruct H as (w & rest & c1 & Hs & Hm & H).
    exists w, rest, (set_cap n w c1). repeat split; auto.
    + constructor; auto.
    + replace (pos + length w - pos)%nat with (length w) in H by lia.
      subst s. rewrite firstn_app, Nat.sub_diag, firstn_all in H.
      simpl in H. rewrite app_nil_r in H. exact H.
  - destruct (Nat.eqb pos 0) eqn:Hp; [|discriminate].
    apply Nat.eqb_eq in Hp. subst pos.
    exists [], s, c. repeat split; auto. constructor.
  - destruct s; [|discriminate].
    exists [], [], c. rewrite Nat.add_0_r. repeat split; auto. constructor.
Qed.

Lemma search_sound r :
  forall s pos i e c,
    search icase r pos s = Some (i, (e, c)) ->
    exists pre w rest,
      s = pre ++ w ++ rest /\ i = (pos + length pre)%nat /\
      e = (i + length w)%nat /\
      matches icase r i no_caps w rest c.
Proof.
  induction s as [|ch s IH]; intros pos i e c H; simpl in H.
  - destruct (run icase r pos [] no_caps accept) as [res|] eqn:Hr;
      [|discriminate].
    inversion H; subst. apply run_sound in Hr.
    destruct Hr as (w & rest & c' & Hs & Hm & Hk).
    unfold accept in Hk. inversion Hk; subst.
    exists [], w, rest. simpl. rewrite Nat.add_0_r. auto.
  - destruct (run icase r pos (ch :: s) no_caps accept) as [res|] eqn:Hr.
    + inversion H; subst. apply run_sound in Hr.
      destruct Hr as (w & rest & c' & Hs & Hm & Hk).
      unfold accept in Hk. inversion Hk; subst.
      exists [], w, rest. simpl. rewrite Nat.add_0_r. auto.
    + apply IH in H. destruct H as (pre & w & rest & Hs & Hi & He & Hm).
      exists (ch :: pre), w, rest. subst s. simpl.
      repeat split; auto. lia.
Qed.

End Soundness.

(** What [s.match(p)] returns is a match of [p] inside [s]. *)
Lemma exec_sound p s m :
  exec p s = Some m ->
  exists pre rest,
    s = pre ++ whole m ++ rest /\ index m = length pre /\
    matches (ignoreCase p) (body p) (length pre) no_caps (whole m) rest
      (groups m).
Proof.
  unfold exec. intros H.
  destruct (search (ignoreCase p) (body p) 0 s) as [[i [e c]]|] eqn:Hs;
    [|discriminate].
  inversion H; subst; clear H. simpl.
  apply search_sound in Hs.
  destruct Hs as (pre & w & rest & Hs & Hi & He & Hm). simpl in Hi. subst.
  exists pre, rest.
  replace (length pre + length w - length pre)%nat with (length w) by lia.
  rewrite skipn_app, skipn_all, Nat.sub_diag. simpl.
  rewrite firstn_app, firstn_all, Nat.sub_diag. simpl. rewrite app_nil_r.
  auto.
Qed.

Lemma orelse_left A (a b : option A) : a <> None -> orelse a b <> None.
Proof. destruct a; simpl; congruence. Qed.

Lemma orelse_right A (a b : option A) : b <> None -> orelse a b <> None.
Proof. destruct a; simpl; congruence. Qed.

Section Completeness.
Variable icase : bool.

(** A continuation that goes on from a given point whatever the
    captures. *)
Definition accepting (k : cont) (p : nat) (s : jsstring) : Prop :=
  forall c, k p s c <> None.

Lemma star_loop_stop body g k n pos s d :
  k pos s d <> None -> star_loop body g k n pos s d <> None.
Proof.
  intros Hk. destruct n, g; simpl;
    auto using orelse_left, orelse_right.
Qed.

(** Where a match exists the matcher finds one (maybe another). *)
Lemma matches_complete r pos c w rest c' :
  matches icase r pos c w rest c' ->
  (forall k d, accepting k (pos + length w)%nat rest ->
               run icase r pos (w ++ rest) d k <> None) /\
  match r with
  | Star g r1 =>
      forall k d n,
        accepting k (pos + length w)%nat rest ->
        (length (w ++ rest) <= n)%nat ->
        star_loop (run icase r1) g k n pos (w ++ rest) d <> None
  | _ => True
  end.
Proof.
  induction 1 as
    [pos c rest
    |neg cs pos c ch rest Hc
    |r1 r2 pos c w1 w2 rest c1 c2 _ [IH1 _] _ [IH2 _]
    |r1 r2 pos c w rest c1 _ [IH1 _]
    |r1 r2 pos c w rest c1 _ [IH2 _]
    |g r pos c rest
    |g r pos c w1 w2 rest c1 c2 Hne _ [IH1 _] _ [_ IH2]
    |n r pos c w rest c1 _ [IH1 _]
    |c rest
    |pos c].
  - split; auto. intros k d Hk. simpl in *. rewrite Nat.add_0_r in Hk. apply Hk.
  - split; auto. intros k d Hk. simpl in *. rewrite Hc.
    rewrite Nat.add_1_r in Hk. apply Hk.
  - split; auto. intros k d Hk. simpl. rewrite <- app_assoc.
    apply IH1. intros d'. apply IH2.
    rewrite length_app, Nat.add_assoc in Hk. exact Hk.
  - split; auto. intros k d Hk. simpl. apply orelse_left. auto.
  - split; auto. intros k d Hk. simpl. apply orelse_right. auto.
  - assert (Hloop : forall k d n,
               accepting k (pos + length (@nil char))%nat rest ->
               star_loop (run icase r) g k n pos ([] ++ rest) d <> None).
    { intros k d n Hk. simpl in *. rewrite Nat.add_0_r in Hk.
      apply star_loop_stop, Hk. }
    split; [intros k d Hk; simpl run; apply Hloop; exact Hk|].
    intros k d n Hk _. apply Hloop; exact Hk.
  - assert (Hloop : forall k d n,
               accepting k (pos + length (w1 ++ w2))%nat rest ->
               (length ((w1 ++ w2) ++ rest) <= n)%nat ->
               star_loop (run icase r) g k n pos ((w1 ++ w2) ++ rest) d
               <> None).
    { intros k d n Hk Hn.
      destruct n as [|n].
      { destruct w1; [congruence|]. simpl in Hn. lia. }
      assert (Hiter :
        run icase r pos ((w1 ++ w2) ++ rest) d
          (fun p1 s1 c1 =>
             if (length s1 <? length ((w1 ++ w2) ++ rest))%nat
             then star_loop (run icase r) g k n p1 s1 c1 else None)
        <> None).
      { rewrite <- app_assoc. apply IH1. intros d'.
        assert (Hlt : (length (w2 ++ rest) <? length (w1 ++ w2 ++ rest))%nat
                      = true).
        { apply Nat.ltb_lt. destruct w1; [congruence|].
          simpl. rewrite !length_app. lia. }
        rewrite Hlt. apply IH2.
        - rewrite length_app, Nat.add_assoc in Hk. exact Hk.
        - rewrite <- app_assoc in Hn. destruct w1; [congruence|].
          simpl in Hn. rewrite !length_app in *. lia. }
      simpl. destruct g;
        [apply orelse_left | apply orelse_right]; exact Hiter. }
    split; [intros k d Hk; simpl run; apply Hloop; auto|].
    intros k d n Hk Hn. apply Hloop; auto.
  - split; auto. intros k d Hk. simpl. apply IH1.
    intros d'. apply Hk.
  - split; auto. intros k d Hk. simpl in *. apply Hk.
  - split; auto. intros k d Hk. simpl in *. rewrite Nat.add_0_r in Hk. apply Hk.
Qed.

Lemma search_complete r c w rest c' :
  forall pre pos,
    matches icase r (pos + length pre)%nat c w rest c' ->
    search icase r pos (pre ++ w ++ rest) <> None.
Proof.
  induction pre as [|ch pre IH]; intros pos Hm.
  - simpl in Hm. rewrite Nat.add_0_r in Hm.
    apply matches_complete in Hm. destruct Hm as [Hm _].
    specialize (Hm accept no_caps).
    assert (Hr : run icase r pos (w ++ rest) no_caps accept <> None)
      by (apply Hm; intros d; unfold accept; discriminate).
    clear Hm.
    simpl app.
    destruct (w ++ rest) eqn:E; simpl;
      destruct (run icase r pos _ no_caps accept); congruence.
  - simpl. destruct (run icase r pos _ no_caps accept); [discriminate|].
    apply IH. replace (S pos + length pre)%nat
      with (pos + length (ch :: pre))%nat by (simpl; lia).
    exact Hm.
Qed.

End Completeness.

(** A pattern that matches somewhere inside [s] makes [p.test(s)] true. *)
Lemma test_complete p pre c w rest c' :
  matches (ignoreCase p) (body p) (length pre) c w rest c' ->
  test p (pre ++ w ++ rest) = true.
Proof.
  intros Hm. unfold test, exec.
  pose proof (@search_complete (ignoreCase p) (body p) c w rest c' pre 0%nat Hm)
    as Hs.
  destruct (search (ignoreCase p) (body p) 0 (pre ++ w ++ rest))
    as [[i [e d]]|]; congruence.
Qed.

(** A match leaves the groups that are not its own as they were. *)
Lemma matches_frame icase r pos c w rest c' :
  matches icase r pos c w rest c' ->
  forall n, ~ In n (group_ids r) -> c' n = c n.
Proof.
  induction 1; intros m Hm; simpl in Hm; auto;
    try (rewrite in_app_iff in Hm).
  - rewrite IHmatches2, IHmatches1; tauto.
  - apply IHmatches; tauto.
  - apply IHmatches; tauto.
  - rewrite IHmatches2, IHmatches1; auto.
  - unfold set_cap. destruct (Nat.eqb m n) eqn:E.
    + apply Nat.eqb_eq in E. subst. tauto.
    + apply IHmatches. tauto.
Qed.

(** Inversion of a match along the pattern. *)
Lemma matches_seq_inv icase r1 r2 pos c w rest c' :
  matches icase (Seq r1 r2) pos c w rest c' ->
  exists w1 w2 c1,
    w = w1 ++ w2 /\ matches icase r1 pos c w1 (w2 ++ rest) c1 /\
    matches icase r2 (pos + length w1)%nat c1 w2 rest c'.
Proof. inversion 1; subst. eauto 7. Qed.

Lemma matches_alt_inv icase r1 r2 pos c w rest c' :
  matches icase (Alt r1 r2) pos c w rest c' ->
  matches icase r1 pos c w rest c' \/ matches icase r2 pos c w rest c'.
Proof. inversion 1; subst; auto. Qed.

Lemma matches_group_inv icase n r pos c w rest c' :
  matches icase (Group n r) pos c w rest c' ->
  exists c1, matches icase r pos c w rest c1 /\ c' = set_cap n w c1.
Proof. inversion 1; subst. eauto. Qed.

Lemma matches_eps_inv icase pos c w rest c' :
  matches icase Eps pos c w rest c' -> w = [] /\ c' = c.
Proof. inversion 1; subst. auto. Qed.

Lemma matches_bol_inv icase pos c w rest c' :
  matches icase Bol pos c w rest c' -> pos = 0%nat /\ w = [] /\ c' = c.
Proof. inversion 1; subst. auto. Qed.

Lemma matches_eol_inv icase pos c w rest c' :
  matches icase Eol pos c w rest c' -> w = [] /\ rest = [] /\ c' = c.
Proof. inversion 1; subst. auto. Qed.

Lemma matches_cls_inv icase neg cs pos c w rest c' :
  matches icase (Cls neg cs) pos c w rest c' ->
  exists ch, w = [ch] /\ cls_match icase neg cs ch = true /\ c' = c.
Proof. inversion 1; subst. eauto. Qed.

Lemma matches_star_cls icase g neg cs pos c w rest c' :
  matches icase (Star g (Cls neg cs)) pos c w rest c' ->
  Forall (fun ch => cls_match icase neg cs ch = true) w /\ c' = c.
Proof.
  remember (Star g (Cls neg cs)) as r eqn:Er.
  induction 1; inversion Er; subst; clear Er.
  - split; auto.
  - destruct IHmatches2 as [Hall Hc]; auto.
    apply matches_cls_inv in H0. destruct H0 as (ch & -> & Hch & ->).
    split; auto. simpl. constructor; auto.
Qed.

End RegExpFacts.

(* ===================================================================== *)
(** * Facts about the built-ins *)
(* ===================================================================== *)

Module NumberFacts.
Import JS.
Local Open Scope Z_scope.

(** The parts of a rounding beyond 53 bits: [z] is [q] units of
    [2 * half] and a rest [r]; the result is [q] or [q + 1] units. *)
Lemma round_nearest_even_parts z :
  2 ^ 53 <= z ->
  exists half q r,
    0 < half /\
    2 * half = 2 ^ (Z.log2 z - 52) /\
    z = q * (2 * half) + r /\
    0 <= r < 2 * half /\
    2 ^ 52 <= q < 2 ^ 53 /\
    round_nearest_even z
    = (if (half <? r) || ((r =? half) && Z.odd q) then q + 1 else q)
      * (2 * half).
Proof.
  intros Hz.
  assert (Hpos : 0 < z) by (assert (0 < 2 ^ 53) by reflexivity; lia).
  pose proof (Z.log2_spec z Hpos) as [Hlo Hhi].
  assert (He : 53 <= Z.log2 z) by (apply Z.log2_le_pow2; auto).
  set (e := Z.log2 z) in *.
  set (sh := e - 52).
  assert (Hsh : 1 <= sh) by (unfold sh; lia).
  set (half := 2 ^ (sh - 1)).
  assert (Hhalf : 0 < half) by (apply Z.pow_pos_nonneg; lia).
  assert (Hp : 2 ^ sh = 2 * half).
  { unfold half. rewrite <- Z.pow_succ_r by lia. f_equal. lia. }
  assert (He0 : 2 ^ e = 2 ^ 52 * (2 * half)).
  { rewrite <- Hp, <- Z.pow_add_r by lia. f_equal. unfold sh. lia. }
  assert (He1 : 2 ^ Z.succ e = 2 ^ 53 * (2 * half)).
  { rewrite <- Hp, <- Z.pow_add_r by lia. f_equal. unfold sh. lia. }
  exists half, (z / (2 * half)), (z mod (2 * half)).
  split; [exact Hhalf|]. split; [symmetry; exact Hp|].
  split; [rewrite (Z.mul_comm (z / _)); apply Z.div_mod; lia|].
  split; [apply Z.mod_pos_bound; lia|].
  split.
  { split.
    - apply Z.div_le_lower_bound; lia.
    - apply Z.div_lt_upper_bound; lia. }
  unfold round_nearest_even. fold e. fold sh.
  assert (Hs : (sh <=? 0) = false) by (apply Z.leb_gt; lia).
  rewrite Hs. rewrite !Z.shiftl_mul_pow2, Z.shiftr_div_pow2 by lia.
  fold half. rewrite Hp, Z.mul_1_l.
  replace (z - z / (2 * half) * (2 * half)) with (z mod (2 * half))
    by (rewrite Z.mod_eq by lia; ring).
  reflexivity.
Qed.

Lemma round_nearest_even_small z :
  0 <= z < 2 ^ 53 -> round_nearest_even z = z.
Proof.
  intros [H0 H1]. unfold round_nearest_even.
  assert (Hs : (Z.log2 z - 52 <=? 0) = true).
  { apply Z.leb_le.
    destruct (Z.eq_dec z 0) as [-> | Hn]; [vm_compute; discriminate|].
    assert (Z.log2 z < 53) by (apply Z.log2_lt_pow2; lia). lia. }
  rewrite Hs. reflexivity.
Qed.

(** An integer of at most 53 bits is a double. *)
Lemma to_double_exact z : 0 <= z <= 2 ^ 53 -> to_double z = Num z.
Proof.
  intros [H0 H1]. destruct (Z.eq_dec z (2 ^ 53)) as [-> | Hn].
  - vm_compute. reflexivity.
  - unfold to_double. rewrite Z.abs_eq by lia.
    rewrite round_nearest_even_small by lia.
    assert (Hs : (2 ^ 1024 <=? z) = false).
    { apply Z.leb_gt. assert (2 ^ 53 < 2 ^ 1024) by reflexivity. lia. }
    rewrite Hs. f_equal.
    destruct (Z.eq_dec z 0) as [-> | Hz]; [reflexivity|].
    rewrite Z.sgn_pos by lia. lia.
Qed.

(** Beyond 53 bits the double is within one part in 2^53 of the
    integer, and infinite only from 2^1024 - 2^970 on. *)
Lemma to_double_large z :
  2 ^ 53 <= z ->
  match to_double z with
  | Num d => 2 ^ 53 <= d /\ Z.abs (d - z) * 2 ^ 53 <= z
  | Infinity => 2 ^ 1024 - 2 ^ 970 <= z
  | _ => False
  end.
Proof.
  intros Hz.
  destruct (round_nearest_even_parts Hz)
    as (half & q & r & Hhalf & Hp & Hzq & Hr & Hq & Hround).
  assert (H53 : 0 < 2 ^ 53) by reflexivity.
  assert (H52 : 2 ^ 53 = 2 * 2 ^ 52) by reflexivity.
  unfold to_double. rewrite Z.abs_eq by lia. rewrite Hround.
  assert (Hneg : (z <? 0) = false) by (apply Z.ltb_ge; lia).
  rewrite Hneg. rewrite Z.sgn_pos by lia. rewrite Z.mul_1_l.
  set (q' := if (half <? r) || ((r =? half) && Z.odd q) then q + 1 else q).
  assert (Hq' : (q' = q /\ r <= half) \/ (q' = q + 1 /\ half <= r)).
  { unfold q'. destruct (half <? r) eqn:E1; simpl.
    - right. apply Z.ltb_lt in E1. lia.
    - apply Z.ltb_ge in E1. destruct (r =? half) eqn:E2; simpl.
      + apply Z.eqb_eq in E2. destruct (Z.odd q); [right | left]; lia.
      + left. lia. }
  destruct (2 ^ 1024 <=? q' * (2 * half)) eqn:Ebig.
  - apply Z.leb_le in Ebig.
    destruct (Z_le_gt_dec 1024 (Z.log2 z)) as [Hl | Hl].
    + assert (2 ^ 1024 <= z).
      { apply Z.log2_le_pow2; lia. }
      assert (0 < 2 ^ 970) by reflexivity. lia.
    + assert (Hpow : 2 * half <= 2 ^ 971).
      { rewrite Hp. apply Z.pow_le_mono_r; lia. }
      assert (E1024 : 2 ^ 1024 = 2 ^ 53 * 2 ^ 971) by reflexivity.
      assert (E970 : 2 ^ 971 = 2 * 2 ^ 970) by reflexivity.
      assert (Hq1 : q' = q + 1) by nia.
      assert (Hfull : 2 * half = 2 ^ 971) by nia.
      assert (Hq2 : q + 1 = 2 ^ 53) by nia.
      destruct Hq' as [[Hq' _] | [_ Hr']]; [lia|].
      nia.
  - split.
    + nia.
    + destruct Hq' as [[-> Hr'] | [-> Hr']].
      * replace (q * (2 * half) - z) with (- r) by lia.
        rewrite Z.abs_opp, Z.abs_eq by lia. nia.
      * replace ((q + 1) * (2 * half) - z) with (2 * half - r) by lia.
        rewrite Z.abs_eq by lia. nia.
Qed.

(** The Number value for a natural number is never [NaN] and never
    negative. *)
Lemma to_double_natural z :
  0 <= z ->
  match to_double z with
  | Num d => 0 <= d
  | Infinity => True
  | _ => False
  end.
Proof.
  intros Hz. destruct (Z_le_gt_dec z (2 ^ 53)) as [Hs | Hl].
  - rewrite to_double_exact by lia. exact Hz.
  - assert (Hle : 2 ^ 53 <= z) by lia.
    pose proof (to_double_large Hle) as H.
    assert (0 < 2 ^ 53) by reflexivity.
    destruct (to_double z); auto. lia.
Qed.

(** Rounding does not move a number across 1000. *)
Lemma to_double_gt_1000 z :
  0 <= z -> gt (to_double z) 1000 = (1000 <? z).
Proof.
  intros Hz. destruct (Z_le_gt_dec z (2 ^ 53)) as [Hs | Hl].
  - rewrite to_double_exact by lia. reflexivity.
  - assert (Hle : 2 ^ 53 <= z) by lia.
    pose proof (to_double_large Hle) as H.
    assert (1000 < 2 ^ 53) by reflexivity.
    assert (E : (1000 <? z) = true) by (apply Z.ltb_lt; lia).
    rewrite E. destruct (to_double z); simpl; try tauto.
    apply Z.ltb_lt. lia.
Qed.

(** Only the integer itself reads as an integer below 2^53. *)
Lemma same_double_exact c z :
  0 <= c -> 0 <= z < 2 ^ 53 -> same_double c z = true -> c = z.
Proof.
  intros Hc Hz. unfold same_double.
  destruct (Z_le_gt_dec c (2 ^ 53)) as [Hs | Hl].
  - rewrite to_double_exact by lia. apply Z.eqb_eq.
  - assert (Hle : 2 ^ 53 <= c) by lia.
    pose proof (to_double_large Hle) as H.
    destruct (to_double c); try discriminate.
    intros E. apply Z.eqb_eq in E. lia.
Qed.

Lemma shortest_exact z :
  0 <= z < 2 ^ 53 -> forall fuel k, shortest z k fuel = z.
Proof.
  intros Hz fuel. induction fuel as [|fuel IH]; intros k; simpl; auto.
  unfold candidates.
  set (p := 10 ^ Z.of_nat (length (decimal_digits z) - k)).
  assert (Hp : 0 < p) by (apply Z.pow_pos_nonneg; lia).
  pose proof (Z.mul_div_le z p Hp) as Hlo.
  pose proof (Z.mul_succ_div_gt z p Hp) as Hhi.
  assert (Hq : 0 <= z / p) by (apply Z.div_pos; lia).
  assert (Hhi' : same_double (z / p * p + p) z = false).
  { destruct (same_double (z / p * p + p) z) eqn:E; auto.
    apply same_double_exact in E; nia. }
  rewrite Hhi'.
  destruct (same_double (z / p * p) z) eqn:E; [|apply IH].
  apply same_double_exact in E; nia.
Qed.

(** A double that is a natural number below 2^53 prints as its
    decimal digits. *)
Lemma number_to_string_exact z :
  0 <= z < 2 ^ 53 -> number_to_string (Num z) = decimal_digits z.
Proof.
  intros Hz. unfold number_to_string.
  assert (Hn : (z <? 0) = false) by (apply Z.ltb_ge; lia).
  rewrite Hn, shortest_exact by exact Hz.
  unfold render.
  assert (Hs : (z <? 10 ^ 21) = true).
  { apply Z.ltb_lt. assert (2 ^ 53 < 10 ^ 21) by reflexivity. lia. }
  rewrite Hs. reflexivity.
Qed.

End NumberFacts.

Module JSFacts.
Import JS Spec.
Local Open Scope N_scope.

Ltac unfold_chars :=
  unfold is_amount_char, is_space, is_white_space, is_line_terminator,
    is_word, is_digit, is_upper, is_lower, swap_case, between in *.

Ltac bool_to_prop :=
  repeat (rewrite ?andb_true_iff, ?orb_true_iff, ?andb_false_iff,
           ?orb_false_iff, ?negb_true_iff, ?negb_false_iff,
           ?N.leb_le, ?N.leb_gt, ?N.eqb_eq, ?N.eqb_neq in *).

Ltac char_solve := unfold_chars; bool_to_prop; lia.

Lemma is_digit_range c : is_digit c = true <-> 48 <= c <= 57.
Proof. char_solve. Qed.

Lemma digit_not_space c : is_digit c = true -> is_space c = false.
Proof. char_solve. Qed.

Lemma digit_swap_case c : is_digit (swap_case c) = true -> is_digit c = true.
Proof.
  unfold swap_case.
  destruct (is_lower c) eqn:Hl; [|destruct (is_upper c) eqn:Hu]; auto;
    char_solve.
Qed.

Lemma digit_val_range c : is_digit c = true -> (0 <= digit_val c <= 9)%Z.
Proof. unfold digit_val. rewrite is_digit_range. lia. Qed.

Lemma read_decimal_digits ds :
  Forall (fun c => is_digit c = true) ds ->
  forall acc n,
    read_decimal acc n ds
    = (fold_left (fun a c => (10 * a + digit_val c)%Z) ds acc,
       (n + length ds)%nat).
Proof.
  induction 1 as [|c ds Hc _ IH]; intros acc n; simpl.
  - rewrite Nat.add_0_r. reflexivity.
  - rewrite Hc, IH. f_equal. lia.
Qed.

(** [parseInt] of a non-empty run of decimal digits is the Number
    value for its value. *)
Lemma parseInt_digits c ds :
  Forall (fun c => is_digit c = true) (c :: ds) ->
  parseInt (c :: ds) = to_double (decimal_value (c :: ds)).
Proof.
  intros Hall. pose proof Hall as Hall'.
  inversion Hall as [|? ? Hc Hds]; subst.
  unfold parseInt. simpl trimStart. rewrite (digit_not_space _ Hc).
  assert (H45 : (c =? 45) = false) by char_solve.
  assert (H43 : (c =? 43) = false) by char_solve.
  rewrite H45, H43. simpl orb. cbv iota.
  assert (Hhex : match c :: ds with
                 | z :: x :: _ => (z =? 48) && ((x =? 120) || (x =? 88))
                 | _ => false
                 end = false).
  { destruct ds as [|x t]; auto. inversion Hds; subst.
    assert ((x =? 120) = false) by char_solve.
    assert ((x =? 88) = false) by char_solve.
    rewrite H, H0. apply andb_false_r. }
  rewrite Hhex. rewrite (read_decimal_digits Hall').
  unfold finish_parse. cbn [snd fst length Nat.add].
  rewrite Z.mul_1_l. reflexivity.
Qed.

Lemma parseInt_nil : parseInt [] = NaN.
Proof. reflexivity. Qed.

Lemma decimal_value_snoc ds c :
  decimal_value (ds ++ [c]) = (10 * decimal_value ds + digit_val c)%Z.
Proof. unfold decimal_value. rewrite fold_left_app. reflexivity. Qed.

(** A run of [n] digits reads as a number below [10^n]. *)
Lemma decimal_value_bound ds :
  Forall (fun c => is_digit c = true) ds ->
  (0 <= decimal_value ds < 10 ^ Z.of_nat (length ds))%Z.
Proof.
  induction ds as [|c ds IH] using rev_ind; intros Hall.
  - simpl. unfold decimal_value. simpl. lia.
  - apply Forall_app in Hall. destruct Hall as [Hds Hc].
    inversion Hc; subst. specialize (IH Hds).
    rewrite decimal_value_snoc, length_app. simpl length.
    pose proof (digit_val_range _ H1).
    replace (Z.of_nat (length ds + 1)) with (Z.succ (Z.of_nat (length ds)))
      by lia.
    rewrite Z.pow_succ_r by lia. lia.
Qed.

(** Up to 2^53 [parseInt] reads the digits exactly. *)
Lemma parseInt_digits_exact c ds :
  Forall (fun c => is_digit c = true) (c :: ds) ->
  (decimal_value (c :: ds) <= 2 ^ 53)%Z ->
  parseInt (c :: ds) = Num (decimal_value (c :: ds)).
Proof.
  intros Hall Hle. rewrite (parseInt_digits Hall).
  apply NumberFacts.to_double_exact.
  pose proof (decimal_value_bound Hall). lia.
Qed.

Lemma split_nonempty sep s : split sep s <> [].
Proof.
  induction s as [|c s IH]; simpl; [discriminate|].
  destruct (c =? sep); [discriminate|].
  destruct (split sep s); [congruence|discriminate].
Qed.

(** Splitting at a separator splits the list of pieces. *)
Lemma split_app sep a b :
  split sep (a ++ sep :: b) = split sep a ++ split sep b.
Proof.
  induction a as [|c a IH]; simpl.
  - rewrite N.eqb_refl. reflexivity.
  - destruct (c =? sep); [rewrite IH; reflexivity|].
    rewrite IH. pose proof (split_nonempty sep a).
    destruct (split sep a); [congruence|reflexivity].
Qed.

Lemma take_while_ext p q :
  (forall c, p c = q c) -> forall s, take_while p s = take_while q s.
Proof.
  intros E s. induction s as [|c s IH]; simpl; auto.
  rewrite E, IH. reflexivity.
Qed.

Lemma firstn_take_while p s :
  firstn (length (take_while p s)) s = take_while p s.
Proof.
  induction s as [|c s IH]; simpl; auto.
  destruct (p c); simpl; [f_equal; exact IH|reflexivity].
Qed.

Lemma take_while_all p s : Forall (fun c => p c = true) (take_while p s).
Proof.
  induction s as [|c s IH]; simpl; auto.
  destruct (p c) eqn:E; auto.
Qed.

End JSFacts.

(* ===================================================================== *)
(** * The purse extractor *)
(* ===================================================================== *)

Module PurseFacts.
Import JS RegExp OCR Spec JSFacts RegExpFacts.
Local Open Scope N_scope.

(** [[\d,]] *)
Definition amount_cls : cset := CUnion CDigit (cchr ",").

Lemma amount_cls_match c :
  cls_match false false amount_cls c = is_amount_char c.
Proof.
  unfold cls_match, amount_cls, is_amount_char. simpl.
  rewrite orb_false_r. reflexivity.
Qed.

Lemma amount_not_dollar c : is_amount_char c = true -> (c =? 36) = false.
Proof. char_solve. Qed.

(** A greedy repetition of a class, before a continuation that cannot
    fail, takes the longest run. *)
Lemma star_cls_greedy icase neg cs (k : cont) :
  (forall p s c, k p s c <> None) ->
  forall n pos s c,
    (length s <= n)%nat ->
    star_loop (run icase (Cls neg cs)) true k n pos s c
    = k (pos + length (take_while (cls_match icase neg cs) s))%nat
        (drop_while (cls_match icase neg cs) s) c.
Proof.
  intros Hk n. induction n as [|n IH]; intros pos s c Hn.
  - destruct s; [|simpl in Hn; lia]. simpl. rewrite Nat.add_0_r. reflexivity.
  - destruct s as [|ch s]; simpl.
    + rewrite Nat.add_0_r. reflexivity.
    + destruct (cls_match icase neg cs ch) eqn:Hc; simpl.
      * assert (Hlt : (length s <? S (length s))%nat = true)
          by (apply Nat.ltb_lt; lia).
        rewrite Hlt. rewrite IH by (simpl in Hn; lia).
        rewrite Nat.add_succ_r. change (S pos + ?x)%nat with (S (pos + x)).
        match goal with
        | |- orelse ?a _ = _ => destruct a eqn:E; simpl; auto
        end.
        exfalso. eapply Hk; eauto.
      * rewrite Nat.add_0_r. reflexivity.
Qed.

(** The group [([\d,]+)] at the head of [s]. *)
Lemma run_amount_group pos s c :
  run false (Group 1 (plus (Cls false amount_cls))) pos s c accept
  = match s with
    | ch :: _ =>
        if is_amount_char ch
        then Some ((pos + length (take_while is_amount_char s))%nat,
                   set_cap 1 (take_while is_amount_char s) c)
        else None
    | [] => None
    end.
Proof.
  destruct s as [|ch s]; [reflexivity|].
  unfold plus. rewrite run_Group, run_Seq, run_Cls, amount_cls_match.
  destruct (is_amount_char ch) eqn:Hc; [|reflexivity].
  rewrite run_Star, star_cls_greedy; [|discriminate|lia].
  unfold accept. f_equal.
  rewrite (take_while_ext _ is_amount_char amount_cls_match).
  cbn [take_while]. rewrite Hc. cbn [length].
  f_equal; [lia|].
  f_equal.
  replace (S pos + length (take_while is_amount_char s) - pos)%nat
    with (S (length (take_while is_amount_char s))) by lia.
  cbn [firstn]. f_equal. apply firstn_take_while.
Qed.

Lemma run_purse pos s :
  option_map (fun res => snd res 1%nat)
    (run false (body pursePattern) pos s no_caps accept)
  = match s with
    | ch :: s' =>
        if is_amount_char ch then Some (Some (take_while is_amount_char s))
        else if (ch =? 36) then
          match s' with
          | x :: _ =>
              if is_amount_char x
              then Some (Some (take_while is_amount_char s'))
              else None
          | [] => None
          end
        else None
    | [] => None
    end.
Proof.
  change (body pursePattern)
    with (Seq (Alt (Cls false (CChar 36)) Eps)
              (Group 1 (plus (Cls false amount_cls)))).
  rewrite run_Seq, run_Alt, run_Cls, run_Eps.
  destruct s as [|ch s']; [reflexivity|].
  cbv beta. rewrite !run_amount_group.
  unfold cls_match. cbn [cset_mem andb xorb orb]. rewrite orb_false_r.
  destruct (is_amount_char ch) eqn:Hc.
  - rewrite (amount_not_dollar _ Hc). reflexivity.
  - destruct (ch =? 36) eqn:Hd; [|reflexivity].
    destruct s' as [|x s'']; [reflexivity|].
    destruct (is_amount_char x); reflexivity.
Qed.

Lemma search_purse s :
  forall pos,
    option_map (fun r => snd (snd r) 1%nat)
      (search false (body pursePattern) pos s)
    = option_map Some (first_amount_group s).
Proof.
  induction s as [|ch s IH]; intros pos.
  - reflexivity.
  - cbn [search first_amount_group].
    pose proof (run_purse pos (ch :: s)) as Hr.
    destruct (run false (body pursePattern) pos (ch :: s) no_caps accept)
      as [res|] eqn:E; simpl in Hr.
    + simpl. destruct (is_amount_char ch) eqn:Hc.
      * exact Hr.
      * destruct (ch =? 36); [|discriminate].
        destruct s as [|x s']; [discriminate|].
        simpl. destruct (is_amount_char x) eqn:Hx; [|discriminate].
        simpl in Hr. rewrite Hx in Hr. exact Hr.
    + destruct (is_amount_char ch) eqn:Hc; [discriminate|].
      apply IH.
Qed.

(** The first group of the purse pattern is the first digit group of
    the line. *)
Lemma exec_purse s :
  option_map (fun m => groups m 1%nat) (exec pursePattern s)
  = option_map Some (first_amount_group s).
Proof.
  unfold exec. rewrite <- (search_purse s 0).
  change (ignoreCase pursePattern) with false.
  destruct (search false (body pursePattern) 0 s) as [[i [e c]]|];
    reflexivity.
Qed.

Lemma remove_commas_digits g :
  Forall (fun c => is_amount_char c = true) g ->
  Forall (fun c => is_digit c = true) (remove_all 44 g).
Proof.
  induction 1 as [|c g Hc _ IH]; simpl; auto.
  destruct (c =? 44) eqn:E; simpl; auto.
  constructor; auto. unfold is_amount_char in Hc.
  rewrite E, orb_false_r in Hc. exact Hc.
Qed.

Lemma first_amount_group_all s g :
  first_amount_group s = Some g ->
  Forall (fun c => is_amount_char c = true) g.
Proof.
  induction s as [|c s IH]; simpl; [discriminate|].
  destruct (is_amount_char c) eqn:Hc; auto.
  intros H. inversion H; subst. constructor; auto. apply take_while_all.
Qed.

(** [extractPurse] against its description, with the bound of the code. *)
Lemma extractPurse_spec line :
  extractPurse line
  = match spec_purse_amount line with
    | Some a => if (1000 <? a)%Z then Some (to_double a) else None
    | None => None
    end.
Proof.
  unfold extractPurse, spec_purse_amount.
  pose proof (exec_purse line) as He.
  destruct (exec pursePattern line) as [m|];
    destruct (first_amount_group line) as [g|] eqn:Hg;
    simpl in He; try discriminate; auto.
  inversion He as [Hm]. unfold group. rewrite Hm.
  pose proof (remove_commas_digits (first_amount_group_all _ Hg)) as Hd.
  destruct (remove_all 44 g) as [|c ds] eqn:Er.
  - reflexivity.
  - rewrite (parseInt_digits Hd).
    rewrite NumberFacts.to_double_gt_1000; [reflexivity|].
    apply (decimal_value_bound Hd).
Qed.


End PurseFacts.

(* ===================================================================== *)
(** * The horse-entry extractor *)
(* ===================================================================== *)

Module HorseFacts.
Import JS RegExp OCR Spec JSFacts RegExpFacts.
Local Open Scope N_scope.

Lemma digit_cls_match ch :
  cls_match true false CDigit ch = true -> is_digit ch = true.
Proof.
  unfold cls_match. simpl. intros H.
  apply orb_true_iff in H. destruct H as [H | H]; auto.
  apply digit_swap_case; exact H.
Qed.

(** [\d{1,2}] matches one or two digits. *)
Lemma matches_number_inv pos c w rest c' :
  matches true (Group 1 (Seq digit (opt digit))) pos c w rest c' ->
  Forall (fun ch => is_digit ch = true) w /\
  (1 <= length w <= 2)%nat /\ c' 1%nat = Some w.
Proof.
  intros H. apply matches_group_inv in H. destruct H as (c1 & H & ->).
  apply matches_seq_inv in H. destruct H as (w1 & w2 & c2 & -> & H1 & H2).
  apply matches_cls_inv in H1. destruct H1 as (a & -> & Ha & ->).
  apply digit_cls_match in Ha.
  split; [|split]; [| |reflexivity].
  - apply matches_alt_inv in H2. destruct H2 as [H2 | H2].
    + apply matches_cls_inv in H2. destruct H2 as (b & -> & Hb & _).
      apply digit_cls_match in Hb. simpl. auto.
    + apply matches_eps_inv in H2. destruct H2 as [-> _]. simpl. auto.
  - apply matches_alt_inv in H2. destruct H2 as [H2 | H2].
    + apply matches_cls_inv in H2. destruct H2 as (b & -> & _). simpl. lia.
    + apply matches_eps_inv in H2. destruct H2 as [-> _]. simpl. lia.
Qed.

(** What a match of the horse pattern says about the groups. *)
Lemma horsePattern_groups line m :
  exec horsePattern line = Some m ->
  (exists ds, groups m 1%nat = Some ds /\
              Forall (fun ch => is_digit ch = true) ds /\
              (1 <= length ds <= 2)%nat) /\
  (exists name, groups m 2%nat = Some name) /\
  (groups m 3%nat = None \/ has_jockey_group line = true) /\
  (groups m 4%nat = None \/ has_odds_token line = true).
Proof.
  intros He. apply exec_sound in He.
  destruct He as (pre & rest & Hline & _ & Hm).
  change (ignoreCase horsePattern) with true in Hm.
  cbn [body horsePattern seq] in Hm.
  apply matches_seq_inv in Hm. destruct Hm as (w0 & t0 & c0 & E0 & H0 & Hm).
  apply matches_bol_inv in H0. destruct H0 as (_ & -> & ->).
  apply matches_seq_inv in Hm. destruct Hm as (w1 & t1 & c1 & E1 & H1 & Hm).
  assert (Hc1' : forall n, (n = 3 \/ n = 4)%nat -> c1 n = None).
  { intros n Hn. rewrite (matches_frame H1 n); [reflexivity|].
    cbn. intuition (subst; discriminate). }
  apply matches_number_inv in H1. destruct H1 as (Hds & Hlen & Hc1).
  split.
  { exists w1. rewrite (matches_frame Hm 1%nat); [auto|].
    cbn. intuition discriminate. }
  apply matches_seq_inv in Hm. destruct Hm as (w2 & t2 & c2 & E2 & H2 & Hm).
  apply matches_seq_inv in Hm. destruct Hm as (w3 & t3 & c3 & E3 & H3 & Hm).
  apply matches_seq_inv in Hm. destruct Hm as (w4 & t4 & c4 & E4 & H4 & Hm).
  split.
  { exists w4. rewrite (matches_frame Hm 2%nat) by (cbn; intuition discriminate).
    apply matches_group_inv in H4. destruct H4 as (c4' & _ & ->).
    reflexivity. }
  apply matches_seq_inv in Hm. destruct Hm as (w5 & t5 & c5 & E5 & H5 & Hm).
  apply matches_seq_inv in Hm. destruct Hm as (w6 & t6 & c6 & E6 & H6 & Hm).
  assert (Hc5 : forall n, (n = 3 \/ n = 4)%nat -> c5 n = None).
  { intros n Hn.
    rewrite (matches_frame H5 n) by (cbn; intuition discriminate).
    rewrite (matches_frame H4 n) by (cbn; intuition (subst; discriminate)).
    rewrite (matches_frame H3 n) by (cbn; intuition discriminate).
    rewrite (matches_frame H2 n) by (cbn; intuition discriminate).
    auto. }
  split.
  { rewrite (matches_frame Hm 3%nat) by (cbn; intuition discriminate).
    apply matches_alt_inv in H6. destruct H6 as [H6 | H6].
    - right. unfold has_jockey_group.
      replace line
        with ((pre ++ w1 ++ w2 ++ w3 ++ w4 ++ w5) ++ w6 ++ (t6 ++ rest))
        by (subst; rewrite E0; simpl; rewrite <- !app_assoc; reflexivity).
      apply test_complete with (c := c5) (c' := c6). cbn [body ignoreCase].
      replace (length (pre ++ w1 ++ w2 ++ w3 ++ w4 ++ w5))
        with (length pre + length (@nil char) + length w1 + length w2
              + length w3 + length w4 + length w5)%nat
        by (rewrite !length_app; simpl; lia).
      exact H6.
    - left. apply matches_eps_inv in H6. destruct H6 as [_ ->].
      apply Hc5; auto. }
  apply matches_seq_inv in Hm. destruct Hm as (w7 & t7 & c7 & E7 & H7 & Hm).
  apply matches_seq_inv in Hm. destruct Hm as (w8 & t8 & c8 & E8 & H8 & Hm).
  rewrite (matches_frame Hm 4%nat) by (cbn; intuition discriminate).
  apply matches_alt_inv in H8. destruct H8 as [H8 | H8].
  - right. unfold has_odds_token.
    replace line
      with ((pre ++ w1 ++ w2 ++ w3 ++ w4 ++ w5 ++ w6 ++ w7) ++ w8
            ++ (t8 ++ rest))
      by (subst; rewrite E0; simpl; rewrite <- !app_assoc; reflexivity).
    apply test_complete with (c := c7) (c' := c8). cbn [body ignoreCase].
    replace (length (pre ++ w1 ++ w2 ++ w3 ++ w4 ++ w5 ++ w6 ++ w7))
      with (length pre + length (@nil char) + length w1 + length w2
            + length w3 + length w4 + length w5 + length w6
            + length w7)%nat
      by (rewrite !length_app; simpl; lia).
    exact H8.
  - left. apply matches_eps_inv in H8. destruct H8 as [_ ->].
    rewrite (matches_frame H7 4%nat) by (cbn; intuition discriminate).
    rewrite (matches_frame H6 4%nat) by (cbn; intuition discriminate).
    apply Hc5; auto.
Qed.

(** The horse of a matching line. *)
Lemma extractHorseFromLine_inv line horse :
  extractHorseFromLine line = Some horse ->
  exists m,
    exec horsePattern line = Some m /\
    Horse.number horse = parseInt (group m 1) /\
    Horse.jockey horse = or_else (option_map trim (groups m 3%nat)) (str "Unknown") /\
    Horse.trainer horse = str "Unknown" /\
    Horse.weight horse = Num 120 /\
    Horse.odds horse = option_map trim (groups m 4%nat).
Proof.
  unfold extractHorseFromLine. intros H.
  destruct (exec horsePattern line) as [m|]; [|discriminate].
  inversion H; subst; clear H. exists m. simpl. auto 10.
Qed.

(** A horse number is read from one or two digits. *)
Lemma extractHorseFromLine_number line horse :
  extractHorseFromLine line = Some horse ->
  int_between 0 99 (Horse.number horse).
Proof.
  intros H. apply extractHorseFromLine_inv in H.
  destruct H as (m & He & Hn & _). rewrite Hn.
  apply horsePattern_groups in He.
  destruct He as ((ds & Hg & Hds & Hlen) & _).
  unfold group. rewrite Hg.
  destruct ds as [|a ds]; [simpl in Hlen; lia|].
  pose proof (decimal_value_bound Hds) as Hb.
  assert (10 ^ Z.of_nat (length (a :: ds)) <= 100)%Z.
  { destruct ds as [|b [|? ?]]; simpl in *; lia. }
  assert (100 < 2 ^ 53)%Z by reflexivity.
  rewrite (parseInt_digits_exact Hds) by lia. simpl. lia.
Qed.

End HorseFacts.

(** ** Keyword patterns *)

Module KeywordFacts.
Import JS RegExp OCR Spec Notions JSFacts RegExpFacts.
Local Open Scope N_scope.

Definition is_some {A : Type} (o : option A) : bool :=
  match o with Some _ => true | None => false end.

(** A literal character under the [i] flag matches up to case. *)
Lemma cls_char_ci a ch : cls_match true false (CChar a) ch = ci_eqb a ch.
Proof.
  unfold cls_match, ci_eqb, to_upper, swap_case. simpl.
  apply eq_iff_eq_true.
  destruct (is_lower a) eqn:La, (is_lower ch) eqn:Lc, (is_upper ch) eqn:Uc;
    unfold is_lower, is_upper, between in *; bool_to_prop; lia.
Qed.

Lemma ci_eqb_upper a ch : ci_eqb a ch = true -> to_upper ch = to_upper a.
Proof. unfold ci_eqb. rewrite N.eqb_eq. auto. Qed.

Definition literal (needle : jsstring) : regex :=
  seq (map (fun c => Cls false (CChar c)) needle).

Lemma literal_cons a b needle :
  literal (a :: b :: needle) = Seq (Cls false (CChar a)) (literal (b :: needle)).
Proof. reflexivity. Qed.

(** A literal runs as a comparison of prefixes. *)
Lemma run_literal needle :
  forall pos s c k,
    run true (literal needle) pos s c k
    = if prefix_ci needle s
      then k (pos + length needle)%nat (skipn (length needle) s) c
      else None.
Proof.
  induction needle as [|a needle IH]; intros pos s c k.
  - simpl. rewrite Nat.add_0_r. reflexivity.
  - destruct needle as [|b needle].
    + unfold literal. cbn [map seq]. rewrite run_Cls.
      destruct s as [|ch s]; [reflexivity|].
      rewrite cls_char_ci. cbn [prefix_ci length skipn].
      rewrite andb_true_r, Nat.add_1_r. reflexivity.
    + rewrite literal_cons, run_Seq, run_Cls.
      destruct s as [|ch s]; [reflexivity|].
      rewrite cls_char_ci. cbn [prefix_ci].
      destruct (ci_eqb a ch); [|reflexivity].
      rewrite IH. cbn [andb].
      change (length (a :: b :: needle)) with (S (length (b :: needle))).
      cbn [skipn]. rewrite Nat.add_succ_r. reflexivity.
Qed.

(** What a literal matches is the literal, up to case. *)
Lemma matches_literal needle :
  forall pos c w rest c',
    matches true (literal needle) pos c w rest c' ->
    map to_upper w = map to_upper needle.
Proof.
  induction needle as [|a needle IH]; intros pos c w rest c' H.
  - apply matches_eps_inv in H. destruct H as [-> _]. reflexivity.
  - destruct needle as [|b needle].
    + unfold literal in H. cbn [map seq] in H.
      apply matches_cls_inv in H. destruct H as (ch & -> & Hc & _).
      rewrite cls_char_ci in Hc. simpl. rewrite (ci_eqb_upper _ _ Hc).
      reflexivity.
    + rewrite literal_cons in H. apply matches_seq_inv in H.
      destruct H as (w1 & w2 & c1 & -> & H1 & H2).
      apply matches_cls_inv in H1. destruct H1 as (ch & -> & Hc & _).
      rewrite cls_char_ci in Hc. apply IH in H2.
      simpl. rewrite (ci_eqb_upper _ _ Hc). simpl in H2. rewrite H2.
      reflexivity.
Qed.

Lemma any_suffix_or P Q s :
  any_suffix (fun t => P t || Q t) s = any_suffix P s || any_suffix Q s.
Proof.
  induction s as [|c s IH]; simpl.
  - rewrite !orb_false_r. reflexivity.
  - rewrite IH. destruct (P (c :: s)), (Q (c :: s)), (any_suffix P s); reflexivity.
Qed.

(** A pattern whose success at an offset depends on the input left only
    is found exactly when some suffix makes it succeed. *)
Lemma search_any icase r P :
  (forall pos s, is_some (run icase r pos s no_caps accept) = P s) ->
  forall s pos, is_some (search icase r pos s) = any_suffix P s.
Proof.
  intros HP s. induction s as [|ch s IH]; intros pos; simpl.
  - rewrite <- (HP pos []). rewrite orb_false_r.
    destruct (run icase r pos [] no_caps accept); reflexivity.
  - rewrite <- (HP pos (ch :: s)).
    destruct (run icase r pos (ch :: s) no_caps accept); simpl; auto.
Qed.

Lemma test_search p s :
  test p s = is_some (search (ignoreCase p) (body p) 0 s).
Proof.
  unfold test, exec.
  destruct (search (ignoreCase p) (body p) 0 s) as [[i [e c]]|]; reflexivity.
Qed.

Lemma run_literal_some needle pos s :
  is_some (run true (literal needle) pos s no_caps accept) = prefix_ci needle s.
Proof. rewrite run_literal. destruct (prefix_ci needle s); reflexivity. Qed.

(** [/word/i.test(s)] is a search for the word up to case. *)
Lemma test_lit word s : test (Pattern (lit word) true) s = contains_ci word s.
Proof.
  rewrite test_search. cbn [body ignoreCase]. unfold contains_ci.
  apply search_any. intros pos t. apply run_literal_some.
Qed.

(** [/a|b/i.test(s)] *)
Lemma test_alt_lit a b s :
  test (Pattern (Alt (lit a) (lit b)) true) s
  = contains_ci a s || contains_ci b s.
Proof.
  rewrite test_search. cbn [body ignoreCase]. unfold contains_ci.
  rewrite <- any_suffix_or. apply search_any. intros pos t.
  rewrite run_Alt. change (lit a) with (literal (str a)).
  change (lit b) with (literal (str b)).
  rewrite <- !(run_literal_some _ pos).
  destruct (run true (literal (str a)) pos t no_caps accept); reflexivity.
Qed.

Lemma exec_lit_whole word s m :
  exec (Pattern (lit word) true) s = Some m ->
  toUpperCase (whole m) = toUpperCase (str word).
Proof.
  intros H. apply exec_sound in H. destruct H as (pre & rest & _ & _ & Hm).
  cbn [body ignoreCase] in Hm. apply matches_literal in Hm. exact Hm.
Qed.

Lemma first_match_names names text :
  Forall (fun n => toUpperCase (str n) = str n) names ->
  option_map (fun m => toUpperCase (whole m))
    (first_match (map (fun s => Pattern (lit s) true) names) text)
  = option_map str (find (fun n => contains_ci n text) names).
Proof.
  induction 1 as [|n names Hn _ IH]; [reflexivity|].
  cbn [map first_match find]. rewrite <- test_lit. unfold test.
  destruct (exec (Pattern (lit n) true) text) as [m|] eqn:E; [|exact IH].
  simpl. rewrite (exec_lit_whole _ _ E), Hn. reflexivity.
Qed.

End KeywordFacts.

(** ** The race header against its description *)

Module MarkerFacts.
Import JS RegExp OCR Spec Notions JSFacts RegExpFacts.
Local Open Scope N_scope.

Definition starts_with (p : char -> bool) (s : jsstring) : bool :=
  match s with
  | ch :: _ => p ch
  | [] => false
  end.

Lemma digit_cls_ci ch : cls_match true false CDigit ch = is_digit ch.
Proof.
  unfold cls_match. simpl.
  destruct (is_digit ch) eqn:E; [reflexivity|].
  destruct (is_digit (swap_case ch)) eqn:E'; [|reflexivity].
  apply digit_swap_case in E'. congruence.
Qed.

Lemma space_swap_case c : is_space (swap_case c) = true -> is_space c = true.
Proof.
  unfold swap_case.
  destruct (is_lower c) eqn:Hl; [|destruct (is_upper c) eqn:Hu]; auto;
    char_solve.
Qed.

Lemma space_cls_ci ch : cls_match true false CSpace ch = is_space ch.
Proof.
  unfold cls_match. simpl.
  destruct (is_space ch) eqn:E; [reflexivity|].
  destruct (is_space (swap_case ch)) eqn:E'; [|reflexivity].
  apply space_swap_case in E'. congruence.
Qed.

Lemma drop_while_ext p q :
  (forall c, p c = q c) -> forall s, drop_while p s = drop_while q s.
Proof.
  intros E s. induction s as [|c s IH]; simpl; auto.
  rewrite E, IH. reflexivity.
Qed.

Lemma starts_with_ext p q :
  (forall c, p c = q c) -> forall s, starts_with p s = starts_with q s.
Proof. intros E [|c s]; simpl; auto. Qed.

(** A greedy repetition of a class, before a continuation that fails
    on an input that starts in the class, takes the longest run. *)
Lemma star_cls_greedy_fail icase neg cs (k : cont) :
  (forall p s c,
     starts_with (cls_match icase neg cs) s = true -> k p s c = None) ->
  forall n pos s c,
    (length s <= n)%nat ->
    star_loop (run icase (Cls neg cs)) true k n pos s c
    = k (pos + length (take_while (cls_match icase neg cs) s))%nat
        (drop_while (cls_match icase neg cs) s) c.
Proof.
  intros Hk n. induction n as [|n IH]; intros pos s c Hn.
  - destruct s; [|simpl in Hn; lia]. simpl. rewrite Nat.add_0_r. reflexivity.
  - destruct s as [|ch s]; simpl.
    + rewrite Nat.add_0_r. reflexivity.
    + destruct (cls_match icase neg cs ch) eqn:Hc; simpl.
      * assert (Hlt : (length s <? S (length s))%nat = true)
          by (apply Nat.ltb_lt; lia).
        rewrite Hlt. rewrite IH by (simpl in Hn; lia).
        rewrite Nat.add_succ_r. change (S pos + ?x)%nat with (S (pos + x)).
        rewrite (Hk pos (ch :: s) c) by (simpl; exact Hc).
        match goal with
        | |- orelse ?a _ = _ => destruct a; reflexivity
        end.
      * rewrite Nat.add_0_r. reflexivity.
Qed.

(** One or more of a class, then a continuation that either never
    fails or fails on an input that starts in the class. *)
Lemma run_plus_cls icase neg cs pos s c (k : cont) :
  (forall p s c, k p s c <> None) \/
  (forall p s c,
     starts_with (cls_match icase neg cs) s = true -> k p s c = None) ->
  run icase (plus (Cls neg cs)) pos s c k
  = if starts_with (cls_match icase neg cs) s
    then k (pos + length (take_while (cls_match icase neg cs) s))%nat
           (drop_while (cls_match icase neg cs) s) c
    else None.
Proof.
  intros Hk. unfold plus. rewrite run_Seq, run_Cls.
  destruct s as [|ch s]; [reflexivity|]. cbn [starts_with].
  destruct (cls_match icase neg cs ch) eqn:Hc; [|reflexivity].
  rewrite run_Star. cbn [take_while drop_while]. rewrite Hc. cbn [length].
  rewrite Nat.add_succ_r.
  destruct Hk as [Hk | Hk].
  - rewrite PurseFacts.star_cls_greedy by auto. reflexivity.
  - rewrite star_cls_greedy_fail by auto. reflexivity.
Qed.

Lemma run_group_plus_cls icase n neg cs pos s c (k : cont) :
  (forall p s c, k p s c <> None) \/
  (forall p s c,
     starts_with (cls_match icase neg cs) s = true -> k p s c = None) ->
  run icase (Group n (plus (Cls neg cs))) pos s c k
  = if starts_with (cls_match icase neg cs) s
    then k (pos + length (take_while (cls_match icase neg cs) s))%nat
           (drop_while (cls_match icase neg cs) s)
           (set_cap n (take_while (cls_match icase neg cs) s) c)
    else None.
Proof.
  intros Hk. rewrite run_Group, run_plus_cls.
  - destruct (starts_with (cls_match icase neg cs) s); [|reflexivity].
    replace (pos + length (take_while (cls_match icase neg cs) s) - pos)%nat
      with (length (take_while (cls_match icase neg cs) s)) by lia.
    rewrite firstn_take_while. reflexivity.
  - destruct Hk as [Hk | Hk]; [left | right]; intros; auto.
Qed.

Lemma take_while_starts p s :
  starts_with p s = false -> take_while p s = [].
Proof. destruct s as [|c s]; simpl; auto. intros ->. reflexivity. Qed.

Lemma take_while_starts_true p s :
  starts_with p s = true -> exists d ds, take_while p s = d :: ds.
Proof. destruct s as [|c s]; simpl; [discriminate|]. intros ->. eauto. Qed.

(** A letter is no blank and no digit, in either case. *)
Lemma ci_letter a ch :
  is_upper a = true -> ci_eqb a ch = true ->
  is_space ch = false /\ is_digit ch = false.
Proof.
  unfold ci_eqb, to_upper.
  destruct (is_lower a) eqn:La, (is_lower ch) eqn:Lc;
    unfold_chars; bool_to_prop; lia.
Qed.

Lemma prefix_ci_letter a needle s :
  is_upper a = true -> prefix_ci (a :: needle) s = true ->
  starts_with is_space s = false /\ starts_with is_digit s = false.
Proof.
  intros Ha. destruct s as [|ch s]; simpl; [discriminate|].
  intros H. apply andb_true_iff in H. destruct H as [H _].
  apply (ci_letter _ _ Ha H).
Qed.

Lemma prefix_ci_upper needle s :
  prefix_ci (toUpperCase needle) s = prefix_ci needle s.
Proof.
  revert s. induction needle as [|a needle IH]; intros [|c s]; simpl; auto.
  rewrite IH. f_equal. unfold ci_eqb. f_equal.
  unfold to_upper. destruct (is_lower a) eqn:La; [|rewrite La; reflexivity].
  assert (E : is_lower (a - 32) = false) by char_solve.
  rewrite E. reflexivity.
Qed.

(** ["RACE", blanks, digits] at the head of [s]. *)
Definition after_form : regex :=
  seq [lit "RACE"; plus space; Group 1 (plus digit)].

Lemma run_digits_accept n pos s c :
  run true (Group n (plus digit)) pos s c accept
  = match take_while is_digit s with
    | [] => None
    | d :: ds =>
        Some ((pos + length (d :: ds))%nat, set_cap n (d :: ds) c)
    end.
Proof.
  unfold digit. rewrite run_group_plus_cls by (left; discriminate).
  rewrite (starts_with_ext _ is_digit digit_cls_ci).
  rewrite (take_while_ext _ is_digit digit_cls_ci).
  destruct (starts_with is_digit s) eqn:E.
  - destruct (take_while_starts_true _ _ E) as (d & ds & ->). reflexivity.
  - rewrite (take_while_starts _ _ E). reflexivity.
Qed.

Lemma run_after_form pos s c :
  exists e,
    run true after_form pos s c accept
    = option_map (fun ds => (e, set_cap 1 ds c)) (digits_after_RACE s).
Proof.
  unfold after_form, digits_after_RACE. cbn [seq]. rewrite run_Seq.
  change (lit "RACE") with (KeywordFacts.literal (str "RACE")).
  rewrite KeywordFacts.run_literal.
  destruct (prefix_ci (str "RACE") s); [|exists 0%nat; reflexivity].
  change (length (str "RACE")) with 4%nat.
  rewrite run_Seq. unfold space at 1.
  rewrite run_plus_cls.
  2:{ right. intros p s1 c1 Hs. rewrite run_digits_accept.
      rewrite (starts_with_ext _ is_space space_cls_ci) in Hs.
      destruct s1 as [|ch s1]; [discriminate|]. simpl in Hs. simpl.
      assert (E : is_digit ch = false).
      { destruct (is_digit ch) eqn:E; auto.
        rewrite (digit_not_space _ E) in Hs. discriminate. }
      rewrite E. reflexivity. }
  rewrite (starts_with_ext _ is_space space_cls_ci).
  rewrite (take_while_ext _ is_space space_cls_ci).
  rewrite (drop_while_ext _ is_space space_cls_ci).
  destruct (skipn 4 s) as [|ch t]; [exists 0%nat; reflexivity|].
  cbn [starts_with]. destruct (is_space ch) eqn:Hc;
    [|exists 0%nat; reflexivity].
  cbn [drop_while]. rewrite Hc. rewrite run_digits_accept.
  destruct (take_while is_digit (drop_while is_space t)) as [|d ds];
    [exists 0%nat; reflexivity|].
  eexists. reflexivity.
Qed.

(** [digits, a suffix or none, blanks, "RACE"] at the head of [s]. *)
Definition suffixes : regex := alt [lit "st"; lit "nd"; lit "rd"; lit "th"].
Definition before_form : regex :=
  seq [Group 2 (plus digit); opt suffixes; plus space; lit "RACE"].

Definition then_RACE : cont := fun p s c => run true (lit "RACE") p s c accept.
Definition then_blanks : cont :=
  fun p s c => run true (plus space) p s c then_RACE.
Definition then_suffix : cont :=
  fun p s c => run true (opt suffixes) p s c then_blanks.

Lemma then_RACE_eq p s c :
  then_RACE p s c
  = if prefix_ci (str "RACE") s then Some ((p + 4)%nat, c) else None.
Proof.
  unfold then_RACE.
  change (lit "RACE") with (KeywordFacts.literal (str "RACE")).
  rewrite KeywordFacts.run_literal. reflexivity.
Qed.

Lemma then_blanks_eq p s c :
  exists e,
    then_blanks p s c
    = match s with
      | ch :: u =>
          if is_space ch && prefix_ci (str "RACE") (drop_while is_space u)
          then Some (e, c)
          else None
      | [] => None
      end.
Proof.
  unfold then_blanks, space. rewrite run_plus_cls.
  2:{ right. intros p1 s1 c1 Hs. rewrite then_RACE_eq.
      rewrite (starts_with_ext _ is_space space_cls_ci) in Hs.
      destruct (prefix_ci (str "RACE") s1) eqn:E; [|reflexivity].
      apply prefix_ci_letter in E; [|reflexivity].
      destruct E as [E _]. congruence. }
  rewrite (starts_with_ext _ is_space space_cls_ci).
  rewrite (take_while_ext _ is_space space_cls_ci).
  rewrite (drop_while_ext _ is_space space_cls_ci).
  destruct s as [|ch u]; [exists 0%nat; reflexivity|].
  cbn [starts_with drop_while].
  destruct (is_space ch); [|exists 0%nat; reflexivity].
  rewrite then_RACE_eq. cbn [andb]. eexists. reflexivity.
Qed.

Lemma then_blanks_starts p s c :
  starts_with is_space s = false -> then_blanks p s c = None.
Proof.
  intros H. destruct (then_blanks_eq p s c) as (e & ->).
  destruct s as [|ch u]; [reflexivity|]. simpl in H. rewrite H. reflexivity.
Qed.

Lemma has_ordinal_suffix_starts s :
  has_ordinal_suffix s = true ->
  starts_with is_space s = false /\ starts_with is_digit s = false.
Proof.
  unfold has_ordinal_suffix. intros H.
  repeat (apply orb_true_iff in H; destruct H as [H | H]);
    rewrite <- prefix_ci_upper in H;
    apply prefix_ci_letter in H; auto.
Qed.

Lemma then_suffix_eq p s c :
  exists p',
    then_suffix p s c
    = then_blanks p' (if has_ordinal_suffix s then skipn 2 s else s) c.
Proof.
  unfold then_suffix, opt, suffixes. cbn [alt].
  rewrite !run_Alt, run_Eps.
  change (lit "st") with (KeywordFacts.literal (str "st")).
  change (lit "nd") with (KeywordFacts.literal (str "nd")).
  change (lit "rd") with (KeywordFacts.literal (str "rd")).
  change (lit "th") with (KeywordFacts.literal (str "th")).
  rewrite !KeywordFacts.run_literal.
  change (length (str "st")) with 2%nat.
  change (length (str "nd")) with 2%nat.
  change (length (str "rd")) with 2%nat.
  change (length (str "th")) with 2%nat.
  destruct (has_ordinal_suffix s) eqn:Hs.
  - exists (p + 2)%nat.
    rewrite (then_blanks_starts p s c)
      by (apply has_ordinal_suffix_starts, Hs).
    unfold has_ordinal_suffix in Hs.
    destruct (prefix_ci (str "st") s), (prefix_ci (str "nd") s),
      (prefix_ci (str "rd") s), (prefix_ci (str "th") s);
      try discriminate;
      destruct (then_blanks (p + 2)%nat (skipn 2 s) c); reflexivity.
  - exists p. unfold has_ordinal_suffix in Hs.
    apply orb_false_iff in Hs. destruct Hs as [Hs H4].
    apply orb_false_iff in Hs. destruct Hs as [Hs H3].
    apply orb_false_iff in Hs. destruct Hs as [H1 H2].
    rewrite H1, H2, H3, H4. reflexivity.
Qed.

Lemma then_suffix_starts p s c :
  starts_with is_digit s = true -> then_suffix p s c = None.
Proof.
  intros H. destruct (then_suffix_eq p s c) as (p' & ->).
  assert (Hs : has_ordinal_suffix s = false).
  { destruct (has_ordinal_suffix s) eqn:E; auto.
    apply has_ordinal_suffix_starts in E. destruct E as [_ E]. congruence. }
  rewrite Hs. apply then_blanks_starts.
  destruct s as [|ch s]; [reflexivity|]. simpl in *.
  apply digit_not_space, H.
Qed.

Lemma run_before_form pos s c :
  exists e,
    run true before_form pos s c accept
    = option_map (fun ds => (e, set_cap 2 ds c)) (digits_before_RACE s).
Proof.
  unfold before_form, digits_before_RACE. cbn [seq]. rewrite run_Seq.
  change (fun p1 s1 c1 =>
            run true (Seq (opt suffixes) (Seq (plus space) (lit "RACE")))
              p1 s1 c1 accept)
    with then_suffix.
  unfold digit. rewrite run_group_plus_cls.
  2:{ right. intros p s1 c1 Hs. apply then_suffix_starts.
      rewrite <- (starts_with_ext _ is_digit digit_cls_ci). exact Hs. }
  rewrite (starts_with_ext _ is_digit digit_cls_ci).
  rewrite (take_while_ext _ is_digit digit_cls_ci).
  rewrite (drop_while_ext _ is_digit digit_cls_ci).
  destruct (starts_with is_digit s) eqn:E.
  - destruct (take_while_starts_true _ _ E) as (d & ds & ->).
    destruct (then_suffix_eq (pos + length (d :: ds))
                (drop_while is_digit s) (set_cap 2 (d :: ds) c))
      as (p' & ->).
    destruct (then_blanks_eq p'
                (if has_ordinal_suffix (drop_while is_digit s)
                 then skipn 2 (drop_while is_digit s)
                 else drop_while is_digit s)
                (set_cap 2 (d :: ds) c)) as (e & ->).
    exists e.
    destruct (has_ordinal_suffix (drop_while is_digit s));
      [destruct (skipn 2 (drop_while is_digit s)) as [|ch u]
      |destruct (drop_while is_digit s) as [|ch u]];
      try reflexivity;
      destruct (is_space ch && prefix_ci (str "RACE") (drop_while is_space u));
      reflexivity.
  - rewrite (take_while_starts _ _ E). exists 0%nat. reflexivity.
Qed.

(** The string [parseInt] is given: group 1 when it is not empty, else
    group 2. *)
Definition number_text (c : caps) : option jsstring :=
  match c 1%nat with
  | Some (x :: w) => Some (x :: w)
  | _ => c 2%nat
  end.

Lemma raceNumber_of_text m :
  raceNumber_of m
  = match number_text (groups m) with
    | Some w => parseInt w
    | None => NaN
    end.
Proof.
  unfold raceNumber_of, number_text.
  destruct (groups m 1%nat) as [[|x w]|]; reflexivity.
Qed.

Lemma digits_after_RACE_nonempty s ds :
  digits_after_RACE s = Some ds -> ds <> [].
Proof.
  unfold digits_after_RACE.
  destruct (prefix_ci (str "RACE") s); [|discriminate].
  destruct (skipn 4 s) as [|ch t]; [discriminate|].
  destruct (is_space ch); [|discriminate].
  destruct (take_while is_digit (drop_while is_space t)); [discriminate|].
  intros H. inversion H. discriminate.
Qed.

Lemma run_header pos s :
  option_map (fun res => number_text (snd res))
    (run true (body raceHeaderRegex) pos s no_caps accept)
  = option_map Some (digits_at_head s).
Proof.
  change (body raceHeaderRegex) with (Alt after_form before_form).
  rewrite run_Alt. unfold digits_at_head.
  destruct (run_after_form pos s no_caps) as (e1 & ->).
  destruct (run_before_form pos s no_caps) as (e2 & ->).
  destruct (digits_after_RACE s) as [ds|] eqn:Ea; simpl.
  - pose proof (digits_after_RACE_nonempty _ Ea) as Hn.
    destruct ds as [|d ds]; [congruence|]. reflexivity.
  - destruct (digits_before_RACE s); reflexivity.
Qed.

Lemma search_header s :
  forall pos,
    option_map (fun r => number_text (snd (snd r)))
      (search true (body raceHeaderRegex) pos s)
    = option_map Some (header_digits s).
Proof.
  induction s as [|ch s IH]; intros pos.
  - cbn [search header_digits].
    pose proof (run_header pos []) as Hr.
    destruct (run true (body raceHeaderRegex) pos [] no_caps accept);
      [discriminate Hr | reflexivity].
  - cbn [search header_digits].
    pose proof (run_header pos (ch :: s)) as Hr.
    destruct (run true (body raceHeaderRegex) pos (ch :: s) no_caps accept)
      as [res|];
      destruct (digits_at_head (ch :: s)); simpl in Hr; try discriminate.
    + exact Hr.
    + apply IH.
Qed.

(** The text [parseInt] is given for a header is the digits the line
    carries. *)
Lemma exec_header line :
  option_map (fun m => number_text (groups m)) (exec raceHeaderRegex line)
  = option_map Some (header_digits line).
Proof.
  unfold exec. rewrite <- (search_header line 0).
  change (ignoreCase raceHeaderRegex) with true.
  destruct (search true (body raceHeaderRegex) 0 line) as [[i [e c]]|];
    reflexivity.
Qed.

Lemma digits_at_head_digits s ds :
  digits_at_head s = Some ds ->
  exists d ds', ds = d :: ds' /\ Forall (fun c => is_digit c = true) ds.
Proof.
  unfold digits_at_head, digits_after_RACE, digits_before_RACE.
  destruct (prefix_ci (str "RACE") s).
  - destruct (skipn 4 s) as [|ch t].
    + destruct (take_while is_digit s) eqn:E; [discriminate|].
      destruct (if has_ordinal_suffix _ then _ else _) as [|c' u];
        [discriminate|].
      destruct (is_space c' && _); [|discriminate].
      intros H. inversion H; subst. rewrite <- E.
      eexists _, _. split; [exact E | apply take_while_all].
    + destruct (is_space ch).
      * destruct (take_while is_digit (drop_while is_space t)) eqn:E.
        -- destruct (take_while is_digit s) eqn:E2; [discriminate|].
           destruct (if has_ordinal_suffix _ then _ else _) as [|c' u];
             [discriminate|].
           destruct (is_space c' && _); [|discriminate].
           intros H. inversion H; subst. rewrite <- E2.
           eexists _, _. split; [exact E2 | apply take_while_all].
        -- intros H. inversion H; subst. rewrite <- E.
           eexists _, _. split; [exact E | apply take_while_all].
      * destruct (take_while is_digit s) eqn:E2; [discriminate|].
        destruct (if has_ordinal_suffix _ then _ else _) as [|c' u];
          [discriminate|].
        destruct (is_space c' && _); [|discriminate].
        intros H. inversion H; subst. rewrite <- E2.
        eexists _, _. split; [exact E2 | apply take_while_all].
  - destruct (take_while is_digit s) eqn:E2; [discriminate|].
    destruct (if has_ordinal_suffix _ then _ else _) as [|c' u];
      [discriminate|].
    destruct (is_space c' && _); [|discriminate].
    intros H. inversion H; subst. rewrite <- E2.
    eexists _, _. split; [exact E2 | apply take_while_all].
Qed.

Lemma header_digits_digits s ds :
  header_digits s = Some ds ->
  exists d ds', ds = d :: ds' /\ Forall (fun c => is_digit c = true) ds.
Proof.
  induction s as [|ch s IH]; cbn [header_digits]; [discriminate|].
  destruct (digits_at_head (ch :: s)) eqn:E; [|exact IH].
  intros H. inversion H; subst. apply (digits_at_head_digits _ E).
Qed.

(** The number the code opens a race with is the number the header
    line carries. *)
Lemma header_number_carried line :
  header_number line = carried_number line.
Proof.
  unfold header_number, carried_number.
  pose proof (exec_header line) as He.
  destruct (exec raceHeaderRegex line) as [m|];
    destruct (header_digits line) as [ds|] eqn:Hd;
    simpl in He; try discriminate; [|reflexivity].
  inversion He as [Hm].
  destruct (header_digits_digits _ Hd) as (d & ds' & -> & Hall).
  unfold option_map. rewrite raceNumber_of_text, Hm. f_equal.
  apply parseInt_digits, Hall.
Qed.

Lemma is_header_carried line :
  is_header line = KeywordFacts.is_some (header_digits line).
Proof.
  unfold is_header, test.
  pose proof (exec_header line) as He.
  destruct (exec raceHeaderRegex line) as [m|];
    destruct (header_digits line); simpl in He; try discriminate;
    reflexivity.
Qed.

Lemma header_numbers_carried lines :
  header_numbers lines = carried_numbers lines.
Proof.
  unfold header_numbers, carried_numbers.
  induction lines as [|l ls IH]; simpl; auto.
  rewrite header_number_carried, IH. reflexivity.
Qed.

Lemma exec_header_carried line m :
  exec raceHeaderRegex line = Some m ->
  exists d ds,
    header_digits line = Some (d :: ds) /\
    Forall (fun c => is_digit c = true) (d :: ds) /\
    raceNumber_of m = to_double (decimal_value (d :: ds)).
Proof.
  intros He. pose proof (header_number_carried line) as H.
  unfold header_number, carried_number in H. rewrite He in H.
  destruct (header_digits line) as [ds|] eqn:Hd; [|discriminate].
  destruct (header_digits_digits _ Hd) as (d & ds' & -> & Hall).
  simpl in H. inversion H. eauto.
Qed.

End MarkerFacts.

(* ===================================================================== *)
(** * The race assembler *)
(* ===================================================================== *)

Module AssemblerFacts.
Import JS RegExp OCR Spec JSFacts RegExpFacts.

Lemma subseq_refl A (l : list A) : subseq l l.
Proof. induction l; [apply subseq_nil | apply subseq_take; auto]. Qed.

Lemma subseq_nil_l A (l : list A) : subseq [] l.
Proof. induction l; [apply subseq_nil | apply subseq_skip; auto]. Qed.

Lemma subseq_app A (a b c d : list A) :
  subseq a b -> subseq c d -> subseq (a ++ c) (b ++ d).
Proof.
  induction 1; simpl; intros; auto;
    [apply subseq_skip | apply subseq_take]; auto.
Qed.

Lemma subseq_Forall A (P : A -> Prop) (l1 l2 : list A) :
  subseq l1 l2 -> Forall P l2 -> Forall P l1.
Proof.
  induction 1; intros Hall; auto; inversion Hall; subst; auto.
Qed.

Lemma subseq_In A (l1 l2 : list A) x :
  subseq l1 l2 -> In x l1 -> In x l2.
Proof.
  induction 1; simpl; intros Hin; auto.
  destruct Hin as [-> | Hin]; auto.
Qed.

Lemma subseq_NoDup A (l1 l2 : list A) :
  subseq l1 l2 -> NoDup l2 -> NoDup l1.
Proof.
  induction 1; intros Hd; auto; inversion Hd; subst; auto.
  constructor; auto. intros Hin. eapply subseq_In in Hin; eauto.
Qed.

(** Leaving elements out of a sorted list leaves it sorted. *)
Lemma subseq_sorted A (R : A -> A -> Prop) (l1 l2 : list A) :
  subseq l1 l2 -> StronglySorted R l2 -> StronglySorted R l1.
Proof.
  induction 1; intros Hs; auto; inversion Hs; subst; auto.
  constructor; auto. eapply subseq_Forall; eauto.
Qed.

Lemma num_lt_irrefl n : ~ num_lt n n.
Proof. destruct n; simpl; lia. Qed.

Lemma sorted_NoDup (l : list jsnumber) :
  StronglySorted num_lt l -> NoDup l.
Proof.
  induction 1 as [|a l _ IH Hall]; constructor; auto.
  intros Hin. rewrite Forall_forall in Hall.
  apply (@num_lt_irrefl a), Hall, Hin.
Qed.

Lemma scan_condition_number r line :
  Race.number (scan_condition r line) = Race.number r.
Proof.
  unfold scan_condition.
  destruct (extractDistance line) as [[|? ?]|];
    destruct (extractSurface line); destruct (extractPurse line);
    reflexivity.
Qed.

Lemma scan_window_number window r :
  Race.number (fold_left scan_condition window r) = Race.number r.
Proof.
  revert r. induction window as [|l w IH]; intros r; simpl; auto.
  rewrite IH. apply scan_condition_number.
Qed.

Section WithClock.
Variable h : clock.

(** The number of the race that is open, if one is. *)
Definition open_number (st : state) : list jsnumber :=
  match currentRace st with
  | Some r => [Race.number r]
  | None => []
  end.

Lemma save_numbers st :
  exists kept,
    map Race.number (save st) = map Race.number (races st) ++ kept /\
    subseq kept (open_number st).
Proof.
  unfold save, open_number.
  destruct (currentRace st) as [r|].
  - destruct (currentHorses st).
    + exists []. rewrite app_nil_r. split; auto. apply subseq_nil_l.
    + exists [Race.number r]. rewrite map_app. split; auto.
      apply subseq_refl.
  - exists []. rewrite app_nil_r. split; auto. apply subseq_nil.
Qed.

Lemma step_header line window st raceMatch :
  exec raceHeaderRegex line = Some raceMatch ->
  step h line window st
  = {| races := save st;
       currentRace :=
         Some (fold_left scan_condition window
                 (new_race h (raceNumber_of raceMatch)));
       currentHorses := [] |}.
Proof. unfold step. intros ->. reflexivity. Qed.

Lemma step_other line window st :
  exec raceHeaderRegex line = None ->
  races (step h line window st) = races st /\
  currentRace (step h line window st) = currentRace st /\
  (currentHorses (step h line window st) = currentHorses st \/
   exists horse,
     currentRace st <> None /\
     extractHorseFromLine line = Some horse /\
     currentHorses (step h line window st) = currentHorses st ++ [horse]).
Proof.
  unfold step. intros ->.
  destruct (currentRace st) eqn:Hc; auto.
  destruct (extractHorseFromLine line) as [horse|]; simpl; auto.
  repeat split; auto. right. exists horse.
  repeat split; auto. discriminate.
Qed.

(** The numbers of the races put out are header numbers of the
    lines, in the order of the lines. *)
Lemma loop_numbers lines :
  forall st,
  exists added,
    map Race.number (save (loop h lines st))
    = map Race.number (races st) ++ added /\
    subseq added (open_number st ++ header_numbers lines).
Proof.
  induction lines as [|line rest IH]; intros st.
  - simpl. rewrite app_nil_r. apply save_numbers.
  - cbn [loop]. destruct (IH (step h line (firstn 4 rest) st))
      as (added & Heq & Hsub).
    cbn [header_numbers flat_map]. unfold header_number.
    destruct (exec raceHeaderRegex line) as [raceMatch|] eqn:He.
    + rewrite (step_header _ _ _ He) in *. cbn [races] in Heq.
      destruct (save_numbers st) as (kept & Hk & Hks).
      exists (kept ++ added). split.
      * rewrite Heq, Hk, app_assoc. reflexivity.
      * apply subseq_app; auto.
        unfold open_number in Hsub. cbn [currentRace] in Hsub.
        rewrite scan_window_number in Hsub. exact Hsub.
    + destruct (step_other _ (firstn 4 rest) st He) as (Hr & Hc & _).
      exists added. split.
      * rewrite Heq, Hr. reflexivity.
      * unfold open_number in *. rewrite Hc in Hsub. exact Hsub.
Qed.

Lemma assemble_numbers lines :
  subseq (map Race.number (assemble h lines)) (header_numbers lines).
Proof.
  destruct (loop_numbers lines initial) as (added & Heq & Hsub).
  unfold assemble. rewrite Heq. exact Hsub.
Qed.

(** An invariant of the loop: what holds of every horse of a line
    holds of every horse put out. *)
Section HorseInvariant.
Variable P : Horse.t -> Prop.
Hypothesis extract_P :
  forall line horse, extractHorseFromLine line = Some horse -> P horse.

Definition horses_ok (st : state) : Prop :=
  Forall P (currentHorses st) /\
  Forall (fun r => Forall P (Race.horses r)) (races st).

Lemma save_ok st :
  horses_ok st -> Forall (fun r => Forall P (Race.horses r)) (save st).
Proof.
  intros [Hc Hr]. unfold save.
  destruct (currentRace st) as [r|]; auto.
  destruct (currentHorses st) eqn:E; auto.
  apply Forall_app. split; auto.
Qed.

Lemma step_ok line window st :
  horses_ok st -> horses_ok (step h line window st).
Proof.
  intros Hok.
  destruct (exec raceHeaderRegex line) as [raceMatch|] eqn:He.
  - rewrite (step_header _ _ _ He). split; simpl; auto.
    apply save_ok; auto.
  - destruct (step_other _ window st He) as (Hr & _ & Hh).
    destruct Hok as [Hc Hrs]. split; [|rewrite Hr; auto].
    destruct Hh as [-> | (horse & _ & Hx & ->)]; auto.
    apply Forall_app. split; auto. constructor; eauto.
Qed.

Lemma loop_ok lines :
  forall st, horses_ok st -> horses_ok (loop h lines st).
Proof.
  induction lines as [|line rest IH]; intros st Hok; simpl; auto.
  apply IH, step_ok, Hok.
Qed.

Lemma assemble_ok lines :
  Forall (fun r => Forall P (Race.horses r)) (assemble h lines).
Proof.
  apply save_ok, loop_ok. split; constructor.
Qed.
End HorseInvariant.

(** Every race put out has a horse. *)
Definition races_nonempty (st : state) : Prop :=
  Forall (fun r => Race.horses r <> []) (races st).

Lemma save_nonempty st :
  races_nonempty st -> Forall (fun r => Race.horses r <> []) (save st).
Proof.
  intros Hr. unfold save.
  destruct (currentRace st) as [r|]; auto.
  destruct (currentHorses st) eqn:E; auto.
  apply Forall_app. split; auto. constructor; auto. simpl. discriminate.
Qed.

Lemma step_nonempty line window st :
  races_nonempty st -> races_nonempty (step h line window st).
Proof.
  intros Hok. unfold races_nonempty.
  destruct (exec raceHeaderRegex line) as [raceMatch|] eqn:He.
  - rewrite (step_header _ _ _ He). simpl. apply save_nonempty; auto.
  - destruct (step_other _ window st He) as (Hr & _). rewrite Hr. auto.
Qed.

Lemma loop_nonempty lines :
  forall st, races_nonempty st -> races_nonempty (loop h lines st).
Proof.
  induction lines as [|line rest IH]; intros st Hok; simpl; auto.
  apply IH, step_nonempty, Hok.
Qed.

(** A line that is no header and no horse entry leaves the state as it
    is. *)
Lemma step_noise line window st :
  is_noise line = true -> step h line window st = st.
Proof.
  unfold is_noise, is_header, test, step. intros H.
  apply andb_true_iff in H. destruct H as [Hh Hx].
  destruct (exec raceHeaderRegex line); [discriminate|].
  destruct (currentRace st); auto.
  destruct (extractHorseFromLine line); [discriminate|reflexivity].
Qed.

Lemma loop_noise noise rest st :
  forallb is_noise noise = true ->
  loop h (noise ++ rest) st = loop h rest st.
Proof.
  induction noise as [|line noise IH]; intros H; cbn [app loop]; auto.
  simpl in H. apply andb_true_iff in H. destruct H as [Hl Hn].
  rewrite step_noise by exact Hl. apply IH, Hn.
Qed.

Lemma save_after_header line window st :
  is_header line = true ->
  save (step h line window st) = save st.
Proof.
  unfold is_header, test. intros H.
  destruct (exec raceHeaderRegex line) as [m|] eqn:E; [|discriminate].
  rewrite (step_header _ _ _ E). reflexivity.
Qed.

(** A header, then lines without a horse entry, then a header again:
    the loop goes on as if it had started at the second header. *)
Lemma loop_empty_race line1 noise line2 rest st :
  is_header line1 = true ->
  forallb is_noise noise = true ->
  is_header line2 = true ->
  loop h (line1 :: noise ++ line2 :: rest) st = loop h (line2 :: rest) st.
Proof.
  intros H1 Hn H2. cbn [loop]. rewrite loop_noise by exact Hn.
  cbn [loop]. f_equal.
  unfold is_header, test in H2.
  destruct (exec raceHeaderRegex line2) as [m2|] eqn:E2; [|discriminate].
  rewrite !(step_header _ _ _ E2). f_equal.
  apply save_after_header, H1.
Qed.

(** Lines before the first header leave the loop where it starts. *)
Lemma loop_before_first_header pre rest :
  Forall (fun line => is_header line = false) pre ->
  loop h (pre ++ rest) initial = loop h rest initial.
Proof.
  induction 1 as [|line pre Hl _ IH]; cbn [app loop]; auto.
  unfold is_header, test in Hl.
  replace (step h line (firstn 4 (pre ++ rest)) initial) with initial;
    [exact IH|].
  unfold step.
  destruct (exec raceHeaderRegex line); [discriminate|reflexivity].
Qed.

End WithClock.

Lemma lines_of_app a b :
  lines_of (a ++ LF :: b) = lines_of a ++ lines_of b.
Proof.
  unfold lines_of. rewrite split_app, map_app, filter_app. reflexivity.
Qed.

End AssemblerFacts.

(* ===================================================================== *)
(** * Properties of the extraction pipeline *)
(* ===================================================================== *)

Import JS RegExp OCR Spec Examples.

(** ** The end-to-end example *)

Lemma santa_anita_races h :
  extractRaces h santa_anita
  = [ {| Race.id := str "race-1";
         Race.number := Num 1;
         Race.track := str "Unknown";
         Race.date := today h;
         Race.horses := [midnight_run; solar_flare];
         Race.distance := Some (str "6 Furlongs");
         Race.surface := Some dirt;
         Race.purse := None |} ].
Proof. vm_compute. reflexivity. Qed.

Lemma santa_anita_date h :
  isoDate h (str "March 15, 2024") = Some (str "2024-03-15") ->
  extractDate h santa_anita = Some (str "2024-03-15").
Proof.
  intros Hd. unfold extractDate, datePatterns. cbn [extractDate_from].
  match goal with
  | |- context [exec ?p santa_anita] =>
      assert (E : option_map (fun m => group m 1) (exec p santa_anita)
                  = Some (str "March 15, 2024")) by (vm_compute; reflexivity);
      destruct (exec p santa_anita) as [m|]; [|discriminate]
  end.
  simpl in E. inversion E as [E']. rewrite E', Hd. reflexivity.
Qed.

(** C1, as the code has it. For the seven-line example the pipeline
    yields a card with track "SANTA ANITA" and, on a host that reads
    "March 15, 2024" as that day, date "2024-03-15"; the card holds
    exactly one race, number 1, whose own track is the placeholder
    "Unknown" and whose own date is the current day, with distance
    "6 Furlongs", surface dirt, and exactly the two horses 1 MIDNIGHT RUN
    (J. Smith, 5-1) and 2 SOLAR FLARE (A. Lee, 3-1); race 2 is absent. *)
Theorem end_to_end_example (h : clock) :
  isoDate h (str "March 15, 2024") = Some (str "2024-03-15") ->
  let card := parseRaceData h santa_anita in
  RaceCard.track card = str "SANTA ANITA" /\
  RaceCard.date card = str "2024-03-15" /\
  exists r,
    RaceCard.races card = [r] /\
    Race.number r = Num 1 /\
    Race.track r = str "Unknown" /\
    Race.date r = today h /\
    Race.distance r = Some (str "6 Furlongs") /\
    Race.surface r = Some dirt /\
    Race.horses r = [midnight_run; solar_flare].
Proof.
  intros Hd card. subst card. unfold parseRaceData. cbn [RaceCard.track
    RaceCard.date RaceCard.races].
  rewrite (santa_anita_date h Hd), santa_anita_races.
  split; [vm_compute; reflexivity|].
  split; [reflexivity|].
  eexists. split; [reflexivity|]. cbn. auto 10.
Qed.

Lemma end_to_end_example_witness :
  let card := parseRaceData utc_clock santa_anita in
  RaceCard.track card = str "SANTA ANITA" /\
  RaceCard.date card = str "2024-03-15" /\
  exists r,
    RaceCard.races card = [r] /\
    Race.number r = Num 1 /\
    Race.track r = str "Unknown" /\
    Race.date r = today utc_clock /\
    Race.distance r = Some (str "6 Furlongs") /\
    Race.surface r = Some dirt /\
    Race.horses r = [midnight_run; solar_flare].
Proof. apply (end_to_end_example utc_clock). reflexivity. Defined.

(** C1 as the specification words it does not hold: the race of the
    example carries no purse (and its own track is "Unknown"). *)
Lemma end_to_end_example_as_specified_fails :
  ~ (exists r,
       extractRaces utc_clock santa_anita = [r] /\
       Race.number r = Num 1 /\
       Race.track r = str "SANTA ANITA" /\
       Race.date r = str "2024-03-15" /\
       Race.distance r = Some (str "6 Furlongs") /\
       Race.surface r = Some dirt /\
       Race.purse r = Some (Num 40000) /\
       Race.horses r = [midnight_run; solar_flare]).
Proof.
  intros (r & Hr & _ & _ & _ & _ & _ & Hp & _).
  rewrite santa_anita_races in Hr. inversion Hr; subst r.
  simpl in Hp. discriminate.
Qed.

(** ** The purse extractor *)



(** ** The race assembler *)

(** C3, as the code has it. The races are put out in their order of
    appearance with the numbers their headers carry, never renumbered:
    the numbers of the output are the numbers the header lines of the
    document carry, in document order, some left out. They are unique
    whenever the numbers carried by the headers of the document are, and
    strictly increasing whenever those are. The number a header carries
    is the value of its digits, as a double: the value itself up to
    2^53. *)
Theorem race_order_preserved (h : clock) (text : jsstring) :
  let numbers := map Race.number (extractRaces h text) in
  subseq numbers (Notions.carried_numbers (lines_of text)) /\
  (NoDup (Notions.carried_numbers (lines_of text)) -> NoDup numbers) /\
  (StronglySorted num_lt (Notions.carried_numbers (lines_of text)) ->
   StronglySorted num_lt numbers /\ NoDup numbers) /\
  (forall line ds,
     Notions.header_digits line = Some ds -> (decimal_value ds <= 2 ^ 53)%Z ->
     Notions.carried_number line = Some (Num (decimal_value ds))).
Proof.
  intros numbers.
  assert (Hsub : subseq numbers (Notions.carried_numbers (lines_of text))).
  { rewrite <- MarkerFacts.header_numbers_carried.
    apply AssemblerFacts.assemble_numbers. }
  split; [exact Hsub|]. split; [|split].
  - intros Hd. eapply AssemblerFacts.subseq_NoDup; eauto.
  - intros Hs.
    assert (Hn : StronglySorted num_lt numbers)
      by (eapply AssemblerFacts.subseq_sorted; eauto).
    split; [exact Hn|]. apply AssemblerFacts.sorted_NoDup, Hn.
  - intros line ds Hd Hle. unfold Notions.carried_number. rewrite Hd. simpl.
    destruct (MarkerFacts.header_digits_digits _ Hd) as (d & ds' & -> & Hall).
    rewrite NumberFacts.to_double_exact; [reflexivity|].
    pose proof (JSFacts.decimal_value_bound Hall). lia.
Qed.

Lemma race_order_preserved_witness :
  let numbers := map Race.number (extractRaces utc_clock races_1_2_3) in
  StronglySorted num_lt numbers /\ NoDup numbers.
Proof.
  apply (race_order_preserved utc_clock races_1_2_3).
  vm_compute. repeat constructor.
Defined.

(** C3 as the specification words it does not hold: headers out of
    order come out out of order, and a number that comes twice comes out
    twice. *)
Lemma race_numbers_not_always_increasing :
  map Race.number (extractRaces utc_clock races_2_then_1) = [Num 2; Num 1] /\
  ~ StronglySorted num_lt (map Race.number (extractRaces utc_clock races_2_then_1)) /\
  map Race.number (extractRaces utc_clock race_1_twice) = [Num 1; Num 1] /\
  ~ NoDup (map Race.number (extractRaces utc_clock race_1_twice)).
Proof.
  assert (E1 : map Race.number (extractRaces utc_clock races_2_then_1)
               = [Num 2; Num 1]) by (vm_compute; reflexivity).
  assert (E2 : map Race.number (extractRaces utc_clock race_1_twice)
               = [Num 1; Num 1]) by (vm_compute; reflexivity).
  rewrite E1, E2. repeat split.
  - intros H. inversion H as [|a l _ Hall]; subst.
    inversion Hall as [|b l' Hlt _]; subst. simpl in Hlt. lia.
  - intros H. inversion H as [|a l Hin _]; subst. apply Hin. left. reflexivity.
Qed.

(** C4. Every race of the output has at least one horse. In particular
    a header followed by another header, with no horse entry between
    them, adds no race (from any state the loop goes on as if the first
    header and the lines after it were not there), and a race that is
    open with no horse when the input ends is dropped. *)
Theorem every_race_has_a_horse (h : clock) (text : jsstring) :
  Forall (fun r => Race.horses r <> []) (extractRaces h text) /\
  (forall st line1 noise line2 rest,
     is_header line1 = true ->
     forallb is_noise noise = true ->
     is_header line2 = true ->
     loop h (line1 :: noise ++ line2 :: rest) st
     = loop h (line2 :: rest) st) /\
  (forall st line noise,
     is_header line = true ->
     forallb is_noise noise = true ->
     save (loop h (line :: noise) st) = save st).
Proof.
  split; [|split].
  - unfold extractRaces, assemble.
    apply AssemblerFacts.save_nonempty, AssemblerFacts.loop_nonempty.
    constructor.
  - intros st line1 noise line2 rest H1 Hn H2.
    apply AssemblerFacts.loop_empty_race; assumption.
  - intros st line noise H1 Hn. cbn [loop].
    rewrite <- (app_nil_r noise), AssemblerFacts.loop_noise by exact Hn.
    cbn [loop]. apply AssemblerFacts.save_after_header, H1.
Qed.

Lemma every_race_has_a_horse_witness :
  loop utc_clock
    (str "RACE 2" :: [str "Allowance"] ++ str "RACE 3" :: [str "4. BRAVO"])
    initial
  = loop utc_clock (str "RACE 3" :: [str "4. BRAVO"]) initial /\
  save (loop utc_clock (str "RACE 4" :: [str "no entries"]) initial)
  = save initial.
Proof.
  destruct (every_race_has_a_horse utc_clock []) as (_ & Hmid & Hend).
  split.
  - apply Hmid; vm_compute; reflexivity.
  - apply Hend; vm_compute; reflexivity.
Defined.

(** C5. Lines before the first race-boundary marker are dropped,
    horse-entry-shaped ones included: the output is that of the text
    from the first marker on. *)
Theorem orphan_horses_dropped (h : clock) (before rest : jsstring) :
  forallb (fun line => negb (is_header line)) (lines_of before) = true ->
  extractRaces h (before ++ LF :: rest) = extractRaces h rest.
Proof.
  intros Hb. unfold extractRaces, assemble.
  rewrite AssemblerFacts.lines_of_app.
  rewrite AssemblerFacts.loop_before_first_header; [reflexivity|].
  rewrite forallb_forall in Hb. apply Forall_forall. intros line Hin.
  apply negb_true_iff. apply Hb. exact Hin.
Qed.

Lemma orphan_horses_dropped_witness :
  extractRaces utc_clock
    (text_of ["7. GHOST RIDER (B. Doe) 9-2"; "8. ORPHAN"]%string
     ++ LF :: text_of ["RACE 1"; "1. ALPHA"]%string)
  = extractRaces utc_clock (text_of ["RACE 1"; "1. ALPHA"]%string).
Proof. apply (orphan_horses_dropped utc_clock). vm_compute. reflexivity. Defined.

(** ** The horse-entry extractor *)

(** C8. A line the horse-entry extractor matches that has no
    parenthesized jockey group and no odds token gives a horse with
    jockey "Unknown", trainer "Unknown", weight 120 and no odds. *)
Theorem horse_field_defaults (line : jsstring) (horse : Horse.t) :
  extractHorseFromLine line = Some horse ->
  has_jockey_group line = false ->
  has_odds_token line = false ->
  Horse.jockey horse = str "Unknown" /\
  Horse.trainer horse = str "Unknown" /\
  Horse.weight horse = Num 120 /\
  Horse.odds horse = None.
Proof.
  intros He Hj Ho. apply HorseFacts.extractHorseFromLine_inv in He.
  destruct He as (m & Hm & _ & Hjockey & Htrainer & Hweight & Hodds).
  apply HorseFacts.horsePattern_groups in Hm.
  destruct Hm as (_ & _ & [H3 | H3] & [H4 | H4]); try congruence.
  rewrite Hjockey, Htrainer, Hweight, Hodds, H3, H4. auto.
Qed.

Lemma horse_field_defaults_witness :
  exists horse,
    extractHorseFromLine (str "3. LUCKY STAR") = Some horse /\
    Horse.name horse = str "LUCKY STAR" /\
    Horse.jockey horse = str "Unknown" /\
    Horse.trainer horse = str "Unknown" /\
    Horse.weight horse = Num 120 /\
    Horse.odds horse = None.
Proof.
  eexists. split; [vm_compute; reflexivity|].
  split; [reflexivity|].
  eapply (@horse_field_defaults (str "3. LUCKY STAR"));
    vm_compute; reflexivity.
Defined.

(** C9, as the code has it. Every horse of the output has a number that
    is an integer between 0 and 99: the one or two digits the line
    starts with. *)
Theorem horse_number_has_two_digits (h : clock) (text : jsstring) :
  Forall (fun r =>
            Forall (fun x => int_between 0 99 (Horse.number x)) (Race.horses r))
    (extractRaces h text).
Proof.
  unfold extractRaces. apply AssemblerFacts.assemble_ok.
  intros line horse. apply HorseFacts.extractHorseFromLine_number.
Qed.

(** C9 as the specification words it does not hold: a line "99. ZULU"
    gives horse 99, a line "0. ZERO" horse 0. *)
Lemma horse_number_outside_1_to_20 :
  ~ Forall (fun r =>
              Forall (fun x => int_between 1 20 (Horse.number x))
                (Race.horses r))
      (extractRaces utc_clock horse_99) /\
  ~ Forall (fun r =>
              Forall (fun x => int_between 1 20 (Horse.number x))
                (Race.horses r))
      (extractRaces utc_clock horse_0).
Proof.
  assert (E1 : map (fun r => map Horse.number (Race.horses r))
                 (extractRaces utc_clock horse_99) = [[Num 99]])
    by (vm_compute; reflexivity).
  assert (E2 : map (fun r => map Horse.number (Race.horses r))
                 (extractRaces utc_clock horse_0) = [[Num 0]])
    by (vm_compute; reflexivity).
  split; intros H.
  - destruct (extractRaces utc_clock horse_99) as [|r [|? ?]];
      try discriminate.
    inversion H as [|? ? Hr _]; subst. simpl in E1.
    destruct (Race.horses r) as [|x [|? ?]]; try discriminate.
    inversion Hr as [|? ? Hx _]; subst. simpl in E1.
    inversion E1 as [E]. rewrite E in Hx. simpl in Hx. lia.
  - destruct (extractRaces utc_clock horse_0) as [|r [|? ?]];
      try discriminate.
    inversion H as [|? ? Hr _]; subst. simpl in E2.
    destruct (Race.horses r) as [|x [|? ?]]; try discriminate.
    inversion Hr as [|? ? Hx _]; subst. simpl in E2.
    inversion E2 as [E]. rewrite E in Hx. simpl in Hx. lia.
Qed.

(** ** The race-boundary test *)

Module HeaderFacts.
Import RegExpFacts.

Lemma matches_plus_one icase neg cs pos c ch rest :
  cls_match icase neg cs ch = true ->
  matches icase (plus (Cls neg cs)) pos c [ch] rest c.
Proof.
  intros H. unfold plus. change [ch] with ([ch] ++ []).
  eapply M_Seq; [apply M_Cls; exact H | apply M_Star0].
Qed.

Lemma matches_RACE pos c rest :
  matches true (lit "RACE") pos c (str "RACE") rest c.
Proof.
  change (str "RACE") with ([82] ++ [65] ++ [67] ++ [69])%N.
  change (lit "RACE")
    with (Seq (chr "R") (Seq (chr "A") (Seq (chr "C") (chr "E")))).
  repeat (eapply M_Seq; [apply M_Cls; reflexivity|]).
  apply M_Cls; reflexivity.
Qed.

(** A line with "RACE 2" anywhere inside is taken for a header. *)
Lemma contains_RACE_2 before after :
  is_header (before ++ str "RACE 2" ++ after) = true.
Proof.
  unfold is_header.
  eapply test_complete with (c := no_caps).
  cbn [body ignoreCase raceHeaderRegex]. apply M_AltL. cbn [seq].
  change (str "RACE 2") with (str "RACE" ++ [32] ++ [50])%N.
  eapply M_Seq; [apply matches_RACE|].
  eapply M_Seq; [apply matches_plus_one; reflexivity|].
  apply M_Group. apply matches_plus_one; reflexivity.
Qed.

(** So is a line with "7 RACE" anywhere inside: no ordinal suffix is
    needed. *)
Lemma contains_7_RACE before after :
  is_header (before ++ str "7 RACE" ++ after) = true.
Proof.
  unfold is_header.
  eapply test_complete with (c := no_caps).
  cbn [body ignoreCase raceHeaderRegex]. apply M_AltR. cbn [seq].
  change (str "7 RACE") with ([55] ++ [] ++ [32] ++ str "RACE")%N.
  eapply M_Seq; [apply M_Group; apply matches_plus_one; reflexivity|].
  eapply M_Seq; [apply M_AltR; apply M_Eps|].
  eapply M_Seq; [apply matches_plus_one; reflexivity|].
  apply matches_RACE.
Qed.

(** A line that carries digits as a header opens a race with their
    number, from any state. *)
Lemma step_opens h line ds window st :
  Notions.header_digits line = Some ds ->
  exists r,
    step h line window st
    = {| races := save st; currentRace := Some r; currentHorses := [] |} /\
    Race.number r = to_double (decimal_value ds).
Proof.
  intros Hd. pose proof (MarkerFacts.exec_header line) as He.
  rewrite Hd in He.
  destruct (exec raceHeaderRegex line) as [m|] eqn:Hm; [|discriminate].
  destruct (MarkerFacts.exec_header_carried _ Hm) as (d & ds' & Hd' & _ & Hn).
  rewrite Hd in Hd'. inversion Hd'; subst ds.
  eexists. split; [apply (AssemblerFacts.step_header h _ _ _ Hm)|].
  rewrite AssemblerFacts.scan_window_number. exact Hn.
Qed.

End HeaderFacts.

(** C10. The race-boundary test matches anywhere inside a line: the
    line "TERRACE 2" opens race 2 (number 2, id "race-2"), as every line
    that contains "RACE 2" is taken for a header; and the ordinal suffix
    is optional: the line "7 RACE" opens race 7 (number 7, id "race-7"),
    as every line that contains "7 RACE" is taken for a header. In
    general a line opens the race whose number is the value of the
    digits found with the first "RACE" form inside it. *)
Theorem race_header_matches_inside_a_line (h : clock) :
  header_number (str "TERRACE 2") = Some (Num 2) /\
  step h (str "TERRACE 2") [] initial
  = {| races := [];
       currentRace :=
         Some {| Race.id := str "race-2";
                 Race.number := Num 2;
                 Race.track := str "Unknown";
                 Race.date := today h;
                 Race.horses := [];
                 Race.distance := None;
                 Race.surface := None;
                 Race.purse := None |};
       currentHorses := [] |} /\
  map Race.number (extractRaces h (text_of ["TERRACE 2"; "1. ALPHA"]%string))
  = [Num 2] /\
  header_number (str "7 RACE") = Some (Num 7) /\
  step h (str "7 RACE") [] initial
  = {| races := [];
       currentRace :=
         Some {| Race.id := str "race-7";
                 Race.number := Num 7;
                 Race.track := str "Unknown";
                 Race.date := today h;
                 Race.horses := [];
                 Race.distance := None;
                 Race.surface := None;
                 Race.purse := None |};
       currentHorses := [] |} /\
  map Race.number (extractRaces h (text_of ["7 RACE"; "1. ALPHA"]%string))
  = [Num 7] /\
  (forall before after, is_header (before ++ str "RACE 2" ++ after) = true) /\
  (forall before after, is_header (before ++ str "7 RACE" ++ after) = true) /\
  Notions.header_digits (str "TERRACE 2") = Some (str "2") /\
  Notions.header_digits (str "7 RACE") = Some (str "7") /\
  (forall line ds window st,
     Notions.header_digits line = Some ds ->
     exists r,
       step h line window st
       = {| races := save st; currentRace := Some r; currentHorses := [] |} /\
       Race.number r = to_double (decimal_value ds)).
Proof.
  do 6 (split; [vm_compute; reflexivity|]).
  split; [apply HeaderFacts.contains_RACE_2|].
  split; [apply HeaderFacts.contains_7_RACE|].
  do 2 (split; [vm_compute; reflexivity|]).
  intros line ds window st. apply HeaderFacts.step_opens.
Qed.

(** ** The orchestrator *)

Module OrchestratorFacts.

(** [processPDF] once the text layer is read. *)
Lemma processPDF_reads h w filePath buf text t :
  readFile w filePath = inr buf ->
  pdfParse w buf = inr text ->
  exists t',
    processPDF h w filePath t
    = (inr {| OCRResult.success := true;
              OCRResult.text := text;
              OCRResult.confidence :=
                if (100 <? length text)%nat then 9 # 10 else 5 # 10;
              OCRResult.extractedData := Some (parseRaceData h text);
              OCRResult.errors := None |}, t').
Proof.
  intros Hr Hp.
  unfold processPDF, try_catch, bind, log, call, ret. rewrite Hr, Hp.
  assert (Ht : truthy text && (100 <? length text)%nat
               = (100 <? length text)%nat)
    by (destruct text; reflexivity).
  rewrite Ht. destruct (100 <? length text)%nat; simpl; eauto.
Qed.

Lemma dispatch_pdf h w filePath fileName :
  fileExtension_of fileName = str "pdf" ->
  dispatch h w filePath fileName = processPDF h w filePath.
Proof. unfold dispatch. intros ->. reflexivity. Qed.

Lemma processFile_returns h w filePath fileName t res t' :
  dispatch h w filePath fileName t = (inr res, t') ->
  processFile h w filePath fileName t = (inr res, t').
Proof. unfold processFile, try_catch. intros ->. reflexivity. Qed.

Lemma processFile_catches h w filePath fileName t e t' :
  dispatch h w filePath fileName t = (inl e, t') ->
  processFile h w filePath fileName t
  = (inr (failure e), t' ++ [LogError (str "OCR processing error:")]).
Proof. unfold processFile, try_catch. intros ->. reflexivity. Qed.

End OrchestratorFacts.

(** C6. For a PDF whose text layer is read, the result has success true,
    the text, and the card the race assembler makes of the text; its
    confidence is 0.9 when the text is longer than 100 characters and 0.5
    when it has at most 100. *)
Theorem pdf_confidence_tiers (h : clock) (w : services)
  (filePath fileName : jsstring) (buf : list N) (text : jsstring)
  (t : list event) :
  fileExtension_of fileName = str "pdf" ->
  readFile w filePath = inr buf ->
  pdfParse w buf = inr text ->
  exists res t',
    processFile h w filePath fileName t = (inr res, t') /\
    processPDF h w filePath t = (inr res, t') /\
    OCRResult.success res = true /\
    OCRResult.text res = text /\
    OCRResult.extractedData res = Some (parseRaceData h text) /\
    ((100 < length text)%nat -> OCRResult.confidence res = (9 # 10)%Q) /\
    ((length text <= 100)%nat -> OCRResult.confidence res = (5 # 10)%Q).
Proof.
  intros Hext Hr Hp.
  destruct (OrchestratorFacts.processPDF_reads h w filePath t Hr Hp)
    as (t' & Hpdf).
  eexists. exists t'. split; [|split; [exact Hpdf|]].
  - apply OrchestratorFacts.processFile_returns.
    rewrite (OrchestratorFacts.dispatch_pdf h w filePath _ Hext). exact Hpdf.
  - cbn [OCRResult.success OCRResult.text OCRResult.extractedData
           OCRResult.confidence].
    repeat split; auto; intros Hlen.
    + apply Nat.ltb_lt in Hlen. rewrite Hlen. reflexivity.
    + apply Nat.ltb_ge in Hlen. rewrite Hlen. reflexivity.
Qed.

Lemma pdf_confidence_tiers_witness :
  (exists res t',
     processFile utc_clock (pdf_services text_150) (str "/tmp/upload-1")
       (str "Card.PDF") [] = (inr res, t') /\
     OCRResult.success res = true /\
     OCRResult.confidence res = (9 # 10)%Q) /\
  (exists res t',
     processFile utc_clock (pdf_services text_50) (str "/tmp/upload-2")
       (str "card.pdf") [] = (inr res, t') /\
     OCRResult.success res = true /\
     OCRResult.confidence res = (5 # 10)%Q).
Proof.
  split.
  - destruct (@pdf_confidence_tiers utc_clock (pdf_services text_150)
                (str "/tmp/upload-1") (str "Card.PDF") [37; 80; 68; 70]%N
                text_150 [] eq_refl eq_refl eq_refl)
      as (res & t' & Hf & _ & Hs & _ & _ & Hhi & _).
    exists res, t'. repeat split; auto. apply Hhi. vm_compute. lia.
  - destruct (@pdf_confidence_tiers utc_clock (pdf_services text_50)
                (str "/tmp/upload-2") (str "card.pdf") [37; 80; 68; 70]%N
                text_50 [] eq_refl eq_refl eq_refl)
      as (res & t' & Hf & _ & Hs & _ & _ & _ & Hlo).
    exists res, t'. repeat split; auto. apply Hlo. vm_compute. lia.
Defined.

(** C7. [processFile] never throws: it always returns a result. Whatever
    the dispatch throws, on either extraction path, is caught and turned
    into the result with success false, empty text, confidence 0 and, as
    the only error, the message of the error thrown ("Unknown error"
    for what is no Error). A file whose extension is none of pdf, jpg,
    jpeg, png fails this way with the error "Unsupported file type: "
    followed by the extension, and no call to a text-extraction
    collaborator is made. *)
Theorem processFile_never_throws (h : clock) (w : services)
  (filePath fileName : jsstring) (t : list event) :
  exists res t',
    processFile h w filePath fileName t = (inr res, t') /\
    (forall e t1,
       dispatch h w filePath fileName t = (inl e, t1) ->
       res = {| OCRResult.success := false;
                OCRResult.text := [];
                OCRResult.confidence := 0;
                OCRResult.extractedData := None;
                OCRResult.errors :=
                  Some [match e with
                        | Error message => message
                        | Thrown => str "Unknown error"
                        end] |}) /\
    (existsb (JS.eqb (fileExtension_of fileName)) (pdf_kinds ++ image_kinds)
     = false ->
     res = {| OCRResult.success := false;
              OCRResult.text := [];
              OCRResult.confidence := 0;
              OCRResult.extractedData := None;
              OCRResult.errors :=
                Some [str "Unsupported file type: "
                      ++ fileExtension_of fileName] |} /\
     t' = t ++ [LogError (str "OCR processing error:")] /\
     filter is_extraction t' = filter is_extraction t).
Proof.
  destruct (dispatch h w filePath fileName t) as [[e | res] t1] eqn:Hd.
  - exists (failure e), (t1 ++ [LogError (str "OCR processing error:")]).
    split; [apply OrchestratorFacts.processFile_catches; exact Hd|].
    split.
    + intros e' t2 H. inversion H; subst. reflexivity.
    + intros Hk. rewrite existsb_app in Hk. apply orb_false_iff in Hk.
      destruct Hk as [Hpdf Himg].
      unfold dispatch in Hd. rewrite Hpdf, Himg in Hd.
      unfold throw in Hd. inversion Hd; subst.
      repeat split; auto.
      rewrite filter_app. simpl. apply app_nil_r.
  - exists res, t1.
    split; [apply OrchestratorFacts.processFile_returns; exact Hd|].
    split.
    + intros e t2 H. discriminate.
    + intros Hk. rewrite existsb_app in Hk. apply orb_false_iff in Hk.
      destruct Hk as [Hpdf Himg].
      unfold dispatch in Hd. rewrite Hpdf, Himg in Hd.
      unfold throw in Hd. discriminate.
Qed.

Lemma processFile_never_throws_witness :
  exists t',
    processFile utc_clock (pdf_services text_150) (str "/tmp/upload-3")
      (str "notes.docx") []
    = (inr {| OCRResult.success := false;
              OCRResult.text := [];
              OCRResult.confidence := 0;
              OCRResult.extractedData := None;
              OCRResult.errors :=
                Some [str "Unsupported file type: docx"] |}, t') /\
    filter is_extraction t' = [].
Proof.
  destruct (processFile_never_throws utc_clock (pdf_services text_150)
              (str "/tmp/upload-3") (str "notes.docx") [])
    as (res & t' & Hf & _ & Hu).
  destruct (Hu eq_refl) as (Hres & _ & Hfilter).
  exists t'. rewrite Hf, Hres. split; [reflexivity | exact Hfilter].
Defined.

(* ===================================================================== *)
(** * Further properties of the service *)
(* ===================================================================== *)

(** ** Keyword patterns: surface and track *)


(** X1. The surface of a text is decided by keywords found anywhere in
    it, whatever their case: "turf" or "grass" gives turf, before
    "synthetic" or "poly" gives synthetic, before "dirt" or "main" gives
    dirt; there is a surface exactly when one of the six occurs. *)
Theorem surface_by_keyword (text : jsstring) :
  extractSurface text
  = if Notions.contains_ci "turf" text || Notions.contains_ci "grass" text
    then Some turf
    else if Notions.contains_ci "synthetic" text
            || Notions.contains_ci "poly" text
    then Some synthetic
    else if Notions.contains_ci "dirt" text || Notions.contains_ci "main" text
    then Some dirt
    else None.
Proof.
  unfold extractSurface, turfPattern, syntheticPattern, dirtPattern.
  rewrite !KeywordFacts.test_alt_lit. reflexivity.
Qed.

(** X2. The track of a text is the first name of the fixed list (in the
    order of the list, not of the text) that occurs in the text whatever
    its case, given in upper case; there is none exactly when no name of
    the list occurs. *)
Theorem track_is_first_known_name (text : jsstring) :
  extractTrack text
  = option_map str
      (find (fun n => Notions.contains_ci n text) Notions.track_names).
Proof.
  unfold extractTrack.
  change trackPatterns
    with (map (fun s => Pattern (lit s) true) Notions.track_names).
  apply KeywordFacts.first_match_names.
  repeat constructor.
Qed.

(** ** Lines and texts without a digit *)

Module DigitFacts.
Import Notions JSFacts RegExpFacts.
Local Open Scope N_scope.

Lemma has_digit_app a b : has_digit (a ++ b) = has_digit a || has_digit b.
Proof. apply existsb_app. Qed.

(** A pattern that needs a digit matches only words with a digit. *)
Lemma matches_needs_digit icase r pos c w rest c' :
  matches icase r pos c w rest c' ->
  needs_digit r = true -> has_digit w = true.
Proof.
  induction 1 as
    [pos c rest
    |neg cs pos c ch rest Hc
    |r1 r2 pos c w1 w2 rest c1 c2 _ IH1 _ IH2
    |r1 r2 pos c w rest c1 _ IH1
    |r1 r2 pos c w rest c1 _ IH2
    |g r pos c rest
    |g r pos c w1 w2 rest c1 c2 Hne _ IH1 _ IH2
    |n r pos c w rest c1 _ IH1
    |c rest
    |pos c]; simpl; intros Hn; try discriminate.
  - destruct neg; [discriminate|]. destruct cs; try discriminate.
    unfold cls_match in Hc. simpl in Hc.
    apply orb_true_iff in Hc. destruct Hc as [Hc | Hc].
    + unfold has_digit. simpl. rewrite Hc. reflexivity.
    + destruct icase; [|discriminate]. simpl in Hc.
      apply digit_swap_case in Hc. unfold has_digit. simpl. rewrite Hc.
      reflexivity.
  - rewrite has_digit_app. apply orb_true_iff in Hn.
    apply orb_true_iff. destruct Hn; auto.
  - apply andb_true_iff in Hn. destruct Hn; auto.
  - apply andb_true_iff in Hn. destruct Hn; auto.
  - auto.
Qed.

Lemma exec_needs_digit p s :
  needs_digit (body p) = true -> has_digit s = false -> exec p s = None.
Proof.
  intros Hn Hs. destruct (exec p s) as [m|] eqn:E; [|reflexivity].
  apply exec_sound in E. destruct E as (pre & rest & Hline & _ & Hm).
  apply matches_needs_digit in Hm; [|exact Hn].
  assert (Ht : has_digit s = true).
  { rewrite Hline, !has_digit_app, Hm. apply orb_true_r. }
  congruence.
Qed.

Lemma take_while_commas s :
  has_digit s = false ->
  Forall (fun c => (c =? 44) = true) (take_while is_amount_char s).
Proof.
  induction s as [|c s IH]; simpl; intros H; [constructor|].
  apply orb_false_iff in H. destruct H as [Hc Hs].
  unfold is_amount_char. rewrite Hc. simpl.
  destruct (c =? 44) eqn:E; constructor; auto.
Qed.

Lemma purse_needs_digit s : has_digit s = false -> spec_purse_amount s = None.
Proof.
  unfold spec_purse_amount. intros H.
  assert (Hg : forall g, first_amount_group s = Some g ->
                         remove_all 44 g = []).
  { induction s as [|c s IH]; simpl; [discriminate|].
    intros g. simpl in H. apply orb_false_iff in H. destruct H as [Hc Hs].
    destruct (is_amount_char c) eqn:Ha; [|apply IH; exact Hs].
    intros E. inversion E; subst; clear E.
    assert (Hall : Forall (fun x => (x =? 44) = true)
                     (take_while is_amount_char (c :: s))).
    { apply take_while_commas. simpl. rewrite Hc, Hs. reflexivity. }
    simpl in Hall. rewrite Ha in Hall.
    clear - Hall. induction Hall as [|x l Hx _ IHl]; simpl; auto.
    rewrite Hx. simpl. exact IHl. }
  destruct (first_amount_group s) as [g|]; [|reflexivity].
  rewrite (Hg g eq_refl). reflexivity.
Qed.

Lemma trimStart_Forall (P : char -> Prop) s :
  Forall P s -> Forall P (trimStart s).
Proof.
  induction 1 as [|c s Hc Hs IH]; simpl; auto.
  destruct (is_space c); auto.
Qed.

Lemma trim_Forall (P : char -> Prop) s : Forall P s -> Forall P (trim s).
Proof.
  intros H. unfold trim, trimEnd.
  apply Forall_rev, trimStart_Forall, Forall_rev, trimStart_Forall, H.
Qed.

Lemma split_Forall (P : char -> Prop) sep s :
  Forall P s -> Forall (Forall P) (split sep s).
Proof.
  induction 1 as [|c s Hc Hs IH]; simpl; [repeat constructor|].
  destruct (c =? sep); [constructor; auto|].
  destruct (split sep s) as [|l ls]; [repeat constructor; auto|].
  inversion IH; subst. constructor; auto.
Qed.

Lemma has_digit_Forall s :
  has_digit s = false <-> Forall (fun c => is_digit c = false) s.
Proof.
  unfold has_digit. induction s as [|c s IH]; simpl.
  - split; auto.
  - rewrite orb_false_iff, IH. split.
    + intros [H1 H2]. constructor; auto.
    + intros H. inversion H; auto.
Qed.

(** The lines of a text without a digit have none. *)
Lemma lines_without_digit text :
  has_digit text = false ->
  Forall (fun line => has_digit line = false) (lines_of text).
Proof.
  rewrite has_digit_Forall. intros H. unfold lines_of.
  apply Forall_forall. intros line Hin.
  apply filter_In in Hin. destruct Hin as [Hin _].
  apply in_map_iff in Hin. destruct Hin as (raw & <- & Hraw).
  apply has_digit_Forall, trim_Forall.
  pose proof (split_Forall LF H) as Hs.
  rewrite Forall_forall in Hs. apply Hs, Hraw.
Qed.

Lemma header_needs_digit line :
  has_digit line = false -> is_header line = false.
Proof.
  intros H. unfold is_header, test.
  rewrite exec_needs_digit; auto.
Qed.

End DigitFacts.

(** X3. A line without a decimal digit is no race header and no horse
    entry, and gives neither a distance nor a purse: the only thing it
    can give a race is a surface. *)
Theorem line_without_digit_is_inert (line : jsstring) :
  Notions.has_digit line = false ->
  is_header line = false /\
  extractHorseFromLine line = None /\
  extractDistance line = None /\
  extractPurse line = None.
Proof.
  intros H. split; [apply DigitFacts.header_needs_digit; exact H|].
  split; [|split].
  - unfold extractHorseFromLine.
    rewrite DigitFacts.exec_needs_digit; auto.
  - unfold extractDistance.
    rewrite DigitFacts.exec_needs_digit; auto.
  - rewrite PurseFacts.extractPurse_spec, DigitFacts.purse_needs_digit; auto.
Qed.

Lemma line_without_digit_is_inert_witness :
  is_header (str "Post time: noon, turf course") = false /\
  extractHorseFromLine (str "Post time: noon, turf course") = None /\
  extractDistance (str "Post time: noon, turf course") = None /\
  extractPurse (str "Post time: noon, turf course") = None.
Proof.
  apply (line_without_digit_is_inert (str "Post time: noon, turf course")).
  vm_compute. reflexivity.
Defined.

(** X4. A text without a decimal digit gives a card with no race and
    the current day for date, whatever the host makes of dates; its
    track is the one found by name, or "Unknown Track". *)
Theorem text_without_digit_gives_empty_card (h : clock) (text : jsstring) :
  Notions.has_digit text = false ->
  parseRaceData h text
  = {| RaceCard.track := or_else (extractTrack text) (str "Unknown Track");
       RaceCard.date := today h;
       RaceCard.races := [] |}.
Proof.
  intros H. unfold parseRaceData. f_equal.
  - assert (E : extractDate h text = None).
    { unfold extractDate, datePatterns. cbn [extractDate_from].
      rewrite !DigitFacts.exec_needs_digit; auto. }
    rewrite E. reflexivity.
  - unfold extractRaces, assemble.
    rewrite <- (app_nil_r (lines_of text)).
    rewrite AssemblerFacts.loop_before_first_header; [reflexivity|].
    eapply Forall_impl; [|apply DigitFacts.lines_without_digit; exact H].
    intros line. apply DigitFacts.header_needs_digit.
Qed.

Lemma text_without_digit_gives_empty_card_witness :
  parseRaceData utc_clock (text_of ["Belmont Park"; "entries to follow"]%string)
  = {| RaceCard.track := str "BELMONT";
       RaceCard.date := str "2026-11-02";
       RaceCard.races := [] |}.
Proof.
  rewrite (text_without_digit_gives_empty_card utc_clock);
    vm_compute; reflexivity.
Defined.

(** ** Race headers and the races they open *)

Module RaceFacts.
Import Notions JSFacts RegExpFacts.
Local Open Scope N_scope.

(** [\d+] matches a non-empty run of digits. *)
Lemma matches_digits pos c w rest c' :
  matches true (plus digit) pos c w rest c' ->
  exists d ds,
    w = d :: ds /\ Forall (fun ch => is_digit ch = true) (d :: ds) /\ c' = c.
Proof.
  unfold plus. intros H. apply matches_seq_inv in H.
  destruct H as (w1 & w2 & c1 & -> & H1 & H2).
  apply matches_cls_inv in H1. destruct H1 as (d & -> & Hd & ->).
  apply matches_star_cls in H2. destruct H2 as [Hall ->].
  exists d, w2. repeat split; auto. constructor.
  - apply HorseFacts.digit_cls_match, Hd.
  - eapply Forall_impl; [|exact Hall].
    intros a. apply HorseFacts.digit_cls_match.
Qed.

(** What is fixed in a race from the header on: the number carried by
    a header line of the document, the id made of it, the placeholder
    track and the day. *)
Definition race_ok (h : clock) (all : list jsstring) (r : Race.t) : Prop :=
  exists line ds,
    In line all /\
    header_digits line = Some ds /\
    Forall (fun c => is_digit c = true) ds /\
    Race.number r = to_double (decimal_value ds) /\
    Race.id r = str "race-" ++ number_to_string (Race.number r) /\
    Race.track r = str "Unknown" /\
    Race.date r = today h.

Lemma scan_condition_ok h all r line :
  race_ok h all r -> race_ok h all (scan_condition r line).
Proof.
  unfold scan_condition.
  destruct (extractDistance line) as [[|? ?]|];
    destruct (extractSurface line); destruct (extractPurse line);
    intros H; exact H.
Qed.

Lemma scan_window_ok h all window :
  forall r, race_ok h all r -> race_ok h all (fold_left scan_condition window r).
Proof.
  induction window as [|l w IH]; intros r H; simpl; auto.
  apply IH, scan_condition_ok, H.
Qed.

Definition state_ok (h : clock) (all : list jsstring) (st : state) : Prop :=
  Forall (race_ok h all) (races st) /\
  (forall r, currentRace st = Some r -> race_ok h all r).

Lemma save_race_ok h all st :
  state_ok h all st -> Forall (race_ok h all) (save st).
Proof.
  intros [Hr Hc]. unfold save.
  destruct (currentRace st) as [r|]; auto.
  destruct (currentHorses st); auto.
  apply Forall_app. split; auto. constructor; auto.
  exact (Hc r eq_refl).
Qed.

Lemma step_race_ok h all line window st :
  In line all -> state_ok h all st -> state_ok h all (step h line window st).
Proof.
  intros Hin Hok.
  destruct (exec raceHeaderRegex line) as [m|] eqn:He.
  - rewrite (AssemblerFacts.step_header h _ _ _ He). split; simpl.
    + apply save_race_ok, Hok.
    + intros r E. inversion E; subst; clear E.
      apply scan_window_ok.
      destruct (MarkerFacts.exec_header_carried _ He)
        as (d & ds & Hd & Hall & Hn).
      exists line, (d :: ds). rewrite Hn. simpl. auto 10.
  - destruct (AssemblerFacts.step_other h _ window st He) as (Hr & Hc & _).
    destruct Hok as [H1 H2]. split; rewrite ?Hr, ?Hc; auto.
Qed.

Lemma loop_race_ok h all lines :
  incl lines all ->
  forall st, state_ok h all st -> state_ok h all (loop h lines st).
Proof.
  induction lines as [|line rest IH]; intros Hin st Hok; simpl; auto.
  apply IH; [intros x Hx; apply Hin; right; exact Hx|].
  apply step_race_ok; [apply Hin; left; reflexivity | exact Hok].
Qed.

Lemma entry_of_header line m :
  exec raceHeaderRegex line = Some m -> entry_of line = [].
Proof. unfold entry_of, is_header, test. intros ->. reflexivity. Qed.

Lemma entry_of_other line :
  exec raceHeaderRegex line = None ->
  entry_of line = match extractHorseFromLine line with
                  | Some horse => [horse]
                  | None => []
                  end.
Proof. unfold entry_of, is_header, test. intros ->. reflexivity. Qed.

Lemma entries_header line rest m :
  exec raceHeaderRegex line = Some m ->
  entries (line :: rest) = flat_map entry_of rest.
Proof.
  intros He. unfold entries. cbn [from_first_header].
  unfold is_header, test. rewrite He. cbn [flat_map].
  rewrite (entry_of_header _ He). reflexivity.
Qed.

Lemma entries_other line rest :
  exec raceHeaderRegex line = None ->
  entries (line :: rest) = entries rest.
Proof.
  intros He. unfold entries. cbn [from_first_header].
  unfold is_header, test. rewrite He. reflexivity.
Qed.

Lemma save_horses st :
  concat (map Race.horses (save st))
  = concat (map Race.horses (races st))
    ++ match currentRace st with
       | Some _ => currentHorses st
       | None => []
       end.
Proof.
  unfold save. destruct (currentRace st) as [r|];
    [|rewrite app_nil_r; reflexivity].
  destruct (currentHorses st) as [|x xs].
  - rewrite app_nil_r. reflexivity.
  - rewrite map_app, concat_app. simpl. rewrite app_nil_r. reflexivity.
Qed.

(** The horses put out are the entries of the document. *)
Lemma loop_entries h lines :
  forall st,
    concat (map Race.horses (save (loop h lines st)))
    = concat (map Race.horses (races st))
      ++ match currentRace st with
         | Some _ => currentHorses st ++ flat_map entry_of lines
         | None => entries lines
         end.
Proof.
  induction lines as [|line rest IH]; intros st.
  - cbn [loop flat_map]. rewrite save_horses.
    destruct (currentRace st); [rewrite app_nil_r|]; reflexivity.
  - cbn [loop]. rewrite IH. clear IH. cbn [flat_map].
    destruct (exec raceHeaderRegex line) as [m|] eqn:He.
    + rewrite (AssemblerFacts.step_header h _ _ _ He).
      cbn [races currentRace currentHorses app].
      rewrite save_horses, (entry_of_header _ He), (entries_header _ rest He).
      destruct (currentRace st); rewrite <- app_assoc; reflexivity.
    + rewrite (entry_of_other _ He), (entries_other _ rest He).
      unfold step. rewrite He.
      destruct (currentRace st) as [r|] eqn:Ec.
      * destruct (extractHorseFromLine line) as [x|].
        -- cbn [races currentRace currentHorses].
           rewrite <- app_assoc. reflexivity.
        -- rewrite Ec. reflexivity.
      * rewrite Ec. reflexivity.
Qed.

(** The fields a window sets: for each, the last line that gives a
    value decides. *)
Lemma scan_window_fields window :
  forall r,
    let r' := fold_left scan_condition window r in
    Race.distance r' = last_found truthy_distance window (Race.distance r) /\
    Race.surface r' = last_found extractSurface window (Race.surface r) /\
    Race.purse r' = last_found extractPurse window (Race.purse r) /\
    Race.horses r' = Race.horses r.
Proof.
  induction window as [|l w IH]; intros r; [simpl; auto|].
  cbn [fold_left last_found]. unfold last_found in *. cbn [fold_left].
  destruct (IH (scan_condition r l)) as (Hd & Hs & Hp & Hh).
  cbv zeta. rewrite Hd, Hs, Hp, Hh. clear.
  unfold scan_condition, truthy_distance.
  destruct (extractDistance l) as [[|? ?]|];
    destruct (extractSurface l); destruct (extractPurse l); auto.
Qed.

End RaceFacts.

(** X5. Every race of the output is opened by a header line of the
    document and takes its number from the digits that line carries:
    their value as a double (the value itself below 2^53), so never NaN
    and never negative. Its id is "race-" followed by that number as
    JavaScript prints it (its decimal digits below 2^53), its track is
    "Unknown" and its date the current day: the track and date found in
    the text go to the card only. *)
Theorem race_fields_fixed_by_header (h : clock) (text : jsstring) :
  Forall (fun r =>
            exists line ds,
              In line (lines_of text) /\
              Notions.header_digits line = Some ds /\
              Race.number r = to_double (decimal_value ds) /\
              match Race.number r with
              | Num z => (0 <= z)%Z
              | Infinity => True
              | _ => False
              end /\
              Race.id r = str "race-" ++ number_to_string (Race.number r) /\
              ((decimal_value ds < 2 ^ 53)%Z ->
               Race.number r = Num (decimal_value ds) /\
               Race.id r = str "race-" ++ decimal_digits (decimal_value ds)) /\
              Race.track r = str "Unknown" /\
              Race.date r = today h)
    (extractRaces h text).
Proof.
  unfold extractRaces, assemble.
  eapply Forall_impl;
    [|apply (@RaceFacts.save_race_ok h (lines_of text)),
        RaceFacts.loop_race_ok;
      [apply incl_refl | split; [constructor | discriminate]]].
  intros r (line & ds & Hin & Hd & Hall & Hn & Hid & Ht & Hday).
  exists line, ds.
  pose proof (JSFacts.decimal_value_bound Hall) as [Hnat _].
  repeat split; auto.
  - rewrite Hn. apply NumberFacts.to_double_natural, Hnat.
  - rewrite Hn. apply NumberFacts.to_double_exact. lia.
  - rewrite Hid, Hn, NumberFacts.to_double_exact by lia.
    rewrite NumberFacts.number_to_string_exact by lia. reflexivity.
Qed.

(** X6. No horse entry is lost, doubled or moved: the horses of the
    races of the output, race after race, are the horses of the
    horse-entry lines that come after the first header, in the order of
    the lines. *)
Theorem horses_are_the_entries (h : clock) (text : jsstring) :
  concat (map Race.horses (extractRaces h text))
  = Notions.entries (lines_of text).
Proof.
  unfold extractRaces, assemble. rewrite RaceFacts.loop_entries. reflexivity.
Qed.

(** X7. A header opens a race with no horse yet, whose distance,
    surface and purse are those of the four lines after it at most: for
    each of the three, the last line of the window that gives a value
    decides, and the field is absent when no line of the window gives
    one. *)
Theorem conditions_from_window (h : clock) (line : jsstring)
  (rest : list jsstring) (st : state) :
  is_header line = true ->
  exists r,
    loop h (line :: rest) st
    = loop h rest {| races := save st;
                     currentRace := Some r;
                     currentHorses := [] |} /\
    Race.distance r
    = Notions.last_found Notions.truthy_distance (firstn 4 rest) None /\
    Race.surface r = Notions.last_found extractSurface (firstn 4 rest) None /\
    Race.purse r = Notions.last_found extractPurse (firstn 4 rest) None.
Proof.
  unfold is_header, test. intros H.
  destruct (exec raceHeaderRegex line) as [m|] eqn:He; [|discriminate].
  cbn [loop]. rewrite (AssemblerFacts.step_header h _ _ _ He).
  eexists. split; [reflexivity|].
  destruct (RaceFacts.scan_window_fields (firstn 4 rest)
              (new_race h (raceNumber_of m))) as (Hd & Hs & Hp & _).
  auto.
Qed.

Lemma conditions_from_window_witness :
  exists r,
    loop utc_clock
      [str "RACE 4"; str "Purse $25,000 Turf"; str "6 Furlongs Dirt";
       str "1. ALPHA"; str "2. BRAVO"; str "Purse $99,000 Synthetic"]
      initial
    = loop utc_clock
        [str "Purse $25,000 Turf"; str "6 Furlongs Dirt";
         str "1. ALPHA"; str "2. BRAVO"; str "Purse $99,000 Synthetic"]
        {| races := []; currentRace := Some r; currentHorses := [] |} /\
    Race.distance r = Some (str "6 Furlongs") /\
    Race.surface r = Some dirt /\
    Race.purse r = Some (Num 25000).
Proof.
  destruct (@conditions_from_window utc_clock (str "RACE 4")
              [str "Purse $25,000 Turf"; str "6 Furlongs Dirt";
               str "1. ALPHA"; str "2. BRAVO"; str "Purse $99,000 Synthetic"]
              initial eq_refl) as (r & Hr & Hd & Hs & Hp).
  exists r. split; [exact Hr|].
  rewrite Hd, Hs, Hp. vm_compute. auto.
Defined.

(** ** The shape of a horse entry *)

Module EntryFacts.
Import Notions JSFacts RegExpFacts.
Local Open Scope N_scope.

Lemma name_cls_match ch :
  cls_match true false
    (CUnion (crange "A" "Z") (CUnion CSpace (cchr "'"))) ch = true ->
  is_name_char ch = true.
Proof.
  unfold cls_match, is_name_char, crange, cchr, code. simpl.
  unfold swap_case.
  destruct (is_lower ch) eqn:Hl; [intros _; rewrite orb_true_r; reflexivity|].
  destruct (is_upper ch) eqn:Hu; [reflexivity|].
  rewrite orb_diag. unfold is_upper, between in Hu.
  intros H. apply orb_true_iff in H. destruct H as [H | H].
  - unfold between in H. congruence.
  - simpl. exact H.
Qed.

Lemma not_paren_cls_match ch :
  cls_match true true (cchr ")") ch = true -> ch <> 41.
Proof.
  unfold cls_match, cchr, code. simpl. intros H E. subst ch.
  vm_compute in H. discriminate.
Qed.

Lemma sep_cls_match sep ch :
  (sep = 45 \/ sep = 47) ->
  cls_match true false (CChar sep) ch = true -> ch = sep.
Proof.
  intros Hs. rewrite KeywordFacts.cls_char_ci.
  unfold ci_eqb, to_upper. rewrite N.eqb_eq.
  destruct (is_lower sep) eqn:Ls;
    [destruct Hs; subst; vm_compute in Ls; discriminate|].
  destruct (is_lower ch) eqn:Lc; auto.
  unfold is_lower, between in Lc. bool_to_prop. destruct Hs; subst; lia.
Qed.

(** [x+] for a class. *)
Lemma matches_plus_cls icase neg cs pos c w rest c' :
  matches icase (plus (Cls neg cs)) pos c w rest c' ->
  w <> [] /\ Forall (fun ch => cls_match icase neg cs ch = true) w /\ c' = c.
Proof.
  unfold plus. intros H. apply matches_seq_inv in H.
  destruct H as (w1 & w2 & c1 & -> & H1 & H2).
  apply matches_cls_inv in H1. destruct H1 as (d & -> & Hd & ->).
  apply matches_star_cls in H2. destruct H2 as [Hall ->].
  repeat split; auto; [discriminate|]. constructor; auto.
Qed.

Lemma matches_odds pos c w rest c' :
  matches true odds_part pos c w rest c' ->
  c' = set_cap 4 w c /\ odds_shaped w.
Proof.
  unfold odds_part. intros H.
  apply matches_group_inv in H. destruct H as (c1 & H & ->).
  assert (Hshape : c1 = c /\ odds_shaped w).
  { cbn [seq] in H. apply matches_alt_inv in H.
    destruct H as [H | H];
      apply matches_seq_inv in H;
      destruct H as (a & t & c2 & -> & Ha & H);
      apply matches_seq_inv in H;
      destruct H as (sp & b & c3 & -> & Hs & Hb);
      apply RaceFacts.matches_digits in Ha;
      destruct Ha as (a0 & a1 & -> & Hda & ->);
      apply RaceFacts.matches_digits in Hb;
      destruct Hb as (b0 & b1 & -> & Hdb & ->);
      apply matches_cls_inv in Hs;
      destruct Hs as (ch & -> & Hch & ->);
      (split; [reflexivity|]).
    - apply sep_cls_match in Hch; [|left; reflexivity]. subst ch.
      exists (a0 :: a1), 45, (b0 :: b1).
      repeat split; auto; discriminate.
    - apply sep_cls_match in Hch; [|right; reflexivity]. subst ch.
      exists (a0 :: a1), 47, (b0 :: b1).
      repeat split; auto; discriminate. }
  destruct Hshape as [-> Hs]. auto.
Qed.

Lemma matches_jockey pos c w rest c' :
  matches true jockey_part pos c w rest c' ->
  exists j,
    c' = set_cap 3 j c /\ j <> [] /\ Forall (fun ch => ch <> 41) j.
Proof.
  unfold jockey_part. cbn [seq]. intros H.
  apply matches_seq_inv in H. destruct H as (w1 & t1 & c1 & -> & H1 & H).
  apply matches_seq_inv in H. destruct H as (j & t2 & c2 & -> & Hj & H2).
  apply matches_cls_inv in H1. destruct H1 as (_ & _ & _ & ->).
  apply matches_cls_inv in H2. destruct H2 as (_ & _ & _ & ->).
  apply matches_group_inv in Hj. destruct Hj as (c3 & Hj & ->).
  apply matches_plus_cls in Hj. destruct Hj as (Hne & Hall & ->).
  exists j. repeat split; auto.
  eapply Forall_impl; [|exact Hall]. intros a. apply not_paren_cls_match.
Qed.

(** What the groups of a match of the horse pattern hold. *)
Lemma horsePattern_shape line m :
  exec horsePattern line = Some m ->
  (exists name, groups m 2%nat = Some name /\
                Forall (fun ch => is_name_char ch = true) name) /\
  match groups m 3%nat with
  | Some j => j <> [] /\ Forall (fun ch => ch <> 41) j
  | None => True
  end /\
  match groups m 4%nat with
  | Some o => odds_shaped o
  | None => True
  end.
Proof.
  intros He. apply exec_sound in He.
  destruct He as (pre & rest & Hline & _ & Hm).
  change (ignoreCase horsePattern) with true in Hm.
  cbn [body horsePattern seq] in Hm.
  apply matches_seq_inv in Hm. destruct Hm as (w0 & t0 & c0 & E0 & H0 & Hm).
  apply matches_bol_inv in H0. destruct H0 as (_ & -> & ->).
  apply matches_seq_inv in Hm. destruct Hm as (w1 & t1 & c1 & E1 & H1 & Hm).
  apply matches_seq_inv in Hm. destruct Hm as (w2 & t2 & c2 & E2 & H2 & Hm).
  apply matches_seq_inv in Hm. destruct Hm as (w3 & t3 & c3 & E3 & H3 & Hm).
  apply matches_seq_inv in Hm. destruct Hm as (w4 & t4 & c4 & E4 & H4 & Hm).
  assert (Hc4 : forall n, (n = 3 \/ n = 4)%nat -> c4 n = None).
  { intros n Hn.
    rewrite (matches_frame H4 n) by (cbn; intuition (subst; discriminate)).
    rewrite (matches_frame H3 n) by (cbn; intuition discriminate).
    rewrite (matches_frame H2 n) by (cbn; intuition discriminate).
    rewrite (matches_frame H1 n) by (cbn; intuition (subst; discriminate)).
    reflexivity. }
  split.
  { exists w4. split.
    - rewrite (matches_frame Hm 2%nat) by (cbn; intuition discriminate).
      apply matches_group_inv in H4. destruct H4 as (c4' & _ & ->).
      reflexivity.
    - apply matches_group_inv in H4. destruct H4 as (c4' & H4 & _).
      unfold lazy_plus in H4. apply matches_seq_inv in H4.
      destruct H4 as (a & b & c5 & -> & Ha & Hb).
      apply matches_cls_inv in Ha. destruct Ha as (ch & -> & Hch & _).
      apply matches_star_cls in Hb. destruct Hb as [Hall _].
      constructor; [apply name_cls_match, Hch|].
      eapply Forall_impl; [|exact Hall]. intros x. apply name_cls_match. }
  apply matches_seq_inv in Hm. destruct Hm as (w5 & t5 & c5 & E5 & H5 & Hm).
  apply matches_seq_inv in Hm. destruct Hm as (w6 & t6 & c6 & E6 & H6 & Hm).
  assert (Hc5 : forall n, (n = 3 \/ n = 4)%nat -> c5 n = None).
  { intros n Hn.
    rewrite (matches_frame H5 n) by (cbn; intuition discriminate). auto. }
  split.
  { rewrite (matches_frame Hm 3%nat) by (cbn; intuition discriminate).
    apply matches_alt_inv in H6. destruct H6 as [H6 | H6].
    - apply matches_jockey in H6. destruct H6 as (j & -> & Hne & Hall).
      unfold set_cap. simpl. auto.
    - apply matches_eps_inv in H6. destruct H6 as [_ ->].
      rewrite Hc5; auto. }
  apply matches_seq_inv in Hm. destruct Hm as (w7 & t7 & c7 & E7 & H7 & Hm).
  apply matches_seq_inv in Hm. destruct Hm as (w8 & t8 & c8 & E8 & H8 & Hm).
  rewrite (matches_frame Hm 4%nat) by (cbn; intuition discriminate).
  apply matches_alt_inv in H8. destruct H8 as [H8 | H8].
  - apply matches_odds in H8. destruct H8 as [-> Hs].
    unfold set_cap. simpl. exact Hs.
  - apply matches_eps_inv in H8. destruct H8 as [_ ->].
    rewrite (matches_frame H7 4%nat) by (cbn; intuition discriminate).
    rewrite (matches_frame H6 4%nat) by (cbn; intuition discriminate).
    rewrite Hc5; auto.
Qed.

Lemma trimStart_nonspace c s :
  is_space c = false -> trimStart (c :: s) = c :: s.
Proof. simpl. intros ->. reflexivity. Qed.

Lemma trimEnd_nonspace s x :
  is_space x = false -> trimEnd (s ++ [x]) = s ++ [x].
Proof.
  intros H. unfold trimEnd. rewrite rev_app_distr. cbn [rev app].
  rewrite trimStart_nonspace by exact H.
  cbn [rev]. rewrite rev_involutive. reflexivity.
Qed.

(** Odds are not changed by [trim]. *)
Lemma trim_odds o : odds_shaped o -> trim o = o.
Proof.
  intros (a & sep & b & -> & Ha & Hb & Hda & Hdb & _).
  unfold trim.
  destruct a as [|a0 a]; [congruence|]. inversion Hda; subst.
  cbn [app]. rewrite trimStart_nonspace by (apply digit_not_space; auto).
  destruct (exists_last Hb) as (b' & x & ->).
  assert (Hx : is_digit x = true).
  { apply Forall_app in Hdb. destruct Hdb as [_ Hx]. inversion Hx; auto. }
  replace (a0 :: a ++ sep :: b' ++ [x])
    with ((a0 :: a ++ sep :: b') ++ [x])
    by (simpl; rewrite <- app_assoc; reflexivity).
  apply trimEnd_nonspace, digit_not_space, Hx.
Qed.

Lemma ci_eqb_not_digit a ch :
  is_digit a = false -> is_lower a = false -> ci_eqb a ch = true ->
  is_digit ch = false.
Proof.
  unfold ci_eqb, to_upper. intros Hd Hl. rewrite Hl.
  destruct (is_lower ch) eqn:Lc; unfold_chars; bool_to_prop; lia.
Qed.

Lemma take_while_app_stop p ds tail :
  Forall (fun c => p c = true) ds ->
  MarkerFacts.starts_with p tail = false ->
  take_while p (ds ++ tail) = ds.
Proof.
  induction 1 as [|c ds Hc _ IH]; intros Ht; simpl.
  - apply MarkerFacts.take_while_starts, Ht.
  - rewrite Hc, IH by exact Ht. reflexivity.
Qed.

(** A line that matches the horse pattern starts with the one or two
    digits of group 1, and what follows them is no digit. *)
Lemma horsePattern_head line m :
  exec horsePattern line = Some m ->
  groups m 1%nat = Some (take_while is_digit line) /\
  (1 <= length (take_while is_digit line) <= 2)%nat.
Proof.
  intros He. apply exec_sound in He.
  destruct He as (pre & rest & Hline & _ & Hm).
  change (ignoreCase horsePattern) with true in Hm.
  cbn [body horsePattern seq] in Hm.
  apply matches_seq_inv in Hm. destruct Hm as (w0 & t0 & c0 & E0 & H0 & Hm).
  apply matches_bol_inv in H0. destruct H0 as (Hpre & -> & ->).
  destruct pre as [|? ?]; [|discriminate Hpre].
  apply matches_seq_inv in Hm. destruct Hm as (w1 & t1 & c1 & E1 & H1 & Hm).
  assert (Hg : groups m 1%nat = c1 1%nat).
  { apply (matches_frame Hm 1%nat). cbn. intuition discriminate. }
  apply HorseFacts.matches_number_inv in H1. destruct H1 as (Hds & Hlen & Hc1).
  apply matches_seq_inv in Hm. destruct Hm as (w2 & t2 & c2 & E2 & H2 & Hm).
  apply matches_seq_inv in Hm. destruct Hm as (w3 & t3 & c3 & E3 & H3 & _).
  assert (Htail : MarkerFacts.starts_with is_digit (w2 ++ w3 ++ t3 ++ rest)
                  = false).
  { unfold plus in H3. apply matches_seq_inv in H3.
    destruct H3 as (a & b & c4 & -> & Ha & _).
    apply matches_cls_inv in Ha. destruct Ha as (sp & -> & Hsp & _).
    unfold space in Hsp. rewrite MarkerFacts.space_cls_ci in Hsp.
    assert (Hnd : is_digit sp = false).
    { destruct (is_digit sp) eqn:E; auto.
      rewrite (digit_not_space _ E) in Hsp. discriminate. }
    apply matches_alt_inv in H2. destruct H2 as [H2 | H2].
    - apply matches_cls_inv in H2. destruct H2 as (dot & -> & Hdot & _).
      unfold chr in Hdot. rewrite KeywordFacts.cls_char_ci in Hdot.
      simpl. apply (ci_eqb_not_digit (code ".")); auto.
    - apply matches_eps_inv in H2. destruct H2 as [-> _]. simpl. exact Hnd. }
  assert (El : line = w1 ++ (w2 ++ w3 ++ t3 ++ rest)).
  { rewrite Hline, E0, E1, E2, E3. simpl. rewrite <- !app_assoc. reflexivity. }
  rewrite El, (@take_while_app_stop _ _ _ Hds Htail).
  split; [congruence | exact Hlen].
Qed.

(** What a horse of a line is made of, beyond the match. *)
Definition entry_ok (line : jsstring) (x : Horse.t) : Prop :=
  (1 <= length (take_while is_digit line) <= 2)%nat /\
  Horse.id x = str "horse-" ++ take_while is_digit line /\
  Horse.number x = Num (decimal_value (take_while is_digit line)) /\
  Horse.jockey x <> [] /\
  Horse.trainer x = str "Unknown" /\
  Horse.weight x = Num 120 /\
  Horse.speedFigures x
  = {| Horse.beyer := None; Horse.timeform := None; Horse.parDRF := None |} /\
  Horse.pastPerformances x = [].

Lemma extractHorseFromLine_entry_ok line x :
  extractHorseFromLine line = Some x -> entry_ok line x.
Proof.
  unfold extractHorseFromLine. intros H.
  destruct (exec horsePattern line) as [m|] eqn:He; [|discriminate].
  inversion H; subst; clear H. unfold entry_ok. simpl.
  destruct (horsePattern_head _ He) as (Hg & Hlen).
  unfold group. rewrite Hg.
  pose proof (take_while_all is_digit line) as Hds.
  split; [exact Hlen|]. split; [reflexivity|]. split; [|repeat split].
  - destruct (take_while is_digit line) as [|d ds] eqn:E;
      [simpl in Hlen; lia|].
    pose proof (decimal_value_bound Hds) as Hb.
    assert (10 ^ Z.of_nat (length (d :: ds)) <= 100)%Z.
    { destruct ds as [|b [|? ?]]; simpl in *; lia. }
    assert (100 < 2 ^ 53)%Z by reflexivity.
    apply parseInt_digits_exact; [exact Hds | lia].
  - destruct (groups m 3%nat) as [j|]; simpl; [|discriminate].
    destruct (trim j); discriminate.
Qed.

(** An entry of a document is the horse of one of its lines. *)
Lemma from_first_header_incl lines :
  incl (from_first_header lines) lines.
Proof.
  induction lines as [|l ls IH]; simpl; [apply incl_refl|].
  destruct (is_header l); [apply incl_refl|].
  apply incl_tl, IH.
Qed.

Lemma entries_from_lines lines x :
  In x (entries lines) ->
  exists line, In line lines /\ extractHorseFromLine line = Some x.
Proof.
  unfold entries. rewrite in_flat_map. intros (line & Hin & Hx).
  exists line. split; [apply (from_first_header_incl lines), Hin|].
  unfold entry_of in Hx. destruct (is_header line); [destruct Hx|].
  destruct (extractHorseFromLine line) as [y|]; [|destruct Hx].
  destruct Hx as [-> | []]. reflexivity.
Qed.

(** Every horse of the output is the horse of a line of the
    document. *)
Lemma horses_from_lines h lines r x :
  In r (assemble h lines) -> In x (Race.horses r) ->
  exists line, In line lines /\ extractHorseFromLine line = Some x.
Proof.
  intros Hr Hx. apply entries_from_lines.
  pose proof (RaceFacts.loop_entries h lines initial) as E.
  simpl in E. unfold assemble in Hr. rewrite <- E.
  apply in_concat. exists (Race.horses r). split; [|exact Hx].
  apply in_map, Hr.
Qed.

Definition entry_shaped (x : Horse.t) : Prop :=
  Forall (fun ch => is_name_char ch = true) (Horse.name x) /\
  Forall (fun ch => ch <> 41) (Horse.jockey x) /\
  match Horse.odds x with
  | Some o => odds_shaped o
  | None => True
  end.

Lemma extractHorseFromLine_shaped line x :
  extractHorseFromLine line = Some x -> entry_shaped x.
Proof.
  unfold extractHorseFromLine. intros H.
  destruct (exec horsePattern line) as [m|] eqn:He; [|discriminate].
  inversion H; subst; clear H. unfold entry_shaped. simpl.
  apply horsePattern_shape in He.
  destruct He as ((name & Hn & Hname) & Hj & Ho).
  unfold group. rewrite Hn. split; [|split].
  - apply DigitFacts.trim_Forall, Hname.
  - destruct (groups m 3%nat) as [j|]; simpl.
    + destruct Hj as [_ Hall].
      pose proof (DigitFacts.trim_Forall Hall) as Ht.
      destruct (trim j); [|exact Ht].
      repeat constructor; discriminate.
    + repeat constructor; discriminate.
  - destruct (groups m 4%nat) as [o|]; simpl; auto.
    rewrite (trim_odds Ho). exact Ho.
Qed.

End EntryFacts.

(** X8. Every horse of the output is read from a line of the document
    that starts with one or two digits (and no third): its id is
    "horse-" followed by those digits and its number is their value; its
    jockey is never empty, its trainer is "Unknown", its weight 120, and
    it has no speed figure and no past performance. *)
Theorem horse_fields_by_default (h : clock) (text : jsstring) :
  Forall (fun r =>
            Forall (fun x =>
                      exists line,
                        In line (lines_of text) /\
                        (1 <= length (take_while is_digit line) <= 2)%nat /\
                        Horse.id x
                        = str "horse-" ++ take_while is_digit line /\
                        Horse.number x
                        = Num (decimal_value (take_while is_digit line)) /\
                        Horse.jockey x <> [] /\
                        Horse.trainer x = str "Unknown" /\
                        Horse.weight x = Num 120 /\
                        Horse.speedFigures x
                        = {| Horse.beyer := None; Horse.timeform := None;
                             Horse.parDRF := None |} /\
                        Horse.pastPerformances x = [])
              (Race.horses r))
    (extractRaces h text).
Proof.
  unfold extractRaces. apply Forall_forall. intros r Hr.
  apply Forall_forall. intros x Hx.
  destruct (EntryFacts.horses_from_lines h _ _ _ Hr Hx) as (line & Hin & He).
  exists line. split; [exact Hin|].
  apply (EntryFacts.extractHorseFromLine_entry_ok _ He).
Qed.

(** X9. Every horse of the output has a name made of letters, blanks
    and apostrophes only, a jockey without a closing parenthesis, and
    odds, when it has any, made of digits, one dash or slash, and digits
    again. *)
Theorem horse_fields_shaped (h : clock) (text : jsstring) :
  Forall (fun r =>
            Forall (fun x =>
                      Forall (fun ch => Notions.is_name_char ch = true)
                        (Horse.name x) /\
                      Forall (fun ch => ch <> 41%N) (Horse.jockey x) /\
                      match Horse.odds x with
                      | Some o => Notions.odds_shaped o
                      | None => True
                      end)
              (Race.horses r))
    (extractRaces h text).
Proof.
  unfold extractRaces.
  apply (AssemblerFacts.assemble_ok h EntryFacts.entry_shaped).
  apply EntryFacts.extractHorseFromLine_shaped.
Qed.

(** ** The paths of the orchestrator *)

Module PathFacts.
Import Notions JSFacts RegExpFacts.
Local Open Scope N_scope.

Lemma last_app_nonempty A (l1 l2 : list A) d :
  l2 <> [] -> last (l1 ++ l2) d = last l2 d.
Proof.
  intros H. induction l1 as [|x l1 IH]; [reflexivity|].
  simpl. destruct (l1 ++ l2) eqn:E; [|exact IH].
  destruct l1; simpl in E; congruence.
Qed.

Lemma split_no_sep sep s :
  existsb (N.eqb sep) s = false -> split sep s = [s].
Proof.
  induction s as [|c s IH]; simpl; intros H; [reflexivity|].
  apply orb_false_iff in H. destruct H as [Hc Hs].
  rewrite N.eqb_sym, Hc, (IH Hs). reflexivity.
Qed.

Lemma toLowerCase_no_dot s :
  existsb (N.eqb 46) s = false -> existsb (N.eqb 46) (toLowerCase s) = false.
Proof.
  unfold toLowerCase.
  induction s as [|c s IH]; cbn [existsb map]; intros H; [reflexivity|].
  apply orb_false_iff in H. destruct H as [Hc Hs].
  rewrite (IH Hs), orb_false_r.
  unfold to_lower. destruct (is_upper c) eqn:U; [|exact Hc].
  unfold is_upper, between in U. bool_to_prop. lia.
Qed.

Lemma fileExtension_of_no_dot name :
  existsb (N.eqb 46) name = false ->
  fileExtension_of name = toLowerCase name.
Proof.
  intros H. unfold fileExtension_of.
  rewrite split_no_sep by (apply toLowerCase_no_dot, H). reflexivity.
Qed.

Lemma fileExtension_of_dot base ext :
  existsb (N.eqb 46) ext = false ->
  fileExtension_of (base ++ 46 :: ext) = toLowerCase ext.
Proof.
  intros H. unfold fileExtension_of, toLowerCase.
  rewrite map_app. cbn [map]. change (to_lower 46) with 46.
  rewrite split_app, last_app_nonempty by apply split_nonempty.
  apply (fileExtension_of_no_dot _ H).
Qed.

Lemma app3 A (t : list A) a b c : ((t ++ [a]) ++ [b]) ++ [c] = t ++ [a; b; c].
Proof. rewrite <- !app_assoc. reflexivity. Qed.

Lemma app4 A (t : list A) a b c d :
  (((t ++ [a]) ++ [b]) ++ [c]) ++ [d] = t ++ [a; b; c; d].
Proof. rewrite <- !app_assoc. reflexivity. Qed.

Lemma dispatch_image h w filePath fileName :
  existsb (JS.eqb (fileExtension_of fileName)) image_kinds = true ->
  dispatch h w filePath fileName = processImage h w filePath.
Proof.
  unfold dispatch. intros Hi.
  destruct (existsb (JS.eqb (fileExtension_of fileName)) pdf_kinds) eqn:Hp.
  - exfalso. simpl in Hp, Hi. rewrite orb_false_r in Hp.
    unfold JS.eqb in *.
    destruct (list_eq_dec N.eq_dec (fileExtension_of fileName) (str "pdf"))
      as [E|]; [|discriminate].
    rewrite E in Hi. vm_compute in Hi. discriminate.
  - rewrite Hi. reflexivity.
Qed.

(** A result of a successful extraction. *)
Definition extracted (res : OCRResult.t) : Prop :=
  OCRResult.success res = true /\
  OCRResult.extractedData res <> None /\
  OCRResult.errors res = None.

Ltac run_calls :=
  unfold processPDF, processImage, processWithGoogleVision,
    processWithTesseract, preprocessImage, try_catch, try_finally, bind, log,
    call, ret, throw.

Ltac split_outcome :=
  match goal with
  | |- context [match ?o with inl _ => _ | inr _ => _ end] =>
      destruct o as [?e | ?v] eqn:?
  | H : context [match ?o with inl _ => _ | inr _ => _ end] |- _ =>
      destruct o as [?e | ?v] eqn:?
  | H : context [let (_, _) := ?o in _] |- _ =>
      destruct o as [? ?] eqn:?
  | H : context [match ?o with Some _ => _ | None => _ end] |- _ =>
      destruct o as [?v |] eqn:?
  | H : context [match ?o with [] => _ | _ :: _ => _ end] |- _ =>
      destruct o as [| ? ?] eqn:?
  | H : context [if ?b then _ else _] |- _ =>
      destruct b eqn:?
  end.

Ltac invert_pairs :=
  repeat match goal with
         | H : (_, _) = (_, _) |- _ => inversion H; subst; clear H
         end.

Lemma processPDF_extracted h w filePath t res t' :
  processPDF h w filePath t = (inr res, t') -> extracted res.
Proof.
  run_calls. intros H.
  repeat (split_outcome; simpl in H; try discriminate);
    invert_pairs; repeat split; simpl; solve [reflexivity | discriminate].
Qed.

Lemma processImage_extracted h w filePath t res t' :
  processImage h w filePath t = (inr res, t') -> extracted res.
Proof.
  run_calls. intros H.
  repeat (split_outcome; simpl in H; try discriminate);
    invert_pairs; repeat split; simpl; solve [reflexivity | discriminate].
Qed.

Lemma dispatch_extracted h w filePath fileName t res t' :
  dispatch h w filePath fileName t = (inr res, t') -> extracted res.
Proof.
  unfold dispatch.
  destruct (existsb (JS.eqb (fileExtension_of fileName)) pdf_kinds);
    [apply processPDF_extracted|].
  destruct (existsb (JS.eqb (fileExtension_of fileName)) image_kinds);
    [apply processImage_extracted|].
  unfold throw. discriminate.
Qed.

End PathFacts.

(** X10. The kind of a file is what follows the last dot of its name,
    in lower case, and the whole name in lower case when the name has no
    dot: "Card.PDF" and a file called "PDF" both go to the PDF path. *)
Theorem file_kind_is_last_segment (base ext : jsstring) :
  existsb (N.eqb 46) ext = false ->
  fileExtension_of (base ++ 46%N :: ext) = toLowerCase ext /\
  fileExtension_of ext = toLowerCase ext /\
  (toLowerCase ext = str "pdf" ->
   forall h w filePath,
     dispatch h w filePath (base ++ 46%N :: ext) = processPDF h w filePath /\
     dispatch h w filePath ext = processPDF h w filePath).
Proof.
  intros H.
  pose proof (PathFacts.fileExtension_of_dot base _ H) as H1.
  pose proof (PathFacts.fileExtension_of_no_dot _ H) as H2.
  split; [exact H1|]. split; [exact H2|].
  intros Hpdf h w filePath.
  split; apply OrchestratorFacts.dispatch_pdf;
    [exact (eq_trans H1 Hpdf) | exact (eq_trans H2 Hpdf)].
Qed.

Lemma file_kind_is_last_segment_witness :
  fileExtension_of (str "race.card" ++ 46%N :: str "PDF") = str "pdf" /\
  fileExtension_of (str "PDF") = str "pdf".
Proof.
  destruct (@file_kind_is_last_segment (str "race.card") (str "PDF") eq_refl)
    as (H1 & H2 & _).
  rewrite H1, H2. split; reflexivity.
Defined.

(** X11. Every result of [processFile] is of one of two kinds: success
    true with extracted data and no error list, or success false with
    empty text, confidence 0, no extracted data and exactly one error
    message. *)
Theorem processFile_result_well_formed (h : clock) (w : services)
  (filePath fileName : jsstring) (t : list event) :
  exists res t',
    processFile h w filePath fileName t = (inr res, t') /\
    Notions.well_formed res.
Proof.
  destruct (dispatch h w filePath fileName t) as [[e | res] t1] eqn:Hd.
  - exists (failure e), (t1 ++ [LogError (str "OCR processing error:")]).
    split; [apply OrchestratorFacts.processFile_catches; exact Hd|].
    right. simpl. repeat split. eauto.
  - exists res, t1.
    split; [apply OrchestratorFacts.processFile_returns; exact Hd|].
    left. apply (PathFacts.dispatch_extracted _ _ _ _ _ Hd).
Qed.

(** X12. When the PDF cannot be read, or its text layer cannot be
    parsed, [processFile] gives the result with success false, empty
    text, confidence 0 and, as the only error, the message of the error
    thrown ("Unknown error" for what is no Error); the failure is
    logged twice (by the PDF path, then by [processFile]), a file that
    cannot be read is not parsed, and no other collaborator is called. *)
Theorem pdf_failure_is_reported (h : clock) (w : services)
  (filePath fileName : jsstring) (t : list event) (e : exn) :
  fileExtension_of fileName = str "pdf" ->
  (readFile w filePath = inl e ->
   processFile h w filePath fileName t
   = (inr {| OCRResult.success := false;
             OCRResult.text := [];
             OCRResult.confidence := 0;
             OCRResult.extractedData := None;
             OCRResult.errors :=
               Some [match e with
                     | Error message => message
                     | Thrown => str "Unknown error"
                     end] |},
      t ++ [ReadFile filePath;
            LogError (str "PDF processing error:");
            LogError (str "OCR processing error:")])) /\
  (forall buf,
     readFile w filePath = inr buf -> pdfParse w buf = inl e ->
     processFile h w filePath fileName t
     = (inr {| OCRResult.success := false;
               OCRResult.text := [];
               OCRResult.confidence := 0;
               OCRResult.extractedData := None;
               OCRResult.errors :=
                 Some [match e with
                       | Error message => message
                       | Thrown => str "Unknown error"
                       end] |},
        t ++ [ReadFile filePath; PdfParse;
              LogError (str "PDF processing error:");
              LogError (str "OCR processing error:")])).
Proof.
  intros Hext. split.
  - intros Hr. rewrite <- PathFacts.app3.
    apply OrchestratorFacts.processFile_catches.
    rewrite (OrchestratorFacts.dispatch_pdf h w filePath _ Hext).
    PathFacts.run_calls. rewrite Hr. reflexivity.
  - intros buf Hr Hp. rewrite <- PathFacts.app4.
    apply OrchestratorFacts.processFile_catches.
    rewrite (OrchestratorFacts.dispatch_pdf h w filePath _ Hext).
    PathFacts.run_calls. rewrite Hr, Hp. reflexivity.
Qed.

Lemma pdf_failure_is_reported_witness :
  processFile utc_clock
    {| visionClient := false;
       readFile := fun _ => inl (Error (str "ENOENT: no such file"));
       pdfParse := fun _ => inr [];
       textDetection := fun _ => inl Thrown;
       createWorker := inr tt;
       sharpToFile := fun _ _ => inr tt;
       loadLanguage := inr tt;
       initialize := inr tt;
       recognize := fun _ => inl Thrown;
       terminate := inr tt |}
    (str "/tmp/gone") (str "card.pdf") []
  = (inr {| OCRResult.success := false;
            OCRResult.text := [];
            OCRResult.confidence := 0;
            OCRResult.extractedData := None;
            OCRResult.errors := Some [str "ENOENT: no such file"] |},
     [ReadFile (str "/tmp/gone");
      LogError (str "PDF processing error:");
      LogError (str "OCR processing error:")]).
Proof.
  apply (pdf_failure_is_reported utc_clock _ (str "/tmp/gone")
           (str "card.pdf") [] (Error (str "ENOENT: no such file")));
    reflexivity.
Defined.

(** X13. With a Google Vision client, an image goes to the cloud call
    and to nothing else: a failure of the call is reported and not
    retried with the local engine, which is never started. An answer
    without annotation fails with "No text detected in image"; otherwise
    the text is the description of the first annotation (empty when it
    has none) and the confidence is 0.85 with more than one annotation
    and 0.7 with one. *)
Theorem vision_is_not_retried_locally (h : clock) (w : services)
  (filePath fileName : jsstring) (t : list event) :
  existsb (JS.eqb (fileExtension_of fileName)) image_kinds = true ->
  visionClient w = true ->
  exists res logged,
    processFile h w filePath fileName t
    = (inr res, t ++ TextDetection filePath :: logged) /\
    filter is_extraction logged = [] /\
    match textDetection w filePath with
    | inl e => res = failure e
    | inr None | inr (Some []) =>
        res = failure (Error (str "No text detected in image"))
    | inr (Some (first :: others)) =>
        res = {| OCRResult.success := true;
                 OCRResult.text := or_else first [];
                 OCRResult.confidence :=
                   match others with
                   | [] => (7 # 10)%Q
                   | _ :: _ => (85 # 100)%Q
                   end;
                 OCRResult.extractedData :=
                   Some (parseRaceData h (or_else first []));
                 OCRResult.errors := None |}
    end.
Proof.
  intros Hkind Hv.
  pose proof (PathFacts.dispatch_image h w filePath _ Hkind) as Hd.
  assert (Hfail : forall e,
            processWithGoogleVision h w filePath t
            = (inl e, (t ++ [TextDetection filePath])
                      ++ [LogError (str "Google Vision error:")]) ->
            processFile h w filePath fileName t
            = (inr (failure e),
               t ++ TextDetection filePath
                 :: [LogError (str "Google Vision error:");
                     LogError (str "Image processing error:");
                     LogError (str "OCR processing error:")])).
  { intros e He.
    change (t ++ TextDetection filePath
              :: [LogError (str "Google Vision error:");
                  LogError (str "Image processing error:");
                  LogError (str "OCR processing error:")])
      with (t ++ [TextDetection filePath;
                  LogError (str "Google Vision error:");
                  LogError (str "Image processing error:");
                  LogError (str "OCR processing error:")]).
    rewrite <- PathFacts.app4.
    apply OrchestratorFacts.processFile_catches. rewrite Hd.
    unfold processImage, try_catch at 1. rewrite Hv, He.
    reflexivity. }
  destruct (textDetection w filePath) as [e | [[|first others]|]] eqn:Ht.
  - eexists. eexists. split; [apply Hfail|split; reflexivity].
    PathFacts.run_calls. rewrite Ht. reflexivity.
  - eexists. eexists. split; [apply Hfail|split; reflexivity].
    PathFacts.run_calls. rewrite Ht. reflexivity.
  - eexists. exists []. split; [|split; reflexivity].
    apply OrchestratorFacts.processFile_returns. rewrite Hd.
    PathFacts.run_calls. rewrite Hv, Ht. simpl.
    unfold calculateGoogleVisionConfidence.
    destruct others; reflexivity.
  - eexists. eexists. split; [apply Hfail|split; reflexivity].
    PathFacts.run_calls. rewrite Ht. reflexivity.
Qed.

Lemma vision_is_not_retried_locally_witness :
  exists logged,
    processFile utc_clock
      {| visionClient := true;
         readFile := fun _ => inl Thrown;
         pdfParse := fun _ => inr [];
         textDetection := fun _ => inl (Error (str "quota exceeded"));
         createWorker := inr tt;
         sharpToFile := fun _ _ => inr tt;
         loadLanguage := inr tt;
         initialize := inr tt;
         recognize := fun _ => inr (str "RACE 1", 90%Q);
         terminate := inr tt |}
      (str "/tmp/photo") (str "photo.JPG") []
    = (inr (failure (Error (str "quota exceeded"))),
       TextDetection (str "/tmp/photo") :: logged) /\
    filter is_extraction logged = [].
Proof.
  destruct (@vision_is_not_retried_locally utc_clock
              {| visionClient := true;
                 readFile := fun _ => inl Thrown;
                 pdfParse := fun _ => inr [];
                 textDetection := fun _ => inl (Error (str "quota exceeded"));
                 createWorker := inr tt;
                 sharpToFile := fun _ _ => inr tt;
                 loadLanguage := inr tt;
                 initialize := inr tt;
                 recognize := fun _ => inr (str "RACE 1", 90%Q);
                 terminate := inr tt |}
              (str "/tmp/photo") (str "photo.JPG") [] eq_refl eq_refl)
    as (res & logged & Hf & Hl & Hres).
  simpl in Hres. subst res. exists logged. split; [exact Hf | exact Hl].
Defined.

(** X14. Without a Google Vision client the local engine is used, and
    its worker is released on every path: once the worker is created,
    [terminate] is called exactly once and last, whatever fails in
    between; when the worker cannot be created nothing else is called.
    A failure of [terminate] itself replaces the outcome, even a
    successful recognition. *)
Theorem worker_is_always_terminated (h : clock) (w : services)
  (filePath : jsstring) (t : list event) :
  (forall e,
     createWorker w = inl e ->
     processWithTesseract h w filePath t = (inl e, t ++ [CreateWorker])) /\
  (createWorker w = inr tt ->
   exists outcome calls,
     processWithTesseract h w filePath t
     = (outcome, t ++ CreateWorker :: calls ++ [Terminate]) /\
     ~ In Terminate calls /\
     (forall e, terminate w = inl e -> outcome = inl e)).
Proof.
  split.
  - intros e He. PathFacts.run_calls. rewrite He. reflexivity.
  - intros Hc. PathFacts.run_calls. rewrite Hc.
    set (out := replace extensionPattern (str "_processed.png") filePath).
    assert (Hfin : forall (outcome : exn + OCRResult.t) calls,
              ~ In Terminate calls ->
              exists outcome' calls',
                (match terminate w with
                 | inr _ =>
                     (outcome, ((t ++ [CreateWorker]) ++ calls) ++ [Terminate])
                 | inl e =>
                     (inl e, ((t ++ [CreateWorker]) ++ calls) ++ [Terminate])
                 end)
                = (outcome', t ++ CreateWorker :: calls' ++ [Terminate]) /\
                ~ In Terminate calls' /\
                (forall e, terminate w = inl e -> outcome' = inl e)).
    { intros outcome calls Hn.
      destruct (terminate w) as [e5|u]; eexists; exists calls;
        (split; [rewrite <- !app_assoc; reflexivity|]);
        (split; [exact Hn|]); intros e E;
        [inversion E; reflexivity | discriminate]. }
    destruct (sharpToFile w filePath out) as [e1|[]] eqn:H1.
    { apply (Hfin (inl e1) [SharpToFile filePath out]).
      cbn. intuition discriminate. }
    destruct (loadLanguage w) as [e2|[]] eqn:H2.
    { rewrite <- (app_assoc (t ++ [CreateWorker])).
      apply (Hfin (inl e2) [SharpToFile filePath out; LoadLanguage]).
      cbn. intuition discriminate. }
    destruct (initialize w) as [e3|[]] eqn:H3.
    { rewrite <- 2!(app_assoc (t ++ [CreateWorker])).
      apply (Hfin (inl e3)
               [SharpToFile filePath out; LoadLanguage; Initialize]).
      cbn. intuition discriminate. }
    destruct (recognize w out) as [e4|data] eqn:H4.
    { rewrite <- 3!(app_assoc (t ++ [CreateWorker])).
      apply (Hfin (inl e4)
               [SharpToFile filePath out; LoadLanguage; Initialize;
                Recognize out]).
      cbn. intuition discriminate. }
    rewrite <- 3!(app_assoc (t ++ [CreateWorker])).
    apply (Hfin (inr _)
             [SharpToFile filePath out; LoadLanguage; Initialize;
              Recognize out]).
    cbn. intuition discriminate.
Qed.

Lemma worker_is_always_terminated_witness :
  exists outcome calls,
    processWithTesseract utc_clock
      {| visionClient := false;
         readFile := fun _ => inl Thrown;
         pdfParse := fun _ => inr [];
         textDetection := fun _ => inl Thrown;
         createWorker := inr tt;
         sharpToFile := fun _ _ => inr tt;
         loadLanguage := inl (Error (str "no language data"));
         initialize := inr tt;
         recognize := fun _ => inr (str "RACE 1", 90%Q);
         terminate := inr tt |}
      (str "/tmp/photo.png") []
    = (outcome, CreateWorker :: calls ++ [Terminate]) /\
    ~ In Terminate calls.
Proof.
  destruct (worker_is_always_terminated utc_clock
              {| visionClient := false;
                 readFile := fun _ => inl Thrown;
                 pdfParse := fun _ => inr [];
                 textDetection := fun _ => inl Thrown;
                 createWorker := inr tt;
                 sharpToFile := fun _ _ => inr tt;
                 loadLanguage := inl (Error (str "no language data"));
                 initialize := inr tt;
                 recognize := fun _ => inr (str "RACE 1", 90%Q);
                 terminate := inr tt |}
              (str "/tmp/photo.png") []) as (_ & H).
  destruct (H eq_refl) as (outcome & calls & Hp & Hn & _).
  exists outcome, calls. split; [exact Hp | exact Hn].
Defined.

(** ** The path of the preprocessed image *)

Module ExtensionFacts.
Import Notions JSFacts RegExpFacts.
Local Open Scope N_scope.

(** [[^/.]] *)
Definition segment_cls : cset := CUnion (cchr "/") (cchr ".").

Definition is_segment_char (c : char) : bool :=
  negb (c =? 47) && negb (c =? 46).

Lemma segment_cls_match c :
  cls_match false true segment_cls c = is_segment_char c.
Proof.
  unfold cls_match, segment_cls, is_segment_char, cchr, code. simpl.
  destruct (c =? 47), (c =? 46); reflexivity.
Qed.

Lemma segment_char_spec c :
  is_segment_char c = true <-> c <> 47 /\ c <> 46.
Proof. unfold is_segment_char. bool_to_prop. tauto. Qed.

Lemma matches_star_intro icase g neg cs w :
  Forall (fun ch => cls_match icase neg cs ch = true) w ->
  forall pos c rest, matches icase (Star g (Cls neg cs)) pos c w rest c.
Proof.
  induction 1 as [|ch w Hch _ IH]; intros pos c rest.
  - apply M_Star0.
  - change (ch :: w) with ([ch] ++ w).
    eapply M_StarS; [discriminate | apply M_Cls; exact Hch | apply IH].
Qed.

Lemma matches_plus_intro icase neg cs ch w pos c rest :
  Forall (fun x => cls_match icase neg cs x = true) (ch :: w) ->
  matches icase (plus (Cls neg cs)) pos c (ch :: w) rest c.
Proof.
  intros H. inversion H; subst. unfold plus.
  change (ch :: w) with ([ch] ++ w).
  eapply M_Seq; [apply M_Cls; assumption | apply matches_star_intro; assumption].
Qed.

(** What the extension pattern finds. *)
Lemma extension_match_inv path m :
  exec extensionPattern path = Some m ->
  exists pre seg,
    path = pre ++ 46 :: seg /\ seg <> [] /\
    Forall (fun c => is_segment_char c = true) seg /\
    index m = length pre /\ whole m = 46 :: seg.
Proof.
  intros He. apply exec_sound in He.
  destruct He as (pre & rest & Hpath & Hidx & Hm).
  change (ignoreCase extensionPattern) with false in Hm.
  cbn [body extensionPattern seq] in Hm.
  apply matches_seq_inv in Hm. destruct Hm as (w1 & t1 & c1 & E1 & H1 & Hm).
  apply matches_seq_inv in Hm. destruct Hm as (seg & t2 & c2 & E2 & H2 & Hm).
  apply matches_cls_inv in H1. destruct H1 as (ch & -> & Hch & _).
  apply matches_eol_inv in Hm. destruct Hm as (-> & -> & _).
  apply EntryFacts.matches_plus_cls in H2. destruct H2 as (Hne & Hall & _).
  assert (ch = 46).
  { unfold cls_match, chr, code in Hch. simpl in Hch.
    rewrite orb_false_r in Hch. apply N.eqb_eq in Hch. exact Hch. }
  subst ch. rewrite app_nil_r in E2. subst t1.
  exists pre, seg. rewrite Hpath, E1, app_nil_r. repeat split; auto.
  eapply Forall_impl; [|exact Hall].
  intros a Ha. rewrite <- segment_cls_match. exact Ha.
Qed.

(** Where two splittings of a list at a marker agree. *)
Lemma split_at_unique (x y : char) pre s base n :
  pre ++ x :: s = base ++ y :: n ->
  ~ In y s -> ~ In x n ->
  pre = base /\ x = y /\ s = n.
Proof.
  intros E Hs Hn. apply app_eq_app in E.
  destruct E as (l & [[E1 E2] | [E1 E2]]).
  - destruct l as [|a l].
    + simpl in E2. inversion E2; subst. rewrite app_nil_r. auto.
    + simpl in E2. inversion E2; subst. exfalso. apply Hn.
      apply in_or_app. right. left. reflexivity.
  - destruct l as [|a l].
    + simpl in E2. inversion E2; subst. rewrite app_nil_r. auto.
    + simpl in E2. inversion E2; subst. exfalso. apply Hs.
      apply in_or_app. right. left. reflexivity.
Qed.

Lemma segment_no (x : char) seg :
  (x = 46 \/ x = 47) ->
  Forall (fun c => is_segment_char c = true) seg -> ~ In x seg.
Proof.
  intros Hx Hall Hin. rewrite Forall_forall in Hall.
  apply Hall, segment_char_spec in Hin. destruct Hx; subst; tauto.
Qed.

Lemma no_dot_not_in s : existsb (N.eqb 46) s = false -> ~ In 46 s.
Proof.
  intros H Hin. assert (existsb (N.eqb 46) s = true).
  { apply existsb_exists. exists 46. split; auto. }
  congruence.
Qed.

(** The extension of a path is replaced. *)
Lemma replace_extension (by_ base ext : jsstring) :
  ext <> [] ->
  Forall (fun c => is_segment_char c = true) ext ->
  replace extensionPattern by_ (base ++ 46 :: ext) = base ++ by_.
Proof.
  intros Hne Hall. unfold replace.
  destruct (exec extensionPattern (base ++ 46 :: ext)) as [m|] eqn:He.
  - apply extension_match_inv in He.
    destruct He as (pre & seg & Hp & _ & Hseg & Hi & Hw).
    symmetry in Hp. apply split_at_unique in Hp;
      [|apply segment_no; auto|apply segment_no; auto].
    destruct Hp as (-> & _ & ->).
    rewrite Hi, Hw.
    rewrite firstn_app, firstn_all, Nat.sub_diag. cbn [firstn].
    rewrite app_nil_r.
    rewrite skipn_all2; [rewrite app_nil_r; reflexivity|].
    rewrite length_app. apply Nat.le_refl.
  - exfalso.
    assert (Hm : matches false (body extensionPattern) (length base) no_caps
                   (46 :: ext) [] no_caps).
    { cbn [body extensionPattern seq].
      replace (46 :: ext) with ([46] ++ ext ++ [])
        by (rewrite app_nil_r; reflexivity).
      eapply M_Seq; [apply M_Cls; reflexivity|].
      eapply M_Seq; [|apply M_Eol].
      destruct ext as [|ch ext]; [congruence|].
      apply matches_plus_intro.
      eapply Forall_impl; [|exact Hall].
      intros a Ha. rewrite segment_cls_match. exact Ha. }
    apply (test_complete extensionPattern base) in Hm.
    rewrite app_nil_r in Hm. unfold test in Hm.
    match type of He with
    | ?found = None =>
        change (match found with Some _ => true | None => false end = true)
          in Hm
    end.
    rewrite He in Hm. discriminate.
Qed.

(** A path whose last segment has no dot is left as it is. *)
Lemma replace_no_extension (by_ dir name : jsstring) :
  existsb (N.eqb 46) name = false ->
  replace extensionPattern by_ (dir ++ 47 :: name) = dir ++ 47 :: name /\
  replace extensionPattern by_ name = name.
Proof.
  intros Hn. pose proof (no_dot_not_in _ Hn) as Hnot.
  unfold replace. split.
  - destruct (exec extensionPattern (dir ++ 47 :: name)) as [m|] eqn:He;
      [|reflexivity].
    apply extension_match_inv in He.
    destruct He as (pre & seg & Hp & _ & Hseg & _).
    symmetry in Hp. apply split_at_unique in Hp;
      [|apply segment_no; auto|exact Hnot].
    destruct Hp as (_ & E & _). discriminate.
  - destruct (exec extensionPattern name) as [m|] eqn:He; [|reflexivity].
    apply extension_match_inv in He.
    destruct He as (pre & seg & Hp & _). exfalso. apply Hnot.
    rewrite Hp. apply in_or_app. right. left. reflexivity.
Qed.

End ExtensionFacts.

(** X15. The preprocessed image is written beside the original, with
    the extension of the file name replaced by "_processed.png". A path
    whose file name has no extension (no dot after the last slash) is
    left unchanged, so that the image is then written over the
    original. *)
Theorem preprocessed_path (w : services) (t : list event)
  (base ext dir name : jsstring) :
  (ext <> [] ->
   forallb ExtensionFacts.is_segment_char ext = true ->
   preprocessImage w (base ++ 46%N :: ext) t
   = (match sharpToFile w (base ++ 46%N :: ext)
              (base ++ str "_processed.png") with
      | inl e => inl e
      | inr _ => inr (base ++ str "_processed.png")
      end,
      t ++ [SharpToFile (base ++ 46%N :: ext)
              (base ++ str "_processed.png")])) /\
  (existsb (N.eqb 46) name = false ->
   preprocessImage w (dir ++ 47%N :: name) t
   = (match sharpToFile w (dir ++ 47%N :: name) (dir ++ 47%N :: name) with
      | inl e => inl e
      | inr _ => inr (dir ++ 47%N :: name)
      end,
      t ++ [SharpToFile (dir ++ 47%N :: name) (dir ++ 47%N :: name)])).
Proof.
  split.
  - intros Hne Hall. unfold preprocessImage, bind, call, ret.
    rewrite ExtensionFacts.replace_extension;
      [|exact Hne|apply Forall_forall; apply forallb_forall; exact Hall].
    destruct (sharpToFile w (base ++ 46%N :: ext)
                (base ++ str "_processed.png")) as [e|u]; reflexivity.
  - intros Hn. unfold preprocessImage, bind, call, ret.
    destruct (ExtensionFacts.replace_no_extension (str "_processed.png") dir
                _ Hn) as [E _].
    rewrite E.
    destruct (sharpToFile w (dir ++ 47%N :: name) (dir ++ 47%N :: name))
      as [e|u]; reflexivity.
Qed.

Lemma preprocessed_path_witness :
  preprocessImage (pdf_services []) (str "uploads/photo" ++ 46%N :: str "jpeg") []
  = (inr (str "uploads/photo_processed.png"),
     [SharpToFile (str "uploads/photo.jpeg")
        (str "uploads/photo_processed.png")]) /\
  preprocessImage (pdf_services []) (str "uploads" ++ 47%N :: str "a1b2c3") []
  = (inr (str "uploads/a1b2c3"),
     [SharpToFile (str "uploads/a1b2c3") (str "uploads/a1b2c3")]).
Proof.
  destruct (preprocessed_path (pdf_services []) [] (str "uploads/photo")
              (str "jpeg") (str "uploads") (str "a1b2c3")) as [H1 H2].
  split.
  - rewrite H1; [reflexivity | discriminate | reflexivity].
  - rewrite H2; reflexivity.
Defined.

(** ** Dates and distances are pieces of the text *)

Module PieceFacts.
Import Notions JSFacts RegExpFacts.
Local Open Scope N_scope.

(** A pattern that is one group: the group is the whole match. *)
Lemma exec_group_whole icase n r s m :
  exec (Pattern (Group n r) icase) s = Some m ->
  groups m n = Some (whole m) /\
  exists pre rest, s = pre ++ whole m ++ rest.
Proof.
  intros He. apply exec_sound in He.
  destruct He as (pre & rest & Hs & _ & Hm). cbn [body ignoreCase] in Hm.
  apply matches_group_inv in Hm. destruct Hm as (c1 & _ & ->).
  split; [unfold set_cap; rewrite Nat.eqb_refl; reflexivity|eauto].
Qed.

Lemma extractDate_from_piece h ps text d :
  Forall (fun p => exists r, p = Pattern (Group 1 r) false) ps ->
  extractDate_from h ps text = Some d ->
  exists pre piece rest,
    text = pre ++ piece ++ rest /\ isoDate h piece = Some d.
Proof.
  induction 1 as [|p ps (r & ->) _ IH]; simpl; [discriminate|].
  destruct (exec (Pattern (Group 1 r) false) text) as [m|] eqn:He; auto.
  apply exec_group_whole in He. destruct He as (Hg & pre & rest & Ht).
  unfold group. rewrite Hg.
  destruct (isoDate h (whole m)) as [d'|] eqn:Hd; auto.
  intros E. inversion E; subst. eauto.
Qed.

Lemma distance_starts_with_digit line m :
  exec distancePattern line = Some m ->
  exists d rest, whole m = d :: rest /\ is_digit d = true.
Proof.
  intros He. apply exec_sound in He.
  destruct He as (pre & rest & _ & _ & Hm).
  change (ignoreCase distancePattern) with true in Hm.
  cbn [body distancePattern seq] in Hm.
  apply matches_group_inv in Hm. destruct Hm as (c1 & Hm & _).
  apply matches_seq_inv in Hm. destruct Hm as (w1 & w2 & c2 & -> & H1 & _).
  apply RaceFacts.matches_digits in H1.
  destruct H1 as (d & ds & -> & Hall & _). inversion Hall; subst.
  exists d, (ds ++ w2). split; auto.
Qed.

End PieceFacts.

(** X16. The date of a card is what the host reads from a piece of the
    text, or else the current day: a date is never made up from
    anything but the text and the clock. *)
Theorem card_date_from_text_or_clock (h : clock) (text : jsstring) :
  RaceCard.date (parseRaceData h text) = today h \/
  exists before piece after,
    text = before ++ piece ++ after /\
    isoDate h piece = Some (RaceCard.date (parseRaceData h text)).
Proof.
  unfold parseRaceData. cbn [RaceCard.date].
  destruct (extractDate h text) as [[|c d]|] eqn:E; simpl; auto.
  right. apply (@PieceFacts.extractDate_from_piece h datePatterns).
  - unfold datePatterns. repeat constructor; eexists; reflexivity.
  - exact E.
Qed.

(** X17. A distance is a piece of its line that starts with a decimal
    digit; in particular it is never the empty string, so every distance
    found in the window of a race is taken. *)
Theorem distance_is_a_piece_of_line (line d : jsstring) :
  extractDistance line = Some d ->
  (exists before after, line = before ++ d ++ after) /\
  (exists c rest, d = c :: rest /\ is_digit c = true) /\
  Notions.truthy_distance line = Some d.
Proof.
  unfold Notions.truthy_distance, extractDistance.
  destruct (exec distancePattern line) as [m|] eqn:He; [|discriminate].
  simpl. intros E. inversion E; subst; clear E.
  pose proof (PieceFacts.distance_starts_with_digit _ He) as (c & rest & Hw & Hc).
  unfold distancePattern in He.
  apply PieceFacts.exec_group_whole in He.
  destruct He as (Hg & pre & post & Hl).
  unfold group. rewrite Hg, Hw in *.
  split; [eauto|]. split; [eauto|reflexivity].
Qed.

Lemma distance_is_a_piece_of_line_witness :
  exists before after,
    str "About 1.5 Miles on the turf" = before ++ str "1.5 Miles" ++ after.
Proof.
  apply (@distance_is_a_piece_of_line (str "About 1.5 Miles on the turf")
           (str "1.5 Miles")).
  vm_compute. reflexivity.
Defined.

(** ** The caller: [processFileAsync] *)

Module UploadFacts.
Import Upload.

(** A computation that only adds events to the trace, none of them a
    removal of a file. *)
Definition keeps_files {A} (m : C A) : Prop :=
  forall s,
    exists added,
      trace (snd (m s)) = trace s ++ added /\ filter is_unlink added = [].

Lemma keeps_cret A (a : A) : keeps_files (cret a).
Proof. intros s. exists []. simpl. rewrite app_nil_r. auto. Qed.

Lemma keeps_modify f : keeps_files (modify f).
Proof. intros s. exists []. simpl. rewrite app_nil_r. auto. Qed.

Lemma keeps_current : keeps_files current.
Proof. intros s. exists []. simpl. rewrite app_nil_r. auto. Qed.

Lemma keeps_ccall A ev (o : exn + A) :
  is_unlink ev = false -> keeps_files (ccall ev o).
Proof. intros H s. exists [ev]. simpl. rewrite H. auto. Qed.

Lemma keeps_service A (m : M A) : keeps_files (service m).
Proof.
  intros s. unfold service. destruct (m []) as [r events].
  exists (map Service events). simpl. split; auto.
  induction events; simpl; auto.
Qed.

Lemma keeps_cbind A B (m : C A) (f : A -> C B) :
  keeps_files m -> (forall a, keeps_files (f a)) -> keeps_files (cbind m f).
Proof.
  intros Hm Hf s. unfold cbind. destruct (Hm s) as (a1 & E1 & F1).
  destruct (m s) as [[e | a] s1]; simpl in *.
  - exists a1. auto.
  - destruct (Hf a s1) as (a2 & E2 & F2).
    exists (a1 ++ a2). rewrite E2, E1, app_assoc, filter_app, F1, F2. auto.
Qed.

Lemma keeps_ctry_catch A (m : C A) (handler : exn -> C A) :
  keeps_files m -> (forall e, keeps_files (handler e)) ->
  keeps_files (ctry_catch m handler).
Proof.
  intros Hm Hf s. unfold ctry_catch. destruct (Hm s) as (a1 & E1 & F1).
  destruct (m s) as [[e | a] s1]; simpl in *.
  - destruct (Hf e s1) as (a2 & E2 & F2).
    exists (a1 ++ a2). rewrite E2, E1, app_assoc, filter_app, F1, F2. auto.
  - exists a1. auto.
Qed.

Ltac keeps :=
  repeat first
    [ apply keeps_cbind; [|intros ?]
    | apply keeps_ctry_catch; [|intros ?]
    | apply keeps_cret
    | apply keeps_modify
    | apply keeps_current
    | apply keeps_service
    | apply keeps_ccall; reflexivity
    | match goal with
      | |- keeps_files (match ?x with _ => _ end) => destruct x
      end ].

(** What [cleanupFile] logs: the removal, or that it failed. *)
Definition cleanup_note (io : collaborators) (filePath : jsstring) : cevent :=
  match unlink io filePath with
  | inr _ => Info (str "Cleaned up file: " ++ filePath)
  | inl _ => Failure (str "Failed to cleanup file: " ++ filePath)
  end.

(** [cleanupFile] never throws and tries the removal once. *)
Lemma cleanupFile_outcome io filePath s :
  exists note,
    cleanupFile io filePath s
    = (inr tt, {| upload := upload s;
                  trace := trace s ++ [Unlink filePath; note] |}) /\
    is_unlink note = false /\
    note = cleanup_note io filePath.
Proof.
  unfold cleanupFile, cleanup_note, ctry_catch, cbind, clog, ccall.
  destruct (unlink io filePath) as [e | u]; simpl; eexists;
    (split; [rewrite <- app_assoc; reflexivity | split; reflexivity]).
Qed.

(** Whatever is tried before, the [finally] removes the file once, at
    the end, and changes nothing else. *)
Lemma finally_cleanup A (m : C A) io filePath :
  keeps_files m ->
  forall s,
    exists before note,
      ctry_finally m (cleanupFile io filePath) s
      = (fst (m s),
         {| upload := upload (snd (m s));
            trace := trace s ++ before ++ [Unlink filePath; note] |}) /\
      filter is_unlink before = [] /\ is_unlink note = false /\
      note = cleanup_note io filePath.
Proof.
  intros Hm s. destruct (Hm s) as (before & E & F).
  unfold ctry_finally. destruct (m s) as [r s1]. simpl in *.
  destruct (cleanupFile_outcome io filePath s1) as (note & Hc & Hn & Hnote).
  rewrite Hc. exists before, note. rewrite E, <- app_assoc. auto.
Qed.

(** The service always answers, with a result of one of two kinds. *)
Lemma processFile_answers h w filePath fileName t :
  exists res t',
    processFile h w filePath fileName t = (inr res, t') /\
    ((OCRResult.success res = true /\
      exists data, OCRResult.extractedData res = Some data) \/
     OCRResult.success res = false).
Proof.
  destruct (dispatch h w filePath fileName t) as [[e | res] t1] eqn:Hd.
  - exists (failure e), (t1 ++ [LogError (str "OCR processing error:")]).
    split; [apply OrchestratorFacts.processFile_catches; exact Hd|].
    right. reflexivity.
  - exists res, t1.
    split; [apply OrchestratorFacts.processFile_returns; exact Hd|].
    left. destruct (PathFacts.dispatch_extracted _ _ _ _ _ Hd) as (Hs & Hx & _).
    split; auto. destruct (OCRResult.extractedData res); [eauto|congruence].
Qed.

Lemma notifications_app t1 t2 :
  notifications (t1 ++ t2) = notifications t1 ++ notifications t2.
Proof. apply flat_map_app. Qed.

Lemma notifications_service events :
  notifications (map Service events) = [].
Proof. induction events; simpl; auto. Qed.

(** The [finally] sends nothing. *)
Lemma finally_cleanup_notifications A (m : C A) io filePath s :
  ctry_finally m (cleanupFile io filePath) s
  = (fst (m s), snd (ctry_finally m (cleanupFile io filePath) s)) /\
  upload (snd (ctry_finally m (cleanupFile io filePath) s))
  = upload (snd (m s)) /\
  notifications (trace (snd (ctry_finally m (cleanupFile io filePath) s)))
  = notifications (trace (snd (m s))).
Proof.
  unfold ctry_finally. destruct (m s) as [r s1].
  unfold cleanupFile, ctry_catch, cbind, clog, ccall.
  destruct (unlink io filePath) as [e | u]; simpl;
    rewrite ?notifications_app; simpl; rewrite ?app_nil_r; auto.
Qed.

Lemma service_events_app t1 t2 :
  service_events (t1 ++ t2) = service_events t1 ++ service_events t2.
Proof. apply flat_map_app. Qed.

Lemma service_events_service events :
  service_events (map Service events) = events.
Proof. induction events; simpl; congruence. Qed.

Lemma finally_cleanup_service_events A (m : C A) io filePath s :
  service_events (trace (snd (ctry_finally m (cleanupFile io filePath) s)))
  = service_events (trace (snd (m s))).
Proof.
  unfold ctry_finally. destruct (m s) as [r s1].
  unfold cleanupFile, ctry_catch, cbind, clog, ccall.
  destruct (unlink io filePath) as [e | u]; simpl;
    rewrite ?service_events_app; simpl; rewrite ?app_nil_r; auto.
Qed.

(** A file of no known kind: the service answers at once. *)
Lemma processFile_unsupported h w filePath fileName t :
  existsb (JS.eqb (fileExtension_of fileName)) (pdf_kinds ++ image_kinds)
  = false ->
  processFile h w filePath fileName t
  = (inr (failure (Error (str "Unsupported file type: "
                          ++ fileExtension_of fileName))),
     t ++ [LogError (str "OCR processing error:")]).
Proof.
  intros H. rewrite existsb_app in H. apply orb_false_iff in H.
  destruct H as [Hp Hi].
  apply OrchestratorFacts.processFile_catches.
  unfold dispatch. rewrite Hp, Hi. reflexivity.
Qed.

Ltac notify :=
  rewrite ?notifications_app, ?notifications_service;
  cbn [notifications flat_map app]; rewrite <- ?app_assoc; cbn [app].

Ltac run_controller :=
  unfold ctry_catch, cbind, modify, current, ccall, clog, service, cret.

Ltac settle_outcome :=
  repeat match goal with
         | |- context [emit ?io ?p] =>
             let o := fresh "sent" in
             destruct (emit io p) as [? | o] eqn:?; simpl
         end;
  repeat match goal with u : unit |- _ => destruct u end;
  first
    [ left; reflexivity
    | match goal with
      | H : emit _ ?p = inl ?e |- _ =>
          right; exists p, e;
          split; [reflexivity | split; [exact H | reflexivity]]
      end ].

Ltac split_emit :=
  match goal with
  | |- context [emit ?io ?p] =>
      let o := fresh "sent" in
      destruct (emit io p) as [? | o] eqn:?; simpl
  end.

End UploadFacts.

(** X18. Whatever happens while a file is processed (the recognition
    fails, or a notification cannot be sent) the uploaded file is
    removed exactly once, as the last call of [processFileAsync]. The
    removal is then logged, and a failure of the removal is logged and
    nothing more: [processFileAsync] ends normally, unless the socket
    threw on a notification of failure, and then with what the socket
    threw. *)
Theorem upload_is_always_cleaned_up (h : clock) (w : services)
  (io : Upload.collaborators) (filePath : jsstring) (s : Upload.cstate) :
  exists outcome final before,
    Upload.processFileAsync h w io filePath s = (outcome, final) /\
    Upload.trace final
    = Upload.trace s ++ before
      ++ [Upload.Unlink filePath;
          match Upload.unlink io filePath with
          | inr _ => Upload.Info (str "Cleaned up file: " ++ filePath)
          | inl _ =>
              Upload.Failure (str "Failed to cleanup file: " ++ filePath)
          end] /\
    filter Upload.is_unlink before = [] /\
    (outcome = inr tt \/
     exists p e,
       Upload.p_status p = Upload.failed /\
       Upload.emit io p = inl e /\
       outcome = inl e).
Proof.
  unfold Upload.processFileAsync.
  match goal with
  | |- context [Upload.ctry_finally ?m _] =>
      destruct (@UploadFacts.finally_cleanup unit m io filePath) with (s := s)
        as (before & note & E & F & _ & Hnote);
        [UploadFacts.keeps|];
      assert (Ho : fst (m s) = inr tt \/
                   exists p e,
                     Upload.p_status p = Upload.failed /\
                     Upload.emit io p = inl e /\
                     fst (m s) = inl e)
  end.
  { clear E.
    destruct (UploadFacts.processFile_answers h w filePath
                (Upload.originalName (Upload.upload s)) [])
      as (res & ev & Hp & Hres).
    UploadFacts.run_controller. simpl.
    UploadFacts.split_emit.
    - UploadFacts.settle_outcome.
    - rewrite Hp. simpl.
      destruct Hres as [[Hs [data Hd]] | Hs]; rewrite Hs; [rewrite Hd|]; simpl.
      + destruct (RaceCard.races data) eqn:Hr; simpl;
          UploadFacts.settle_outcome.
      + UploadFacts.settle_outcome. }
  eexists. eexists. exists before.
  split; [exact E|]. cbn [Upload.trace]. rewrite Hnote.
  split; [reflexivity|]. split; [exact F | exact Ho].
Qed.

(** X19. When [processFileAsync] is over the upload is never left
    [processing]: it is [completed] or [failed], a result is recorded on
    it, and the two agree.  A completed upload records a successful
    result with its race card; it has the new race card id when that
    card has a race, and the id it had before otherwise.  A failed
    upload records a result that is not successful. *)
Theorem upload_status_agrees_with_result (h : clock) (w : services)
  (io : Upload.collaborators) (filePath : jsstring) (s : Upload.cstate) :
  let final := Upload.upload (snd (Upload.processFileAsync h w io filePath s)) in
  exists res,
    Upload.ocrResult final = Some res /\
    ((Upload.status final = Upload.completed /\
      OCRResult.success res = true /\
      exists data,
        OCRResult.extractedData res = Some data /\
        Upload.raceCardId final
        = match RaceCard.races data with
          | [] => Upload.raceCardId (Upload.upload s)
          | _ :: _ => Some (Upload.uuidv4 io)
          end) \/
     (Upload.status final = Upload.failed /\
      OCRResult.success res = false)).
Proof.
  intros final. subst final. unfold Upload.processFileAsync.
  match goal with
  | |- context [Upload.ctry_finally ?m _] =>
      destruct (@UploadFacts.finally_cleanup unit m io filePath) with (s := s)
        as (before & note & E & _); [UploadFacts.keeps|rewrite E; clear E]
  end.
  cbn [snd Upload.upload].
  destruct (UploadFacts.processFile_answers h w filePath
              (Upload.originalName (Upload.upload s)) [])
    as (res & ev & Hp & Hres).
  UploadFacts.run_controller. simpl.
  UploadFacts.split_emit.
  - eexists; (split; [reflexivity|right; split; reflexivity]).
  - rewrite Hp. simpl.
    destruct Hres as [[Hs [data Hd]] | Hs]; rewrite Hs; [rewrite Hd|]; simpl.
    + destruct (RaceCard.races data) eqn:Hr; simpl;
        UploadFacts.split_emit; eexists; (split; [reflexivity|]);
        solve [ left; split; [reflexivity|]; split; [exact Hs|];
                exists data; split; [exact Hd|]; rewrite Hr; reflexivity
              | right; split; reflexivity ].
    + UploadFacts.split_emit; eexists; (split; [reflexivity|]);
        right; split; solve [reflexivity | exact Hs].
Qed.

(** X20. During [processFileAsync] the socket is told first that the
    upload is [processing], and the last thing it is told is the status
    the upload is left with; at most one notification lies between the
    two (the one whose sending failed), and all of them name this
    upload. *)
Theorem last_notification_is_final_status (h : clock) (w : services)
  (io : Upload.collaborators) (filePath : jsstring) (s : Upload.cstate) :
  let final := snd (Upload.processFileAsync h w io filePath s) in
  exists first middle last,
    Upload.notifications (Upload.trace final)
    = Upload.notifications (Upload.trace s) ++ first :: middle ++ [last] /\
    Upload.p_status first = Upload.processing /\
    Upload.p_status last = Upload.status (Upload.upload final) /\
    (length middle <= 1)%nat /\
    Forall (fun p => Upload.p_fileId p = Upload.id (Upload.upload s))
      (first :: middle ++ [last]).
Proof.
  intros final. subst final. unfold Upload.processFileAsync.
  match goal with
  | |- context [Upload.ctry_finally ?m _] =>
      destruct (@UploadFacts.finally_cleanup_notifications unit m io filePath s)
        as (_ & Eu & En); rewrite Eu, En; clear Eu En
  end.
  destruct (UploadFacts.processFile_answers h w filePath
              (Upload.originalName (Upload.upload s)) [])
    as (res & ev & Hp & Hres).
  UploadFacts.run_controller. simpl.
  UploadFacts.split_emit.
  - UploadFacts.notify;
      eexists _, [], _; (split; [reflexivity|]); simpl;
      repeat split; auto.
  - rewrite Hp. simpl.
    destruct Hres as [[Hs [data Hd]] | Hs]; rewrite Hs; [rewrite Hd|]; simpl.
    + destruct (RaceCard.races data) eqn:Hr; simpl;
        repeat UploadFacts.split_emit;
        UploadFacts.notify;
        first [ eexists _, [], _; split; [reflexivity|]
              | eexists _, [_], _; split; [reflexivity|] ];
        simpl; repeat split; auto.
    + repeat UploadFacts.split_emit;
        UploadFacts.notify;
        first [ eexists _, [], _; split; [reflexivity|]
              | eexists _, [_], _; split; [reflexivity|] ];
        simpl; repeat split; auto.
Qed.

(** X21. With a socket that accepts every notification,
    [processFileAsync] does not throw, whatever the recognition and the
    removal of the file do, and sends exactly two notifications: that
    the upload is [processing], then its final status, together with
    the race card and race card id of a completed upload or the errors
    of a failed one, as recorded on the upload. *)
Theorem processFileAsync_reports_once (h : clock) (w : services)
  (io : Upload.collaborators) (filePath : jsstring) (s : Upload.cstate)
  (Hsocket : forall p, Upload.emit io p = inr tt) :
  let run := Upload.processFileAsync h w io filePath s in
  let final := Upload.upload (snd run) in
  fst run = inr tt /\
  exists first last res,
    Upload.notifications (Upload.trace (snd run))
    = Upload.notifications (Upload.trace s) ++ [first; last] /\
    Upload.p_status first = Upload.processing /\
    Upload.p_status last = Upload.status final /\
    Upload.ocrResult final = Some res /\
    (Upload.status final = Upload.completed ->
     Upload.p_extractedData last = OCRResult.extractedData res /\
     Upload.p_raceCardId last = Upload.raceCardId final) /\
    (Upload.status final = Upload.failed ->
     Upload.p_errors last = OCRResult.errors res).
Proof.
  intros run final. subst final run. unfold Upload.processFileAsync.
  match goal with
  | |- context [Upload.ctry_finally ?m _] =>
      destruct (@UploadFacts.finally_cleanup_notifications unit m io filePath s)
        as (Eo & Eu & En); rewrite Eu, En; rewrite Eo; clear Eo Eu En
  end.
  cbn [fst].
  destruct (UploadFacts.processFile_answers h w filePath
              (Upload.originalName (Upload.upload s)) [])
    as (res & ev & Hp & Hres).
  UploadFacts.run_controller. simpl.
  rewrite !Hsocket. rewrite Hp. simpl.
  destruct Hres as [[Hs [data Hd]] | Hs]; rewrite Hs; [rewrite Hd|]; simpl.
  - destruct (RaceCard.races data) eqn:Hr; simpl; rewrite ?Hsocket; simpl;
      (split; [reflexivity|]); UploadFacts.notify;
      eexists _, _, _; (split; [reflexivity|]); simpl;
      repeat split; auto; discriminate.
  - rewrite ?Hsocket; simpl;
      (split; [reflexivity|]); UploadFacts.notify;
      eexists _, _, _; (split; [reflexivity|]); simpl;
      repeat split; auto; discriminate.
Qed.

Lemma processFileAsync_reports_once_witness :
  (forall p, Upload.emit Upload.quiet p = inr tt) /\
  fst (Upload.processFileAsync Examples.utc_clock
         (Examples.pdf_services Examples.santa_anita) Upload.quiet
         (str "uploads/card.pdf")
         {| Upload.upload := Upload.fresh_upload "card.pdf";
            Upload.trace := [] |})
  = inr tt.
Proof.
  split; [reflexivity|].
  apply (processFileAsync_reports_once Examples.utc_clock
           (Examples.pdf_services Examples.santa_anita) Upload.quiet
           (str "uploads/card.pdf")
           {| Upload.upload := Upload.fresh_upload "card.pdf";
              Upload.trace := [] |}).
  reflexivity.
Defined.

(** X22. With a socket that accepts every notification, an upload
    whose name has none of the kinds pdf, jpg, jpeg and png is answered
    without a look at the file: nothing is read or recognised, the
    upload is left [failed] with the one error
    "Unsupported file type: <kind>" recorded on it and no new race card
    id, and that error is what the last of the two notifications
    carries. *)
Theorem unsupported_upload_fails (h : clock) (w : services)
  (io : Upload.collaborators) (filePath : jsstring) (s : Upload.cstate)
  (Hkind : existsb (JS.eqb (fileExtension_of
                              (Upload.originalName (Upload.upload s))))
             (pdf_kinds ++ image_kinds) = false)
  (Hsocket : forall p, Upload.emit io p = inr tt) :
  let run := Upload.processFileAsync h w io filePath s in
  let final := Upload.upload (snd run) in
  let message :=
    str "Unsupported file type: "
    ++ fileExtension_of (Upload.originalName (Upload.upload s)) in
  Upload.status final = Upload.failed /\
  Upload.ocrResult final = Some (failure (Error message)) /\
  Upload.raceCardId final = Upload.raceCardId (Upload.upload s) /\
  Upload.service_events (Upload.trace (snd run))
  = Upload.service_events (Upload.trace s)
    ++ [LogError (str "OCR processing error:")] /\
  exists first last,
    Upload.notifications (Upload.trace (snd run))
    = Upload.notifications (Upload.trace s) ++ [first; last] /\
    Upload.p_status last = Upload.failed /\
    Upload.p_errors last = Some [message].
Proof.
  intros run final message. subst final run message.
  unfold Upload.processFileAsync.
  match goal with
  | |- context [Upload.ctry_finally ?m _] =>
      destruct (@UploadFacts.finally_cleanup_notifications unit m io filePath s)
        as (_ & Eu & En); rewrite Eu, En;
      rewrite (@UploadFacts.finally_cleanup_service_events unit m io filePath s);
      clear Eu En
  end.
  pose proof (UploadFacts.processFile_unsupported h w filePath _ [] Hkind)
    as Hp.
  UploadFacts.run_controller. simpl.
  rewrite !Hsocket. rewrite Hp. simpl. rewrite ?Hsocket. simpl.
  repeat split.
  - rewrite ?UploadFacts.service_events_app. simpl.
    rewrite ?app_nil_r. reflexivity.
  - UploadFacts.notify. eexists _, _. split; [reflexivity|].
    split; reflexivity.
Qed.

Lemma unsupported_upload_fails_witness :
  Upload.status
    (Upload.upload
       (snd (Upload.processFileAsync Examples.utc_clock
               (Examples.pdf_services Examples.santa_anita) Upload.quiet
               (str "uploads/notes.txt")
               {| Upload.upload := Upload.fresh_upload "notes.txt";
                  Upload.trace := [] |})))
  = Upload.failed.
Proof.
  apply (@unsupported_upload_fails Examples.utc_clock
           (Examples.pdf_services Examples.santa_anita) Upload.quiet
           (str "uploads/notes.txt")
           {| Upload.upload := Upload.fresh_upload "notes.txt";
              Upload.trace := [] |}).
  - vm_compute. reflexivity.
  - reflexivity.
Defined.
